(** * StreamVC: causal convolutional encoder / decoder

    A shallow embedding of [streamvc/encoder_decoder.py] and the
    verification of its shape algebra, its construction-time checks, its
    causality and its conditioning laws.  The classifier of
    [streamvc/train/encoder_classifier.py] and the two functions of
    [train.py] that build it and its labels are embedded with it.

    Conventions.
    - Python integers are [Z]; a tensor shape ([torch.Size]) is a [list Z]
      written in PyTorch's order, so a channel-major signal has shape
      [[batch; channel; time]].
    - A tensor is its shape together with a total function from multi-indices
      to scalars.  Only the values at in-range indices are meaningful.
    - Scalars are abstract (class [Scalar]): shapes, exceptions and which
      elements an operation reads do not depend on the arithmetic.  The FiLM
      identity law, which does, is stated over [float32], the values and
      operations of IEEE 754 binary32.
    - A raised Python exception is the [Raise] case of [result].
    - Learnable parameters live in a [state_dict], addressed by the path of
      the owning sub-module, as PyTorch does.

    The claims and their theorems.
    - C1  [Encoder_causal]: causality of the Encoder.
    - C2  [CausalConv1d_output_length]: output length of [CausalConv1d].
    - C3  [Encoder_frames]: frame count of the Encoder.
    - C4  [Decoder_samples]: sample count of the Decoder, and the inputs
          without a sample count.
    - C5  [CausalConvTranspose1d_output_length]: output length of
          [CausalConvTranspose1d].
    - C6  [LearnablePooling_forward_raises]: [LearnablePooling.forward].
    - C7  [configuration_errors]: what the constructors refuse.
    - C8  [FiLM_identity]: the FiLM identity law over floats.
    - C9  [ResidualUnit_shape_safe]: shape safety of [ResidualUnit].
    - C10 [CausalConvTranspose1d_zero_trim_empty]: a zero trim empties the
          time axis.

    Further theorems.
    - X1  [EncoderBlock_frames], X2 [DecoderBlock_samples]: the shapes of
          the blocks.
    - X3  [Decoder_after_Encoder]: the length of a round trip.
    - X4  [Decoder_refuses]: the inputs the Decoder refuses.
    - X5  [SequentialWithFiLM_dispatch]: which children see the condition.
    - X6  [FiLM_shapes], X7 [FiLM_affine]: FiLM on shapes and on elements.
    - X8  [CausalConv1d_causal], X9 [CausalConvTranspose1d_causal],
      X10 [Decoder_causal]: causality of the layers and of the Decoder.
    - X11 [CausalConv1d_reflect_looks_ahead]: padding by reflection.
    - X12 [train_content_encoder_raises], X13 [EncoderClassifier_logits],
      X14 [EncoderClassifier_causal]: the classifier.
    - X15 [get_batch_labels_masked], X16 [get_batch_labels_refuses]: the
          labels of the training script.
    - X17 [Encoder_rows_independent]: the rows of a batch do not mix.
    - X18 [ResidualUnit_stride_keyword]: keyword arguments handed through
          [ResidualUnit].
    - X19 [networks_refuse_ranks]: the ranks the networks accept.
    - X20 [encoder_state_dict_keys]: the checkpoint keys of the content
          encoder.
    - X21 [Decoder_rows_independent]: the rows of a batch in the Decoder.
    - X22 [convolutions_without_channels], X23
          [boolean_stride_fails_at_forward], X24
          [CausalConvTranspose1d_empty_signal]: layers that are built and
          fail when they run. *)

From Stdlib Require Import ZArith List String Bool Lia SpecFloat.
Import ListNotations.
Local Open Scope string_scope.
Local Open Scope list_scope.
Local Open Scope Z_scope.

Set Implicit Arguments.
Set Warnings "-register-all".

(* ================================================================= *)
(** ** Python values, exceptions and keyword arguments *)

(** The exception classes the modelled code paths can raise. *)
Inductive exn : Type :=
| AssertionError
| TypeError
| ValueError
| IndexError
| AttributeError
| NotImplementedError
| RuntimeError
| KeyError
| EinopsError.

Inductive result (A : Type) : Type :=
| Ok (a : A)
| Raise (e : exn).

Arguments Ok {A} a.
Arguments Raise {A} e.

Definition bind {A B : Type} (r : result A) (k : A -> result B) : result B :=
  match r with
  | Ok a => k a
  | Raise e => Raise e
  end.

Notation "x <- r ;; k" := (bind r (fun x => k))
  (at level 61, r at next level, right associativity).

(** [assert cond] of Python. *)
Definition py_assert (cond : bool) : result unit :=
  if cond then Ok tt else Raise AssertionError.

(** [if not cond: raise e]. *)
Definition require (cond : bool) (e : exn) : result unit :=
  if cond then Ok tt else Raise e.

Definition is_ok {A : Type} (r : result A) : bool :=
  match r with Ok _ => true | Raise _ => false end.

(** The Python objects that can be passed through [**kwargs]. *)
Inductive pyobj : Type :=
| PyInt (z : Z)
| PyBool (b : bool)
| PyStr (s : string)
| PyNone.

(** [o == s] for a string literal [s]. *)
Definition py_eq_str (o : pyobj) (s : string) : bool :=
  match o with
  | PyStr t => String.eqb t s
  | _ => false
  end.

(** [**kwargs]: a dict with string keys, in insertion order. *)
Definition kwargs : Type := list (string * pyobj).

Fixpoint kw_get (key : string) (kw : kwargs) : option pyobj :=
  match kw with
  | [] => None
  | (k, v) :: rest => if String.eqb k key then Some v else kw_get key rest
  end.

(** [key in kwargs]. *)
Definition kw_in (key : string) (kw : kwargs) : bool :=
  match kw_get key kw with Some _ => true | None => false end.

(** Every key of [kw] is one of [allowed]; a callee without [**kwargs] of its
    own raises [TypeError] otherwise. *)
Definition kw_all_in (allowed : list string) (kw : kwargs) : bool :=
  forallb (fun kv => existsb (String.eqb (fst kv)) allowed) kw.

(** [kw] without the keys bound to named parameters of the callee. *)
Definition kw_remove (names : list string) (kw : kwargs) : kwargs :=
  filter (fun kv => negb (existsb (String.eqb (fst kv)) names)) kw.

(** A call [f(k1=v1, .., **kw)]: a key given twice is a [TypeError]. *)
Definition kw_call (explicit kw : kwargs) : result kwargs :=
  if existsb (fun kv => kw_in (fst kv) kw) explicit
  then Raise TypeError
  else Ok (explicit ++ kw).

Definition kw_default (key : string) (default : pyobj) (kw : kwargs) : pyobj :=
  match kw_get key kw with
  | None => default
  | Some v => v
  end.

(** The integer an object stands for in Python's arithmetic and
    comparisons with integers: [bool] is a subclass of [int], and a string
    or [None] is a [TypeError]. *)
Definition py_int (o : pyobj) : result Z :=
  match o with
  | PyInt z => Ok z
  | PyBool b => Ok (if b then 1 else 0)
  | _ => Raise TypeError
  end.

(** The same integer for an object that is only stored. *)
Definition int_value (o : pyobj) : Z :=
  match o with
  | PyInt z => z
  | PyBool b => if b then 1 else 0
  | _ => 0
  end.

(** Whether an object is an [int] proper.  Python computes with a [bool]
    as with an integer, but the functions of [torch.nn.functional] refuse
    one where they expect an [int]. *)
Definition is_int (o : pyobj) : bool :=
  match o with
  | PyInt _ => true
  | _ => false
  end.

(** An integer argument used in arithmetic. *)
Definition kw_int (key : string) (default : Z) (kw : kwargs) : result Z :=
  py_int (kw_default key (PyInt default) kw).

(** Python truthiness of an argument. *)
Definition kw_truthy (key : string) (default : bool) (kw : kwargs) : bool :=
  match kw_get key kw with
  | None => default
  | Some (PyInt z) => negb (z =? 0)
  | Some (PyBool b) => b
  | Some (PyStr s) => negb (String.eqb s "")
  | Some PyNone => false
  end.

(* ================================================================= *)
(** ** Scalars and tensors *)

(** The element type of tensors with the operations the network applies to
    elements.  [felu] is ELU; [fexp], [fdiv] and [frsqrt] (the reciprocal
    square root of an integer) serve the attention of [LearnablePooling]. *)
Class Scalar (F : Type) : Type := {
  fzero : F;
  fone : F;
  fadd : F -> F -> F;
  fmul : F -> F -> F;
  felu : F -> F;
  fexp : F -> F;
  fdiv : F -> F -> F;
  frsqrt : Z -> F
}.

Definition dims : Type := list Z.
Definition index : Type := list Z.

Record tensor (F : Type) : Type := mkTensor {
  shape : dims;
  data : index -> F
}.

Arguments mkTensor {F} shape data.

(** [in_range sh idx]: [idx] addresses an element of a tensor of shape [sh]. *)
Fixpoint in_range (sh : dims) (idx : index) : Prop :=
  match sh, idx with
  | [], [] => True
  | n :: sh', i :: idx' => 0 <= i < n /\ in_range sh' idx'
  | _, _ => False
  end.

(** Equality of tensors as [torch.equal] sees it: same shape, same elements. *)
Definition tensor_eq {F : Type} (a b : tensor F) : Prop :=
  shape a = shape b /\
  forall idx, in_range (shape a) idx -> data a idx = data b idx.

(** The sum of [f 0 .. f (n-1)], accumulated from the left. *)
Definition fsum {F : Type} `{Scalar F} (n : Z) (f : Z -> F) : F :=
  fold_left (fun acc i => fadd acc (f (Z.of_nat i))) (seq 0 (Z.to_nat n)) fzero.

(** *** Parameters *)

(** A step into a sub-module: the index of a child of a container, or the
    name of an attribute. *)
Inductive key : Type :=
| Idx (n : nat)
| Attr (name : string).

(** The parameter tensors of a module, keyed by the path of the sub-module
    that owns them followed by the parameter's name.  A parameter is given by
    its elements; its shape is fixed by the owning layer. *)
Definition state_dict (F : Type) : Type := list key -> index -> F.

(** The parameters of the sub-module reached through [k]. *)
Definition sub {F : Type} (sd : state_dict F) (k : key) : state_dict F :=
  fun path => sd (k :: path).

Definition param {F : Type} (sd : state_dict F) (name : string) : index -> F :=
  sd [Attr name].

(* ================================================================= *)
(** ** The PyTorch and einops operations the source calls

    Every operation is a shape rule (which inputs are accepted, and the
    shape of the result) and an element rule (the value at each index of the
    result).  The shape rules are those of the PyTorch documentation. *)

Section Torch.

Context {F : Type} {SF : Scalar F}.

(** A result tensor with the shape given by [rule] and the elements [elems]. *)
Definition with_shape (rule : result dims) (elems : index -> F)
  : result (tensor F) :=
  sh <- rule ;; Ok (mkTensor sh elems).

(** *** [torch.nn.functional.pad(x, pad=(left, 0), mode=..)]

    Only the last axis is padded, on its left.  A negative amount crops.
    [mode] is the string handed to [F.pad]; a string that names no padding
    mode is rejected when the operation runs.  The Encoder and the Decoder
    only ever pad in the constant mode; the conditions of the other three
    modes are those of PyTorch's padding kernels. *)

Definition known_pad_mode (mode : string) : bool :=
  existsb (String.eqb mode) ["constant"; "reflect"; "replicate"; "circular"].

Definition F_pad_shape (left : Z) (mode : string) (sh : dims) : result dims :=
  _ <- require (known_pad_mode mode) NotImplementedError ;;
  match rev sh with
  | [] => Raise RuntimeError
  | T :: lead =>
      _ <- (if String.eqb mode "constant" then Ok tt
            else
              (* the non-constant modes pad 2-D and 3-D inputs only *)
              _ <- require (Nat.eqb (List.length sh) 2 || Nat.eqb (List.length sh) 3)
                     NotImplementedError ;;
              if String.eqb mode "reflect" then require (left <? T) RuntimeError
              else if String.eqb mode "circular" then require (left <=? T) RuntimeError
              else Ok tt) ;;
      _ <- require (0 <=? T + left) RuntimeError ;;
      Ok (rev (T + left :: lead))
  end.

Definition F_pad_data (left : Z) (mode : string) (x : tensor F) : index -> F :=
  fun idx =>
    match rev idx with
    | [] => fzero
    | t :: lead =>
        if left <=? t then data x (rev (t - left :: lead))
        else if String.eqb mode "constant" then fzero
        else if String.eqb mode "reflect" then data x (rev (left - t :: lead))
        else if String.eqb mode "replicate" then data x (rev (0 :: lead))
        else data x (rev (last (shape x) 0 + t - left :: lead))
    end.

Definition F_pad (left : Z) (mode : string) (x : tensor F) : result (tensor F) :=
  with_shape (F_pad_shape left mode (shape x)) (F_pad_data left mode x).

(** *** [torch.nn.Conv1d] and [torch.nn.ConvTranspose1d]

    Both causal subclasses pass [padding=0] (and [output_padding=0]) to the
    parent class, so the hyper-parameters kept here are those of an
    unpadded convolution. *)

Record Conv1d : Type := mkConv1d {
  in_channels : Z;
  out_channels : Z;
  kernel_size : Z;
  stride : Z;
  dilation : Z;
  groups : Z;
  bias : bool;
  (* [stride], [dilation] and [groups] were all given as [int] objects *)
  int_args : bool
}.

(** [_ConvNd.__init__] as reached from [nn.Conv1d.__init__] and
    [nn.ConvTranspose1d.__init__] with [padding=0]: its checks and the
    allocation of the weight.  [groups] must be positive and divide both
    channel counts, and no dimension of the weight may be negative; a weight
    without elements is allocated all the same.  [stride] and [dilation]
    are stored as they come, whatever objects they are.  (A keyword the
    parent class does not know is a [TypeError] of the call itself; the
    constructors below check it first.) *)
Definition ConvNd_init (in_ch out_ch k : Z) (s d : pyobj) (kw : kwargs)
  : result Conv1d :=
  g <- kw_int "groups" 1 kw ;;
  _ <- require (0 <? g) ValueError ;;
  _ <- require (in_ch mod g =? 0) ValueError ;;
  _ <- require (out_ch mod g =? 0) ValueError ;;
  _ <- require ((0 <=? in_ch) && (0 <=? out_ch) && (0 <=? k)) RuntimeError ;;
  Ok (mkConv1d in_ch out_ch k (int_value s) (int_value d) g
        (kw_truthy "bias" true kw)
        (is_int s && is_int d && is_int (kw_default "groups" (PyInt 1) kw))).

(** The input of a 1-D convolution is [(C, L)] or [(N, C, L)]; an
    unbatched input is handled as a batch of one.  [rule] holds the checks
    on a batch and gives the channel count and the length of the result.
    A [bool] among [stride], [dilation] and [groups] is refused before the
    input is looked at. *)
Definition conv_shape (c : Conv1d) (rule : Z -> Z -> Z -> result (Z * Z))
  (sh : dims) : result dims :=
  _ <- require (int_args c) TypeError ;;
  match sh with
  | [C; L] => r <- rule 1 C L ;; Ok [fst r; snd r]
  | [N; C; L] => r <- rule N C L ;; Ok [N; fst r; snd r]
  | _ => Raise RuntimeError
  end.

Definition conv_params_positive (c : Conv1d) : bool :=
  (0 <? stride c) && (0 <? dilation c) && (0 <? kernel_size c).

(** Output length of [nn.Conv1d] with [padding=0] over an axis of length
    [L]. *)
Definition conv1d_length (c : Conv1d) (L : Z) : Z :=
  (L - dilation c * (kernel_size c - 1) - 1) / stride c + 1.

(** [nn.Conv1d] with [padding=0] on a batch [(N, C, L)].  The weight has
    shape [(out_channels, in_channels/groups, kernel_size)] and must hold
    at least [groups] output channels, the input must have [in_channels]
    channels, and an input shorter than the dilated kernel is refused
    ("Kernel size can't be greater than actual input size").  An input
    without channels is answered by a result without channels. *)
Definition conv1d_rule (c : Conv1d) (N C L : Z) : result (Z * Z) :=
  _ <- require (conv_params_positive c) RuntimeError ;;
  _ <- require (groups c <=? out_channels c) RuntimeError ;;
  _ <- require (C =? in_channels c) RuntimeError ;;
  _ <- require (dilation c * (kernel_size c - 1) + 1 <=? L) RuntimeError ;;
  Ok (if C =? 0 then 0 else out_channels c, conv1d_length c L).

(** Cross-correlation: output channel [co] at time [t] reads the input
    channels of its group at the times [t*stride + i*dilation]. *)
Definition conv1d_data (c : Conv1d) (sd : state_dict F) (x : tensor F)
  : index -> F :=
  fun idx =>
    match rev idx with
    | t :: co :: lead =>
        let cig := in_channels c / groups c in
        let g := co / (out_channels c / groups c) in
        let acc :=
          fsum cig (fun ci =>
            fsum (kernel_size c) (fun i =>
              fmul (param sd "weight" [co; ci; i])
                   (data x (rev (t * stride c + i * dilation c
                                 :: g * cig + ci :: lead))))) in
        if bias c then fadd acc (param sd "bias" [co]) else acc
    | _ => fzero
    end.

Definition nn_Conv1d_forward (c : Conv1d) (sd : state_dict F) (x : tensor F)
  : result (tensor F) :=
  with_shape (conv_shape c (conv1d_rule c) (shape x)) (conv1d_data c sd x).

(** Output length of [nn.ConvTranspose1d] with [padding=0] and
    [output_padding=0]. *)
Definition conv_transpose1d_length (c : Conv1d) (L : Z) : Z :=
  (L - 1) * stride c + dilation c * (kernel_size c - 1) + 1.

(** [nn.ConvTranspose1d] on a batch [(N, C, L)].  The weight has shape
    [(in_channels, out_channels/groups, kernel_size)] and must hold at
    least [groups] input channels, and the input must have [in_channels]
    channels.  An empty batch is answered without running the convolution,
    from the first element of the weight and the shape of the result.  Any
    other input must have elements (an empty time axis is refused), and so
    must the weight. *)
Definition conv_transpose1d_rule (c : Conv1d) (N C L : Z) : result (Z * Z) :=
  _ <- require (conv_params_positive c) RuntimeError ;;
  _ <- require (groups c <=? in_channels c) RuntimeError ;;
  _ <- require (C =? in_channels c) RuntimeError ;;
  if N =? 0
  then
    _ <- require (negb (out_channels c =? 0)) IndexError ;;
    _ <- require (0 <=? conv_transpose1d_length c L) RuntimeError ;;
    Ok (out_channels c, conv_transpose1d_length c L)
  else
    _ <- require (1 <=? L) RuntimeError ;;
    _ <- require (1 <=? out_channels c) RuntimeError ;;
    Ok (out_channels c, conv_transpose1d_length c L).

(** Transposed convolution: input time [j] contributes through kernel tap
    [i] to output time [j*stride + i*dilation]; read from the output side,
    tap [i] contributes to time [t] when [t - i*dilation] is a multiple of
    the stride that lands inside the input.  The weight has shape
    [(in_channels, out_channels/groups, kernel_size)]. *)
Definition conv_transpose1d_data (c : Conv1d) (sd : state_dict F) (x : tensor F)
  : index -> F :=
  fun idx =>
    match rev idx with
    | t :: co :: lead =>
        let cig := in_channels c / groups c in
        let cog := out_channels c / groups c in
        let g := co / cog in
        let acc :=
          fsum cig (fun ci =>
            fsum (kernel_size c) (fun i =>
              let r := t - i * dilation c in
              let j := r / stride c in
              if (r mod stride c =? 0) && (0 <=? j) && (j <? last (shape x) 0)
              then fmul (data x (rev (j :: g * cig + ci :: lead)))
                        (param sd "weight" [g * cig + ci; co mod cog; i])
              else fzero)) in
        if bias c then fadd acc (param sd "bias" [co]) else acc
    | _ => fzero
    end.

Definition nn_ConvTranspose1d_forward (c : Conv1d) (sd : state_dict F)
  (x : tensor F) : result (tensor F) :=
  with_shape (conv_shape c (conv_transpose1d_rule c) (shape x))
             (conv_transpose1d_data c sd x).

(** *** Slicing [x[..., :stop]] *)

(** The length of [range(n)[:stop]]: a negative [stop] counts from the end,
    and the bound is clipped to the axis. *)
Definition slice_stop (stop n : Z) : Z :=
  if stop <? 0 then Z.max 0 (n + stop) else Z.min stop n.

Definition slice_last_shape (stop : Z) (sh : dims) : result dims :=
  match rev sh with
  | [] => Raise IndexError
  | n :: lead => Ok (rev (slice_stop stop n :: lead))
  end.

(** The slice starts at 0, so the kept elements keep their indices. *)
Definition slice_last (stop : Z) (x : tensor F) : result (tensor F) :=
  with_shape (slice_last_shape stop (shape x)) (data x).

(** *** [nn.ELU] *)

Definition nn_ELU_forward (x : tensor F) : result (tensor F) :=
  Ok (mkTensor (shape x) (fun idx => felu (data x idx))).

(** *** [einops.layers.torch.Rearrange]

    The three patterns of the source.  The layer prepares one recipe for
    each rank its pattern covers, the named axes and up to seven more in
    place of the ellipsis, and looks the recipe up by the rank of its
    input: a rank without a recipe is a [KeyError].  An axis written [1]
    that has another length is an [EinopsError]. *)
Inductive pattern : Type :=
| add_channel_axis    (* '... samples -> ... 1 samples' *)
| swap_last_axes      (* '... embedding frames -> ... frames embedding'
                         and '... frames embedding -> ... embedding frames' *)
| drop_channel_axis.  (* '... 1 samples -> ... samples' *)

(** The number of axes the left-hand side of a pattern names. *)
Definition named_axes (p : pattern) : nat :=
  match p with
  | add_channel_axis => 1
  | swap_last_axes => 2
  | drop_channel_axis => 2
  end.

Definition rearrange_shape (p : pattern) (sh : dims) : result dims :=
  _ <- require ((named_axes p <=? List.length sh)%nat
                && (List.length sh <=? named_axes p + 7)%nat) KeyError ;;
  match p, rev sh with
  | add_channel_axis, n :: lead => Ok (rev (n :: 1 :: lead))
  | swap_last_axes, n :: m :: lead => Ok (rev (m :: n :: lead))
  | drop_channel_axis, n :: m :: lead =>
      _ <- require (m =? 1) EinopsError ;; Ok (rev (n :: lead))
  | _, _ => Raise KeyError
  end.

Definition rearrange_data (p : pattern) (x : tensor F) : index -> F :=
  fun idx =>
    match p, rev idx with
    | add_channel_axis, t :: _ :: lead => data x (rev (t :: lead))
    | swap_last_axes, n :: m :: lead => data x (rev (m :: n :: lead))
    | drop_channel_axis, t :: lead => data x (rev (t :: 0 :: lead))
    | _, _ => fzero
    end.

Definition Rearrange_forward (p : pattern) (x : tensor F) : result (tensor F) :=
  with_shape (rearrange_shape p (shape x)) (rearrange_data p x).

(** *** Broadcasting element-wise arithmetic *)

(** Shapes are aligned at their last axes; two sizes are compatible when
    they are equal or one of them is 1.  Both lists are reversed shapes. *)
Fixpoint broadcast_rev (a b : dims) : result dims :=
  match a, b with
  | [], _ => Ok b
  | _, [] => Ok a
  | n :: a', m :: b' =>
      r <- broadcast_rev a' b' ;;
      if n =? m then Ok (n :: r)
      else if n =? 1 then Ok (m :: r)
      else if m =? 1 then Ok (n :: r)
      else Raise RuntimeError
  end.

Definition broadcast_shapes (a b : dims) : result dims :=
  r <- broadcast_rev (rev a) (rev b) ;; Ok (rev r).

(** The index of the operand of shape [sh] that an index of the broadcast
    result reads: axes of size 1 are read at 0, missing leading axes are
    dropped.  Both lists are reversed. *)
Fixpoint broadcast_index_rev (sh : dims) (idx : index) : index :=
  match sh, idx with
  | n :: sh', i :: idx' =>
      (if n =? 1 then 0 else i) :: broadcast_index_rev sh' idx'
  | _, _ => []
  end.

Definition broadcast_index (sh : dims) (idx : index) : index :=
  rev (broadcast_index_rev (rev sh) (rev idx)).

Definition broadcast (op : F -> F -> F) (a b : tensor F) : result (tensor F) :=
  with_shape (broadcast_shapes (shape a) (shape b))
    (fun idx => op (data a (broadcast_index (shape a) idx))
                   (data b (broadcast_index (shape b) idx))).

Definition tensor_add : tensor F -> tensor F -> result (tensor F) :=
  broadcast fadd.

Definition tensor_mul : tensor F -> tensor F -> result (tensor F) :=
  broadcast fmul.

(** *** [nn.Linear] and [unsqueeze(dim=-1)] *)

Record Linear : Type := mkLinear {
  in_features : Z;
  out_features : Z
}.

Definition nn_Linear (in_f out_f : Z) : result Linear :=
  _ <- require ((0 <=? in_f) && (0 <=? out_f)) RuntimeError ;;
  Ok (mkLinear in_f out_f).

Definition linear_shape (l : Linear) (sh : dims) : result dims :=
  match rev sh with
  | [] => Raise RuntimeError
  | n :: lead =>
      _ <- require (n =? in_features l) RuntimeError ;;
      Ok (rev (out_features l :: lead))
  end.

Definition linear_data (l : Linear) (sd : state_dict F) (x : tensor F)
  : index -> F :=
  fun idx =>
    match rev idx with
    | o :: lead =>
        fadd (fsum (in_features l) (fun i =>
                fmul (data x (rev (i :: lead))) (param sd "weight" [o; i])))
             (param sd "bias" [o])
    | [] => fzero
    end.

Definition nn_Linear_forward (l : Linear) (sd : state_dict F) (x : tensor F)
  : result (tensor F) :=
  with_shape (linear_shape l (shape x)) (linear_data l sd x).

Definition unsqueeze_last (x : tensor F) : tensor F :=
  mkTensor (shape x ++ [1]) (fun idx => data x (removelast idx)).

(** *** [Tensor.squeeze(-2)] *)

Definition squeeze_penultimate (x : tensor F) : result (tensor F) :=
  match rev (shape x) with
  | n :: m :: lead =>
      if m =? 1
      then Ok (mkTensor (rev (n :: lead))
                 (fun idx =>
                    match rev idx with
                    | t :: lead' => data x (rev (t :: 0 :: lead'))
                    | [] => fzero
                    end))
      else Ok x
  | _ => Raise IndexError
  end.

(** *** [nn.MultiheadAttention(dim, num_heads=1, bias=False,
        batch_first=True)] called with a 2-D query

    A 2-D query selects the unbatched path, on which key and value must be
    2-D as well (an assertion of the shape check).  The call returns the
    pair [(attn_output, attn_output_weights)]. *)

Definition nn_MultiheadAttention (embed_dim num_heads : Z) : result Z :=
  _ <- require ((0 <? embed_dim) && (0 <? num_heads)) ValueError ;;
  _ <- py_assert (embed_dim / num_heads * num_heads =? embed_dim) ;;
  Ok embed_dim.

Definition attention_scores (E : Z) (sd : state_dict F) (q k : tensor F)
  (l s : Z) : F :=
  fsum E (fun e =>
    fmul (fmul (fsum E (fun i => fmul (data q [l; i])
                                      (param sd "in_proj_weight" [e; i])))
               (frsqrt E))
         (fsum E (fun i => fmul (data k [s; i])
                                (param sd "in_proj_weight" [E + e; i])))).

Definition attention_weights (E : Z) (sd : state_dict F) (q k : tensor F)
  (Sk : Z) (l s : Z) : F :=
  fdiv (fexp (attention_scores E sd q k l s))
       (fsum Sk (fun s' => fexp (attention_scores E sd q k l s'))).

Definition attention_output (E : Z) (sd : state_dict F) (q k v : tensor F)
  (Sk : Z) (l e : Z) : F :=
  fsum E (fun j =>
    fmul (fsum Sk (fun s =>
            fmul (attention_weights E sd q k Sk l s)
                 (fsum E (fun i => fmul (data v [s; i])
                                        (param sd "in_proj_weight" [2 * E + j; i])))))
         (param (sub sd (Attr "out_proj")) "weight" [e; j])).

Definition MultiheadAttention_forward (E : Z) (sd : state_dict F)
  (query key value : tensor F) : result (tensor F * tensor F) :=
  match shape query with
  | [L; Eq_] =>
      match shape key, shape value with
      | [Sk; Ek], [Sv; Ev] =>
          _ <- py_assert (Eq_ =? E) ;;
          _ <- py_assert ((Sk =? Sv) && (Ek =? Ev)) ;;
          _ <- require (Ek =? E) RuntimeError ;;
          Ok (mkTensor [L; E]
                (fun idx => match idx with
                            | [l; e] => attention_output E sd query key value Sk l e
                            | _ => fzero
                            end),
              mkTensor [L; Sk]
                (fun idx => match idx with
                            | [l; s] => attention_weights E sd query key Sk l s
                            | _ => fzero
                            end))
      | _, _ => Raise AssertionError
      end
  | _ => Raise AssertionError
  end.

End Torch.

(* ================================================================= *)
(** ** The modules of [streamvc/encoder_decoder.py] *)

(** [functools.partial(F.pad, pad=(causal_padding, 0), mode=..)]; the mode
    is whatever object the constructor was given. *)
Record pad_partial : Type := mkPad {
  pad_left : Z;
  pad_mode : pyobj
}.

(** An [nn.Module] instance: the containers and layers of PyTorch and
    einops that the source instantiates, and the source's own classes. *)
Inductive module : Type :=
| Rearrange (p : pattern)
| ELU
| Sequential (children : list module)
| SequentialWithFiLM_obj (children : list module)
| Residual_obj (fn : module)
| CausalConv1d_obj (conv : Conv1d) (pad : pad_partial)
| CausalConvTranspose1d_obj (conv : Conv1d) (causal_trim : Z)
| FiLM_obj (to_gamma to_beta : Linear).

(** [isinstance(module, FiLM)]. *)
Definition isinstance_FiLM (m : module) : bool :=
  match m with FiLM_obj _ _ => true | _ => false end.

(** *** Constructors *)

(** [CausalConv1d.__init__(in_channels, out_channels, kernel_size,
    stride=1, dilation=1, padding_mode='zeros', **kwargs)].  [kw] holds the
    arguments passed by keyword; those naming [stride], [dilation] and
    [padding_mode] bind to the parameters, the others are [**kwargs]. *)
Definition CausalConv1d (in_channels out_channels kernel_size : Z)
  (kw : kwargs) : result module :=
  _ <- require (negb (kw_in "in_channels" kw || kw_in "out_channels" kw
                      || kw_in "kernel_size" kw)) TypeError ;;
  let padding_mode := kw_default "padding_mode" (PyStr "zeros") kw in
  let kwargs := kw_remove ["stride"; "dilation"; "padding_mode"] kw in
  _ <- py_assert (negb (kw_in "padding" kwargs)) ;;
  _ <- require (kw_all_in ["groups"; "bias"; "device"; "dtype"] kwargs)
         TypeError ;;
  conv <- ConvNd_init in_channels out_channels kernel_size
            (kw_default "stride" (PyInt 1) kw)
            (kw_default "dilation" (PyInt 1) kw) kwargs ;;
  dilation <- kw_int "dilation" 1 kw ;;
  stride <- kw_int "stride" 1 kw ;;
  let causal_padding := dilation * (kernel_size - 1) - (stride - 1) in
  if py_eq_str padding_mode "zeros"
  then Ok (CausalConv1d_obj conv (mkPad causal_padding (PyStr "constant")))
  else Ok (CausalConv1d_obj conv (mkPad causal_padding padding_mode)).

(** [CausalConvTranspose1d.__init__(in_channels, out_channels, kernel_size,
    stride=1, dilation=1, **kwargs)].  The parent class accepts a
    [padding_mode] keyword and refuses every value but ['zeros']. *)
Definition CausalConvTranspose1d (in_channels out_channels kernel_size : Z)
  (kw : kwargs) : result module :=
  _ <- require (negb (kw_in "in_channels" kw || kw_in "out_channels" kw
                      || kw_in "kernel_size" kw)) TypeError ;;
  let kwargs := kw_remove ["stride"; "dilation"] kw in
  _ <- py_assert (negb (kw_in "padding" kwargs)) ;;
  _ <- py_assert (negb (kw_in "output_padding" kwargs)) ;;
  _ <- require (kw_all_in ["groups"; "bias"; "padding_mode"; "device"; "dtype"]
                  kwargs) TypeError ;;
  _ <- require (py_eq_str (kw_default "padding_mode" (PyStr "zeros") kwargs)
                           "zeros") ValueError ;;
  conv <- ConvNd_init in_channels out_channels kernel_size
            (kw_default "stride" (PyInt 1) kw)
            (kw_default "dilation" (PyInt 1) kw) kwargs ;;
  dilation <- kw_int "dilation" 1 kw ;;
  stride <- kw_int "stride" 1 kw ;;
  Ok (CausalConvTranspose1d_obj conv
        (dilation * (kernel_size - 1) - (stride - 1))).

(** [FiLM.__init__(dim, conditioning_dim)]. *)
Definition FiLM (dim conditioning_dim : Z) : result module :=
  to_gamma <- nn_Linear conditioning_dim dim ;;
  to_beta <- nn_Linear conditioning_dim dim ;;
  Ok (FiLM_obj to_gamma to_beta).

(** [Residual.__init__(fn)]. *)
Definition Residual (fn : module) : module := Residual_obj fn.

(** [ResidualUnit(channels, dilation, kernel_size=7, **kwargs)]; the
    default of [kernel_size] is written out at the call sites. *)
Definition ResidualUnit (channels dilation kernel_size : Z) (kwargs : kwargs)
  : result module :=
  kw1 <- kw_call [("dilation", PyInt dilation)] kwargs ;;
  conv1 <- CausalConv1d channels channels kernel_size kw1 ;;
  conv2 <- CausalConv1d channels channels 1 kwargs ;;
  Ok (Residual (Sequential [conv1; ELU; conv2; ELU])).

(** [EncoderBlock(in_channels, out_channels, stride)]. *)
Definition EncoderBlock (in_channels out_channels stride : Z) : result module :=
  r1 <- ResidualUnit in_channels 1 7 [] ;;
  r3 <- ResidualUnit in_channels 3 7 [] ;;
  r9 <- ResidualUnit in_channels 9 7 [] ;;
  down <- CausalConv1d in_channels out_channels (2 * stride)
            [("stride", PyInt stride)] ;;
  Ok (Sequential [r1; r3; r9; down; ELU]).

(** [DecoderBlock(in_channels, out_channels, stride)]. *)
Definition DecoderBlock (in_channels out_channels stride : Z) : result module :=
  up <- CausalConvTranspose1d in_channels out_channels (2 * stride)
          [("stride", PyInt stride)] ;;
  r1 <- ResidualUnit out_channels 1 7 [] ;;
  r3 <- ResidualUnit out_channels 3 7 [] ;;
  r9 <- ResidualUnit out_channels 9 7 [] ;;
  Ok (Sequential [up; r1; r3; r9]).

(** [Encoder.__init__(scale, embedding_dim)]: the value of [self.encoder]. *)
Definition Encoder (scale embedding_dim : Z) : result module :=
  stem <- CausalConv1d 1 scale 7 [] ;;
  b2 <- EncoderBlock scale (2 * scale) 2 ;;
  b4 <- EncoderBlock (2 * scale) (4 * scale) 4 ;;
  b5 <- EncoderBlock (4 * scale) (8 * scale) 5 ;;
  b8 <- EncoderBlock (8 * scale) (16 * scale) 8 ;;
  proj <- CausalConv1d (16 * scale) embedding_dim 3 [] ;;
  Ok (Sequential [Rearrange add_channel_axis; stem; ELU; b2; b4; b5; b8;
                  proj; ELU; Rearrange swap_last_axes]).

(** [Decoder.__init__(scale, embedding_dim, conditioning_dim)]: the value
    of [self.decoder]. *)
Definition Decoder (scale embedding_dim conditioning_dim : Z) : result module :=
  stem <- CausalConv1d embedding_dim (16 * scale) 7 [] ;;
  b8 <- DecoderBlock (16 * scale) (8 * scale) 8 ;;
  f8 <- FiLM (8 * scale) conditioning_dim ;;
  b5 <- DecoderBlock (8 * scale) (4 * scale) 5 ;;
  f4 <- FiLM (4 * scale) conditioning_dim ;;
  b4 <- DecoderBlock (4 * scale) (2 * scale) 4 ;;
  f2 <- FiLM (2 * scale) conditioning_dim ;;
  b2 <- DecoderBlock (2 * scale) scale 2 ;;
  f1 <- FiLM scale conditioning_dim ;;
  proj <- CausalConv1d scale 1 7 [] ;;
  Ok (SequentialWithFiLM_obj
        [Rearrange swap_last_axes; stem; ELU; b8; f8; b5; f4; b4; f2; b2; f1;
         proj; Rearrange drop_channel_axis]).

(** [LearnablePooling.__init__(dim)]: [torch.ones(1, dim)] and the
    attention layer.  The instance is determined by [dim]. *)
Record LearnablePooling_obj : Type := mkLearnablePooling {
  pooling_dim : Z
}.

Definition LearnablePooling (dim : Z) : result LearnablePooling_obj :=
  _ <- require (0 <=? dim) RuntimeError ;;
  E <- nn_MultiheadAttention dim 1 ;;
  Ok (mkLearnablePooling E).

(** *** Forward passes *)

Section Forward.

Context {F : Type} {SF : Scalar F}.

(** [CausalConv1d.forward(x)]: [super().forward(self.pad(x))]. *)
Definition CausalConv1d_forward (conv : Conv1d) (pad : pad_partial)
  (sd : state_dict F) (x : tensor F) : result (tensor F) :=
  padded <- match pad_mode pad with
            | PyStr mode => F_pad (pad_left pad) mode x
            | _ => Raise TypeError
            end ;;
  nn_Conv1d_forward conv sd padded.

(** [CausalConvTranspose1d.forward(x)]:
    [super().forward(x)[..., :-self.causal_trim]]. *)
Definition CausalConvTranspose1d_forward (conv : Conv1d) (causal_trim : Z)
  (sd : state_dict F) (x : tensor F) : result (tensor F) :=
  out <- nn_ConvTranspose1d_forward conv sd x ;;
  slice_last (- causal_trim) out.

(** [FiLM.forward(x, condition)]. *)
Definition FiLM_forward (to_gamma to_beta : Linear) (sd : state_dict F)
  (x condition : tensor F) : result (tensor F) :=
  g <- nn_Linear_forward to_gamma (sub sd (Attr "to_gamma")) condition ;;
  let gamma := unsqueeze_last g in
  b <- nn_Linear_forward to_beta (sub sd (Attr "to_beta")) condition ;;
  let beta := unsqueeze_last b in
  scaled <- tensor_mul x gamma ;;
  tensor_add scaled beta.

(** [module(x, *args)].  The layers of PyTorch and einops, [nn.Sequential]
    and the causal convolutions take the signal alone, [FiLM] and
    [SequentialWithFiLM] take the signal and the condition, and [Residual]
    forwards whatever it is given to the wrapped module. *)
Fixpoint call (m : module) (sd : state_dict F) (x : tensor F)
  (args : list (tensor F)) {struct m} : result (tensor F) :=
  match m, args with
  | Rearrange p, [] => Rearrange_forward p x
  | ELU, [] => nn_ELU_forward x
  | CausalConv1d_obj conv pad, [] => CausalConv1d_forward conv pad sd x
  | CausalConvTranspose1d_obj conv trim, [] =>
      CausalConvTranspose1d_forward conv trim sd x
  | Sequential children, [] =>
      (fix each (ms : list module) (i : nat) (input : tensor F) {struct ms} :=
         match ms with
         | [] => Ok input
         | module :: rest =>
             out <- call module (sub sd (Idx i)) input [] ;;
             each rest (S i) out
         end) children 0%nat x
  | SequentialWithFiLM_obj children, [condition] =>
      (fix each (ms : list module) (i : nat) (input : tensor F) {struct ms} :=
         match ms with
         | [] => Ok input
         | module :: rest =>
             out <- (if isinstance_FiLM module
                     then call module (sub sd (Idx i)) input [condition]
                     else call module (sub sd (Idx i)) input []) ;;
             each rest (S i) out
         end) children 0%nat x
  | Residual_obj fn, _ =>
      y <- call fn (sub sd (Attr "fn")) x args ;;
      tensor_add y x
  | FiLM_obj to_gamma to_beta, [condition] =>
      FiLM_forward to_gamma to_beta sd x condition
  | _, _ => Raise TypeError
  end.

(** [Encoder.forward(x)]: [self.encoder(x)]. *)
Definition Encoder_forward (encoder : module) (sd : state_dict F)
  (x : tensor F) : result (tensor F) :=
  call encoder (sub sd (Attr "encoder")) x [].

(** [Decoder.forward(x, condition)]: [self.decoder(x, condition)]. *)
Definition Decoder_forward (decoder : module) (sd : state_dict F)
  (x condition : tensor F) : result (tensor F) :=
  call decoder (sub sd (Attr "decoder")) x [condition].

(** What a Python expression of the source can evaluate to: a tensor, or a
    tuple of values. *)
Inductive pyval : Type :=
| PyTensor (t : tensor F)
| PyTuple (items : list pyval).

(** [v.squeeze(-2)]: tensors have the method, tuples do not. *)
Definition method_squeeze (v : pyval) : result pyval :=
  match v with
  | PyTensor t => r <- squeeze_penultimate t ;; Ok (PyTensor r)
  | PyTuple _ => Raise AttributeError
  end.

(** [LearnablePooling.forward(x)]:
    [self.attention(self.pooling_weights, x, x).squeeze(-2)], where
    [pooling_weights] is the parameter of shape [(1, dim)]. *)
Definition LearnablePooling_forward (self : LearnablePooling_obj)
  (sd : state_dict F) (x : tensor F) : result pyval :=
  let pooling_weights :=
    mkTensor [1; pooling_dim self] (param sd "pooling_weights") in
  out <- MultiheadAttention_forward (pooling_dim self)
           (sub sd (Attr "attention")) pooling_weights x x ;;
  method_squeeze (PyTuple [PyTensor (fst out); PyTensor (snd out)]).

(** The loops of [nn.Sequential.forward] and [SequentialWithFiLM.forward]
    over the children from position [i] on. *)
Definition call_each (sd : state_dict F)
  : list module -> nat -> tensor F -> result (tensor F) :=
  fix each (ms : list module) (i : nat) (input : tensor F) {struct ms} :=
    match ms with
    | [] => Ok input
    | module :: rest =>
        out <- call module (sub sd (Idx i)) input [] ;;
        each rest (S i) out
    end.

Definition call_each_film (sd : state_dict F) (condition : tensor F)
  : list module -> nat -> tensor F -> result (tensor F) :=
  fix each (ms : list module) (i : nat) (input : tensor F) {struct ms} :=
    match ms with
    | [] => Ok input
    | module :: rest =>
        out <- (if isinstance_FiLM module
                then call module (sub sd (Idx i)) input [condition]
                else call module (sub sd (Idx i)) input []) ;;
        each rest (S i) out
    end.

End Forward.

(* ================================================================= *)
(** ** The shape of a forward pass

    [out_shape m sh args] follows [call m] on the shapes alone: whether every
    layer accepts what it is given, and the shape that comes out. *)

Definition CausalConv1d_shape (conv : Conv1d) (pad : pad_partial) (sh : dims)
  : result dims :=
  padded <- match pad_mode pad with
            | PyStr mode => F_pad_shape (pad_left pad) mode sh
            | _ => Raise TypeError
            end ;;
  conv_shape conv (conv1d_rule conv) padded.

Definition CausalConvTranspose1d_shape (conv : Conv1d) (causal_trim : Z)
  (sh : dims) : result dims :=
  out <- conv_shape conv (conv_transpose1d_rule conv) sh ;;
  slice_last_shape (- causal_trim) out.

Definition FiLM_shape (to_gamma to_beta : Linear) (sh condition : dims)
  : result dims :=
  g <- linear_shape to_gamma condition ;;
  b <- linear_shape to_beta condition ;;
  scaled <- broadcast_shapes sh (g ++ [1]) ;;
  broadcast_shapes scaled (b ++ [1]).

Fixpoint out_shape (m : module) (sh : dims) (args : list dims) {struct m}
  : result dims :=
  match m, args with
  | Rearrange p, [] => rearrange_shape p sh
  | ELU, [] => Ok sh
  | CausalConv1d_obj conv pad, [] => CausalConv1d_shape conv pad sh
  | CausalConvTranspose1d_obj conv trim, [] =>
      CausalConvTranspose1d_shape conv trim sh
  | Sequential children, [] =>
      (fix each (ms : list module) (input : dims) {struct ms} :=
         match ms with
         | [] => Ok input
         | module :: rest => out <- out_shape module input [] ;; each rest out
         end) children sh
  | SequentialWithFiLM_obj children, [condition] =>
      (fix each (ms : list module) (input : dims) {struct ms} :=
         match ms with
         | [] => Ok input
         | module :: rest =>
             out <- (if isinstance_FiLM module
                     then out_shape module input [condition]
                     else out_shape module input []) ;;
             each rest out
         end) children sh
  | Residual_obj fn, _ =>
      y <- out_shape fn sh args ;;
      broadcast_shapes y sh
  | FiLM_obj to_gamma to_beta, [condition] =>
      FiLM_shape to_gamma to_beta sh condition
  | _, _ => Raise TypeError
  end.

Definition shape_each : list module -> dims -> result dims :=
  fix each (ms : list module) (input : dims) {struct ms} :=
    match ms with
    | [] => Ok input
    | module :: rest => out <- out_shape module input [] ;; each rest out
    end.

Definition shape_each_film (condition : dims)
  : list module -> dims -> result dims :=
  fix each (ms : list module) (input : dims) {struct ms} :=
    match ms with
    | [] => Ok input
    | module :: rest =>
        out <- (if isinstance_FiLM module
                then out_shape module input [condition]
                else out_shape module input []) ;;
        each rest out
    end.

(** The shape of a result, or the exception. *)
Definition shape_of {F : Type} (r : result (tensor F)) : result dims :=
  y <- r ;; Ok (shape y).

(** Integer ceiling of [a / b]. *)
Definition ceil_div (a b : Z) : Z := - ((- a) / b).

(** The leading axes a 1-D convolution accepts before [(channel, time)]:
    none (an unbatched signal) or one batch axis. *)
Definition batch_lead (lead : dims) : Prop := (List.length lead <= 1)%nat.

(** *** The instances the constructors build when no extra keyword
        argument is passed *)

(** [CausalConv1d(cin, cout, k, stride=s, dilation=d)]. *)
Definition causal_conv (cin cout k s d : Z) : module :=
  CausalConv1d_obj (mkConv1d cin cout k s d 1 true true)
    (mkPad (d * (k - 1) - (s - 1)) (PyStr "constant")).

(** [CausalConvTranspose1d(cin, cout, k, stride=s, dilation=d)]. *)
Definition causal_conv_transpose (cin cout k s d : Z) : module :=
  CausalConvTranspose1d_obj (mkConv1d cin cout k s d 1 true true)
    (d * (k - 1) - (s - 1)).

(** [ResidualUnit(channels, dilation, kernel_size)]. *)
Definition residual_unit (channels dilation kernel_size : Z) : module :=
  Residual_obj
    (Sequential [causal_conv channels channels kernel_size 1 dilation; ELU;
                 causal_conv channels channels 1 1 1; ELU]).

Definition encoder_block (cin cout s : Z) : module :=
  Sequential [residual_unit cin 1 7; residual_unit cin 3 7;
              residual_unit cin 9 7; causal_conv cin cout (2 * s) s 1; ELU].

Definition decoder_block (cin cout s : Z) : module :=
  Sequential [causal_conv_transpose cin cout (2 * s) s 1;
              residual_unit cout 1 7; residual_unit cout 3 7;
              residual_unit cout 9 7].

Definition encoder_net (scale embedding_dim : Z) : module :=
  Sequential [Rearrange add_channel_axis; causal_conv 1 scale 7 1 1; ELU;
              encoder_block scale (2 * scale) 2;
              encoder_block (2 * scale) (4 * scale) 4;
              encoder_block (4 * scale) (8 * scale) 5;
              encoder_block (8 * scale) (16 * scale) 8;
              causal_conv (16 * scale) embedding_dim 3 1 1; ELU;
              Rearrange swap_last_axes].

Definition film (dim conditioning_dim : Z) : module :=
  FiLM_obj (mkLinear conditioning_dim dim) (mkLinear conditioning_dim dim).

Definition decoder_net (scale embedding_dim conditioning_dim : Z) : module :=
  SequentialWithFiLM_obj
    [Rearrange swap_last_axes; causal_conv embedding_dim (16 * scale) 7 1 1; ELU;
     decoder_block (16 * scale) (8 * scale) 8; film (8 * scale) conditioning_dim;
     decoder_block (8 * scale) (4 * scale) 5; film (4 * scale) conditioning_dim;
     decoder_block (4 * scale) (2 * scale) 4; film (2 * scale) conditioning_dim;
     decoder_block (2 * scale) scale 2; film scale conditioning_dim;
     causal_conv scale 1 7 1 1; Rearrange drop_channel_axis].

(** The padding modes with which a [CausalConv1d] can run. *)
Definition supported_padding_mode (mode : string) : bool :=
  String.eqb mode "zeros" || known_pad_mode mode.

(** *** Concrete tensors, to run the model on examples *)

(** Integer scalars.  The nonlinearities are stand-ins: the examples only
    look at shapes, at exceptions and at which elements are read. *)
Definition Z_scalar : Scalar Z := {|
  fzero := 0;
  fone := 1;
  fadd := Z.add;
  fmul := Z.mul;
  felu := fun a => Z.max a (-1);
  fexp := fun a => Z.max a 0 + 1;
  fdiv := Z.div;
  frsqrt := fun _ => 1
|}.

(** [torch.zeros(sh)]. *)
Definition zeros (sh : dims) : tensor Z := mkTensor sh (fun _ => 0).

(** [torch.arange(n).reshape(sh)], for a shape with at most three axes:
    the element at an index is its position in row-major order. *)
Definition arange (sh : dims) : tensor Z :=
  mkTensor sh (fun idx =>
    match sh, idx with
    | [_], [i] => i
    | [_; n1], [i; j] => i * n1 + j
    | [_; n1; n2], [i; j; l] => (i * n1 + j) * n2 + l
    | _, _ => 0
    end).

(** A state dict whose every parameter element is [w]. *)
Definition constant_state (w : Z) : state_dict Z := fun _ _ => w.

(** The layers of the Encoder that work on channel-major signals: all but
    the final change of layout. *)
Definition encoder_core (scale embedding_dim : Z) : list module :=
  [Rearrange add_channel_axis; causal_conv 1 scale 7 1 1; ELU;
   encoder_block scale (2 * scale) 2;
   encoder_block (2 * scale) (4 * scale) 4;
   encoder_block (4 * scale) (8 * scale) 5;
   encoder_block (8 * scale) (16 * scale) 8;
   causal_conv (16 * scale) embedding_dim 3 1 1; ELU].

(** *** Agreement of two runs on a prefix of the time axis *)

Section Agreement.

Context {F : Type} {SF : Scalar F}.

(** [x] and [y] have the same leading axes and the same elements at the
    first [n] positions of their last axis, which is at least [n] long in
    both. *)
Definition agree (n : Z) (x y : tensor F) : Prop :=
  exists lead Tx Ty,
    shape x = lead ++ [Tx] /\ shape y = lead ++ [Ty] /\
    n <= Tx /\ n <= Ty /\
    forall idx, in_range (lead ++ [n]) idx -> data x idx = data y idx.

(** A module is causal at hop [h] when the first [n / h] output frames
    depend only on the first [n] input samples. *)
Definition causal_at (h : Z) (m : module) : Prop :=
  forall (sd : state_dict F) (x y x' y' : tensor F) (n : Z),
    agree n x y ->
    call m sd x [] = Ok x' -> call m sd y [] = Ok y' ->
    agree (n / h) x' y'.

Definition causal_each (h : Z) (ms : list module) : Prop :=
  forall (sd : state_dict F) (i : nat) (x y x' y' : tensor F) (n : Z),
    agree n x y ->
    call_each sd ms i x = Ok x' -> call_each sd ms i y = Ok y' ->
    agree (n / h) x' y'.

End Agreement.

(** The last sample inside frame [j]: the Encoder turns each block of 320
    samples into one frame. *)
Definition frame_end (j : Z) : Z := 320 * j + 319.

(** A waveform of [n] samples that is silent up to sample [t] and 1 after
    it. *)
Definition step_after (t n : Z) : tensor Z :=
  mkTensor [n] (fun idx =>
    match idx with
    | [i] => if i <=? t then 0 else 1
    | _ => 0
    end).

(** *** Prefixes under upsampling *)

Section Upsampling.

Context {F : Type} {SF : Scalar F}.

(** A module keeps prefixes at rate [s] when the first [n * s] output
    samples depend only on the first [n] input frames.  [args] are the
    further arguments of the call, the same in both runs. *)
Definition expands_at (s : Z) (m : module) (args : list (tensor F)) : Prop :=
  forall (sd : state_dict F) (x y x' y' : tensor F) (n : Z),
    agree n x y ->
    call m sd x args = Ok x' -> call m sd y args = Ok y' ->
    agree (n * s) x' y'.

Definition expands_each (s : Z) (ms : list module) : Prop :=
  forall (sd : state_dict F) (i : nat) (x y x' y' : tensor F) (n : Z),
    agree n x y ->
    call_each sd ms i x = Ok x' -> call_each sd ms i y = Ok y' ->
    agree (n * s) x' y'.

Definition expands_each_film (s : Z) (condition : tensor F)
  (ms : list module) : Prop :=
  forall (sd : state_dict F) (i : nat) (x y x' y' : tensor F) (n : Z),
    agree n x y ->
    call_each_film sd condition ms i x = Ok x' ->
    call_each_film sd condition ms i y = Ok y' ->
    agree (n * s) x' y'.

End Upsampling.

(** The layers of the Decoder that work on channel-major signals: all but
    the first change of layout. *)
Definition decoder_core (scale embedding_dim conditioning_dim : Z)
  : list module :=
  [causal_conv embedding_dim (16 * scale) 7 1 1; ELU;
   decoder_block (16 * scale) (8 * scale) 8; film (8 * scale) conditioning_dim;
   decoder_block (8 * scale) (4 * scale) 5; film (4 * scale) conditioning_dim;
   decoder_block (4 * scale) (2 * scale) 4; film (2 * scale) conditioning_dim;
   decoder_block (2 * scale) scale 2; film scale conditioning_dim;
   causal_conv scale 1 7 1 1; Rearrange drop_channel_axis].

(** *** Agreement of two runs on one row of a batch *)

Section Rows.

Context {F : Type} {SF : Scalar F}.

(** [x] and [y] are batches of one shape [(B, ..)], with at least two
    axes after the batch axis, that hold the same elements in row [b]. *)
Definition same_row (b : Z) (x y : tensor F) : Prop :=
  shape x = shape y /\
  exists B rest,
    shape x = B :: rest /\ (2 <= List.length rest)%nat /\ 0 <= b < B /\
    forall idx, in_range rest idx -> data x (b :: idx) = data y (b :: idx).

(** A module is row-local when row [b] of its output depends only on row
    [b] of its input. *)
Definition row_local (m : module) : Prop :=
  forall (sd : state_dict F) (x y x' y' : tensor F) (b : Z),
    same_row b x y ->
    call m sd x [] = Ok x' -> call m sd y [] = Ok y' ->
    same_row b x' y'.

Definition row_local_each (ms : list module) : Prop :=
  forall (sd : state_dict F) (i : nat) (x y x' y' : tensor F) (b : Z),
    same_row b x y ->
    call_each sd ms i x = Ok x' -> call_each sd ms i y = Ok y' ->
    same_row b x' y'.

End Rows.

(** The layers of the Decoder between its two changes of layout. *)
Definition decoder_convs (scale embedding_dim conditioning_dim : Z)
  : list module :=
  [causal_conv embedding_dim (16 * scale) 7 1 1; ELU;
   decoder_block (16 * scale) (8 * scale) 8; film (8 * scale) conditioning_dim;
   decoder_block (8 * scale) (4 * scale) 5; film (4 * scale) conditioning_dim;
   decoder_block (4 * scale) (2 * scale) 4; film (2 * scale) conditioning_dim;
   decoder_block (2 * scale) scale 2; film scale conditioning_dim;
   causal_conv scale 1 7 1 1].

Section ConditionedRows.

Context {F : Type} {SF : Scalar F}.

(** The loop of [SequentialWithFiLM] over [ms], run on two batches of shape
    [sh] with the conditions [c] and [c'], keeps row [b] of the two runs
    equal and ends with the shape [sh']. *)
Definition rows_each_film (c c' : tensor F) (b : Z) (sh sh' : dims)
  (ms : list module) : Prop :=
  forall (sd : state_dict F) (i : nat) (x y x' y' : tensor F),
    shape x = sh -> same_row b x y ->
    call_each_film sd c ms i x = Ok x' ->
    call_each_film sd c' ms i y = Ok y' ->
    shape x' = sh' /\ same_row b x' y'.

End ConditionedRows.

(* ================================================================= *)
(** ** The classifier of [streamvc/train/encoder_classifier.py] and its
       use in [train.py] *)

(** The operations of [nn.LayerNorm] on elements that [Scalar] lacks:
    subtraction, square root, the float of an integer, and the constant
    [eps = 1e-5]. *)
Class NormScalar (F : Type) : Type := {
  fsub : F -> F -> F;
  fsqrt : F -> F;
  fnum : Z -> F;
  feps : F
}.

(** [nn.LayerNorm(normalized_shape)] for an integer [normalized_shape]:
    the last axis is normalised; [weight] and [bias] have that length. *)
Record LayerNorm : Type := mkLayerNorm {
  normalized_shape : Z
}.

Definition nn_LayerNorm (normalized_shape : Z) : result LayerNorm :=
  _ <- require (0 <=? normalized_shape) RuntimeError ;;
  Ok (mkLayerNorm normalized_shape).

(** The constants of [train.py]. *)
Definition NUM_CLASSES : Z := 100.
Definition EMBEDDING_DIMS : Z := 64.
Definition SAMPLES_PER_FRAME : Z := 320.

Section Classifier.

Context {F : Type} {SF : Scalar F} {NF : NormScalar F}.

Definition layer_norm_shape (ln : LayerNorm) (sh : dims) : result dims :=
  match rev sh with
  | [] => Raise RuntimeError
  | n :: _ =>
      _ <- require (n =? normalized_shape ln) RuntimeError ;;
      Ok sh
  end.

(** [(x - E[x]) / sqrt(Var[x] + eps) * weight + bias], mean and (biased)
    variance taken over the last axis. *)
Definition layer_norm_data (ln : LayerNorm) (sd : state_dict F) (x : tensor F)
  : index -> F :=
  fun idx =>
    match rev idx with
    | e :: lead =>
        let n := normalized_shape ln in
        let row := fun i => data x (rev (i :: lead)) in
        let mean := fdiv (fsum n row) (fnum n) in
        let var :=
          fdiv (fsum n (fun i => fmul (fsub (row i) mean) (fsub (row i) mean)))
               (fnum n) in
        fadd (fmul (fdiv (fsub (row e) mean) (fsqrt (fadd var feps)))
                   (param sd "weight" [e]))
             (param sd "bias" [e])
    | [] => fzero
    end.

Definition nn_LayerNorm_forward (ln : LayerNorm) (sd : state_dict F)
  (x : tensor F) : result (tensor F) :=
  with_shape (layer_norm_shape ln (shape x)) (layer_norm_data ln sd x).

(** An [nn.Module] taken as a whole: its forward pass, as a function of
    its parameters and its input. *)
Definition forward_pass : Type :=
  state_dict F -> tensor F -> result (tensor F).

Record EncoderClassifier_obj : Type := mkEncoderClassifier {
  encoder : forward_pass;
  norm : LayerNorm;
  linear : Linear
}.

(** [EncoderClassifier.__init__(encoder, in_features, out_features)].  The
    three parameters are given by position; [kw] holds what the call passes
    by keyword besides, whatever the values.  The signature has no further
    parameter and no [**kwargs], so any such argument is a [TypeError]. *)
Definition EncoderClassifier {V : Type} (encoder : forward_pass)
  (in_features out_features : Z) (kw : list (string * V))
  : result EncoderClassifier_obj :=
  _ <- require (match kw with [] => true | _ => false end) TypeError ;;
  norm <- nn_LayerNorm in_features ;;
  linear <- nn_Linear in_features out_features ;;
  Ok (mkEncoderClassifier encoder norm linear).

(** [EncoderClassifier.forward(x)]. *)
Definition EncoderClassifier_forward (self : EncoderClassifier_obj)
  (sd : state_dict F) (x : tensor F) : result (tensor F) :=
  x <- encoder self (sub sd (Attr "encoder")) x ;;
  x <- nn_LayerNorm_forward (norm self) (sub sd (Attr "norm")) x ;;
  nn_Linear_forward (linear self) (sub sd (Attr "linear")) x.

(** [train_content_encoder(content_encoder, hubert_model, args)] of
    [train.py].  Its first statement builds the classifier, passing
    [args.encoder_dropout] by keyword; [training] stands for everything
    that follows the construction, and [hubert_model] and the rest of
    [args] are used there only. *)
Definition train_content_encoder {V A : Type} (content_encoder : forward_pass)
  (encoder_dropout : V) (training : EncoderClassifier_obj -> result A)
  : result A :=
  wrapped_content_encoder <-
    EncoderClassifier content_encoder EMBEDDING_DIMS NUM_CLASSES
      [("dropout", encoder_dropout)] ;;
  training wrapped_content_encoder.

End Classifier.

Arguments forward_pass F : clear implicits.
Arguments EncoderClassifier_obj F : clear implicits.

(** *** [get_batch_labels] of [train.py]

    The tensor operations it calls, on tensors of any element type: the
    mask holds booleans and the labels integers. *)

Fixpoint dims_eqb (a b : dims) : bool :=
  match a, b with
  | [], [] => true
  | n :: a', m :: b' => (n =? m) && dims_eqb a' b'
  | _, _ => false
  end.

(** A loop body run over a list, stopping at the first exception. *)
Fixpoint map_result {A B : Type} (f : A -> result B) (l : list A)
  : result (list B) :=
  match l with
  | [] => Ok []
  | a :: rest => b <- f a ;; bs <- map_result f rest ;; Ok (b :: bs)
  end.

Section TensorOps.

Context {A : Type}.

(** [x.unfold(dimension=-1, size, step)]: the windows of length [size]
    taken every [step] along the last axis, as a new last axis.  A window
    longer than the axis is refused; a 0-d tensor counts as an axis of
    length 1. *)
Definition unfold_shape (size step : Z) (sh : dims) : result dims :=
  _ <- require (0 <=? size) RuntimeError ;;
  _ <- require (0 <? step) RuntimeError ;;
  match rev sh with
  | [] => _ <- require (size <=? 1) RuntimeError ;; Ok [size]
  | n :: lead =>
      _ <- require (size <=? n) RuntimeError ;;
      Ok (rev (size :: (n - size) / step + 1 :: lead))
  end.

Definition tensor_unfold (size step : Z) (x : tensor A) : result (tensor A) :=
  sh <- unfold_shape size step (shape x) ;;
  Ok (mkTensor sh (fun idx =>
        match rev idx with
        | k :: w :: lead => data x (rev (w * step + k :: lead))
        | _ => data x []
        end)).

(** [for sample in batch]: the slices along the first axis; a 0-d tensor
    cannot be iterated over. *)
Definition tensor_iter (x : tensor A) : result (list (tensor A)) :=
  match shape x with
  | [] => Raise TypeError
  | n :: rest =>
      Ok (map (fun b => mkTensor rest (fun idx => data x (Z.of_nat b :: idx)))
              (seq 0 (Z.to_nat n)))
  end.

(** [einops.rearrange(sample, 's -> 1 1 s')]. *)
Definition rearrange_s_11s (x : tensor A) : result (tensor A) :=
  match shape x with
  | [s] => Ok (mkTensor [1; 1; s] (fun idx =>
                 match idx with
                 | [_; _; i] => data x [i]
                 | _ => data x []
                 end))
  | _ => Raise EinopsError
  end.

(** [torch.stack(tensors, dim=0)]: the list must not be empty and the
    tensors must have one shape. *)
Definition torch_stack (tensors : list (tensor A)) : result (tensor A) :=
  match tensors with
  | [] => Raise RuntimeError
  | t0 :: _ =>
      _ <- require (forallb (fun t => dims_eqb (shape t) (shape t0)) tensors)
             RuntimeError ;;
      Ok (mkTensor (Z.of_nat (List.length tensors) :: shape t0) (fun idx =>
            match idx with
            | b :: rest => data (nth (Z.to_nat b) tensors t0) rest
            | [] => data t0 []
            end))
  end.

(** [x[~mask] = value] for a boolean mask of the shape of [x]. *)
Definition assign_where_not (mask : tensor bool) (value : A) (x : tensor A)
  : tensor A :=
  mkTensor (shape x) (fun idx => if data mask idx then data x idx else value).

End TensorOps.

(** [x.all(dim=-1)]. *)
Definition tensor_all_last (x : tensor bool) : tensor bool :=
  match rev (shape x) with
  | [] => x
  | n :: lead =>
      mkTensor (rev lead) (fun idx =>
        forallb (fun k => data x (idx ++ [Z.of_nat k])) (seq 0 (Z.to_nat n)))
  end.

(** [get_batch_labels(hubert_model, batch, mask)].  [units] is
    [hubert_model.units], a model from outside the repository: any function
    from a single-sample batch to a tensor of labels, or an exception. *)
Definition get_batch_labels {F : Type} (units : tensor F -> result (tensor Z))
  (batch : tensor F) (mask : tensor bool) : result (tensor Z) :=
  windows <- tensor_unfold SAMPLES_PER_FRAME SAMPLES_PER_FRAME mask ;;
  let frame_mask := tensor_all_last windows in
  samples <- tensor_iter batch ;;
  labels <- map_result (fun sample =>
              single_sample_batch <- rearrange_s_11s sample ;;
              units single_sample_batch) samples ;;
  labels <- torch_stack labels ;;
  _ <- py_assert (dims_eqb (shape labels) (shape frame_mask)) ;;
  Ok (assign_where_not frame_mask (-1) labels).

(** *** The checkpoint keys of [main] in [train.py]

    [main] loads the content encoder from a checkpoint of the classifier:
    [{key[len("encoder."):]: checkpoint.get_tensor(key)
      for key in checkpoint.keys() if key.startswith("encoder.")}].
    A checkpoint is its keys in order, each with its tensor. *)

(** [key.startswith(prefix)]. *)
Definition startswith (key prefix : string) : bool := String.prefix prefix key.

(** [key[n:]]. *)
Definition slice_from (n : nat) (key : string) : string :=
  String.substring n (String.length key - n) key.

Definition encoder_state_dict {T : Type} (checkpoint : list (string * T))
  : list (string * T) :=
  map (fun kv => (slice_from (String.length "encoder.") (fst kv), snd kv))
      (filter (fun kv => startswith (fst kv) "encoder.") checkpoint).

(** *** More concrete tensors *)

(** A single-channel signal of [n] samples that is 1 at sample [t] and
    silent elsewhere. *)
Definition impulse_at (t n : Z) : tensor Z :=
  mkTensor [1; n] (fun idx =>
    match idx with
    | [_; i] => if i =? t then 1 else 0
    | _ => 0
    end).

(** Integer stand-ins for the operations of the layer norm, as for
    [Z_scalar]. *)
Definition Z_norm_scalar : NormScalar Z := {|
  fsub := Z.sub;
  fsqrt := Z.sqrt;
  fnum := fun n => n;
  feps := 1
|}.

(** [torch.ones(sh, dtype=torch.bool)]: a mask that keeps every sample. *)
Definition all_true (sh : dims) : tensor bool := mkTensor sh (fun _ => true).

(** A label model that gives every frame of 320 samples the label [u]. *)
Definition constant_units (u : Z) (single_sample_batch : tensor Z)
  : result (tensor Z) :=
  Ok (mkTensor [last (shape single_sample_batch) 0 / 320] (fun _ => u)).

(** A batch whose every row holds its own row number at every sample. *)
Definition row_numbers (sh : dims) : tensor Z :=
  mkTensor sh (fun idx =>
    match idx with
    | b :: _ => b
    | [] => 0
    end).

(** *** Floating-point scalars

    The elements of a tensor of PyTorch's default dtype, [torch.float32]:
    the values of IEEE 754 binary32 (24 bits of precision, exponents below
    128) with the operations of the standard, rounding to nearest even.  The
    nonlinearities are stand-ins: [FiLM], for which these scalars are used,
    only adds and multiplies. *)
Definition float32 : Type := spec_float.

(** The values of the type among all [spec_float]: those whose mantissa
    and exponent fit the format. *)
Definition is_float32 (a : float32) : bool := valid_binary 24 128 a.

Definition float32_scalar : Scalar float32 := {|
  fzero := S754_zero false;
  fone := S754_finite false 8388608 (-23);
  fadd := SFadd 24 128;
  fmul := SFmul 24 128;
  felu := fun a => a;
  fexp := fun a => a;
  fdiv := SFdiv 24 128;
  frsqrt := fun _ => S754_finite false 8388608 (-23)
|}.

(** [a == b] on elements: a NaN equals nothing, itself included, and the
    two zeros are equal. *)
Definition float_eq (a b : float32) : bool := SFeqb a b.

(** [a != a]. *)
Definition is_nan (a : float32) : bool :=
  match a with S754_nan => true | _ => false end.

(** [a] is one of the two zeros. *)
Definition is_zero (a : float32) : bool :=
  match a with S754_zero _ => true | _ => false end.

(** [1.5], [-0.0], [inf] and [nan]. *)
Definition f32_three_halves : float32 := S754_finite false 12582912 (-23).
Definition f32_neg_zero : float32 := S754_zero true.
Definition f32_inf : float32 := S754_infinity false.
Definition f32_nan : float32 := S754_nan.

(** A state dict for a FiLM layer over floats whose [to_gamma] has zero
    weight and bias one and whose [to_beta] is zero. *)
Definition identity_film_floats : state_dict float32 :=
  fun path _ =>
    match path with
    | [Attr "to_gamma"; Attr "bias"] => S754_finite false 8388608 (-23)
    | _ => S754_zero false
    end.

(** The signal [[[1.5, -0.0, inf, nan]]] of shape [(1, 4)]. *)
Definition special_values : tensor float32 :=
  mkTensor [1; 4] (fun idx =>
    match idx with
    | [_; 0] => f32_three_halves
    | [_; 1] => f32_neg_zero
    | [_; 2] => f32_inf
    | _ => f32_nan
    end).

(** The conditioning vector [[0.0]]. *)
Definition zero_condition : tensor float32 :=
  mkTensor [1] (fun _ => S754_zero false).

(* ================================================================= *)
(** * Verification *)

(** ** The result monad *)

Lemma bind_Ok {A B : Type} (r : result A) (k : A -> result B) (b : B) :
  bind r k = Ok b -> exists a, r = Ok a /\ k a = Ok b.
Proof.
  destruct r as [a|e]; simpl; intros H; [eauto | discriminate].
Qed.

Lemma require_true (e : exn) : require true e = Ok tt.
Proof. reflexivity. Qed.

Lemma require_Ok (c : bool) (e : exn) (u : unit) :
  require c e = Ok u -> c = true.
Proof. destruct c; simpl; [reflexivity | discriminate]. Qed.

Lemma shape_of_Ok {F : Type} (r : result (tensor F)) (sh : dims) :
  shape_of r = Ok sh <-> exists y, r = Ok y /\ shape y = sh.
Proof.
  unfold shape_of. split.
  - intros H. apply bind_Ok in H. destruct H as [y [Hr Hy]].
    exists y. split; [assumption | congruence].
  - intros [y [Hr Hy]]. subst. reflexivity.
Qed.

Lemma shape_of_with_shape {F : Type} (rule : result dims) (elems : index -> F) :
  shape_of (with_shape rule elems) = rule.
Proof. destruct rule; reflexivity. Qed.

Lemma shape_of_bind {F : Type} (r : result (tensor F))
  (k : tensor F -> result (tensor F)) (ks : dims -> result dims) :
  (forall y, shape_of (k y) = ks (shape y)) ->
  shape_of (y <- r ;; k y) = (sh <- shape_of r ;; ks sh).
Proof.
  intros Hk. destruct r as [y|e]; simpl; [apply Hk | reflexivity].
Qed.

(** ** Induction over module trees *)

Section ModuleInduction.

Variable P : module -> Prop.
Hypothesis P_Rearrange : forall p, P (Rearrange p).
Hypothesis P_ELU : P ELU.
Hypothesis P_Sequential : forall ms, Forall P ms -> P (Sequential ms).
Hypothesis P_SequentialWithFiLM :
  forall ms, Forall P ms -> P (SequentialWithFiLM_obj ms).
Hypothesis P_Residual : forall fn, P fn -> P (Residual_obj fn).
Hypothesis P_CausalConv1d : forall conv pad, P (CausalConv1d_obj conv pad).
Hypothesis P_CausalConvTranspose1d :
  forall conv trim, P (CausalConvTranspose1d_obj conv trim).
Hypothesis P_FiLM : forall g b, P (FiLM_obj g b).

Fixpoint module_tree_ind (m : module) : P m :=
  match m with
  | Rearrange p => P_Rearrange p
  | ELU => P_ELU
  | Sequential ms =>
      P_Sequential
        ((fix all (l : list module) : Forall P l :=
            match l with
            | [] => Forall_nil P
            | m' :: l' => Forall_cons m' (module_tree_ind m') (all l')
            end) ms)
  | SequentialWithFiLM_obj ms =>
      P_SequentialWithFiLM
        ((fix all (l : list module) : Forall P l :=
            match l with
            | [] => Forall_nil P
            | m' :: l' => Forall_cons m' (module_tree_ind m') (all l')
            end) ms)
  | Residual_obj fn => P_Residual (module_tree_ind fn)
  | CausalConv1d_obj conv pad => P_CausalConv1d conv pad
  | CausalConvTranspose1d_obj conv trim => P_CausalConvTranspose1d conv trim
  | FiLM_obj g b => P_FiLM g b
  end.

End ModuleInduction.

(** ** The forward pass computes the shape [out_shape] predicts *)

Section ShapeSoundness.

Context {F : Type} {SF : Scalar F}.

Lemma call_Sequential (ms : list module) (sd : state_dict F) (x : tensor F) :
  call (Sequential ms) sd x [] = call_each sd ms 0%nat x.
Proof. reflexivity. Qed.

Lemma call_SequentialWithFiLM (ms : list module) (sd : state_dict F)
  (x c : tensor F) :
  call (SequentialWithFiLM_obj ms) sd x [c] = call_each_film sd c ms 0%nat x.
Proof. reflexivity. Qed.

Lemma out_shape_Sequential (ms : list module) (sh : dims) :
  out_shape (Sequential ms) sh [] = shape_each ms sh.
Proof. reflexivity. Qed.

Lemma out_shape_SequentialWithFiLM (ms : list module) (sh c : dims) :
  out_shape (SequentialWithFiLM_obj ms) sh [c] = shape_each_film c ms sh.
Proof. reflexivity. Qed.

Lemma broadcast_shape (op : F -> F -> F) (a b : tensor F) :
  shape_of (broadcast op a b) = broadcast_shapes (shape a) (shape b).
Proof. apply shape_of_with_shape. Qed.

Lemma F_pad_shape_of (left : Z) (mode : string) (x : tensor F) :
  shape_of (F_pad left mode x) = F_pad_shape left mode (shape x).
Proof. apply shape_of_with_shape. Qed.

Lemma CausalConv1d_forward_shape (conv : Conv1d) (pad : pad_partial)
  (sd : state_dict F) (x : tensor F) :
  shape_of (CausalConv1d_forward conv pad sd x)
  = CausalConv1d_shape conv pad (shape x).
Proof.
  unfold CausalConv1d_forward, CausalConv1d_shape.
  rewrite shape_of_bind
    with (ks := fun sh => conv_shape conv (conv1d_rule conv) sh).
  - destruct (pad_mode pad); try reflexivity.
    rewrite F_pad_shape_of. reflexivity.
  - intros y. apply shape_of_with_shape.
Qed.

Lemma CausalConvTranspose1d_forward_shape (conv : Conv1d) (trim : Z)
  (sd : state_dict F) (x : tensor F) :
  shape_of (CausalConvTranspose1d_forward conv trim sd x)
  = CausalConvTranspose1d_shape conv trim (shape x).
Proof.
  unfold CausalConvTranspose1d_forward, CausalConvTranspose1d_shape.
  rewrite shape_of_bind with (ks := slice_last_shape (- trim)).
  - unfold nn_ConvTranspose1d_forward. rewrite shape_of_with_shape. reflexivity.
  - intros y. apply shape_of_with_shape.
Qed.

Lemma FiLM_forward_shape (g b : Linear) (sd : state_dict F) (x c : tensor F) :
  shape_of (FiLM_forward g b sd x c) = FiLM_shape g b (shape x) (shape c).
Proof.
  unfold FiLM_forward, FiLM_shape, nn_Linear_forward, with_shape.
  destruct (linear_shape g (shape c)) as [gs|e]; [simpl | reflexivity].
  destruct (linear_shape b (shape c)) as [bs|e]; [simpl | reflexivity].
  unfold tensor_mul, tensor_add.
  rewrite shape_of_bind
    with (ks := fun sh => broadcast_shapes sh (bs ++ [1])).
  - rewrite broadcast_shape. reflexivity.
  - intros y. rewrite broadcast_shape. reflexivity.
Qed.

Theorem call_shape (m : module) :
  forall (sd : state_dict F) (x : tensor F) (args : list (tensor F)),
    shape_of (call m sd x args) = out_shape m (shape x) (map (@shape F) args).
Proof.
  induction m using module_tree_ind; intros sd x args.
  - destruct args; [apply shape_of_with_shape | reflexivity].
  - destruct args; reflexivity.
  - destruct args as [|a args]; [| reflexivity].
    rewrite call_Sequential, out_shape_Sequential.
    generalize 0%nat. revert x.
    induction H as [|m ms Hm _ IH]; intros x i; [reflexivity |].
    simpl. rewrite shape_of_bind with (ks := shape_each ms).
    + rewrite Hm. reflexivity.
    + intros y. apply IH.
  - destruct args as [|c [|a args]]; try reflexivity.
    rewrite call_SequentialWithFiLM. simpl map.
    rewrite out_shape_SequentialWithFiLM.
    generalize 0%nat. revert x.
    induction H as [|m ms Hm _ IH]; intros x i; [reflexivity |].
    simpl. rewrite shape_of_bind with (ks := shape_each_film (shape c) ms).
    + destruct (isinstance_FiLM m); rewrite Hm; reflexivity.
    + intros y. apply IH.
  - simpl. rewrite shape_of_bind
      with (ks := fun sh => broadcast_shapes sh (shape x)).
    + rewrite IHm. reflexivity.
    + intros y. apply broadcast_shape.
  - destruct args; [apply CausalConv1d_forward_shape | reflexivity].
  - destruct args; [apply CausalConvTranspose1d_forward_shape | reflexivity].
  - destruct args as [|c [|a args]]; try reflexivity.
    apply FiLM_forward_shape.
Qed.

(** A forward pass succeeds with a result of shape [sh] exactly when
    [out_shape] says so. *)
Corollary call_Ok_shape (m : module) (sd : state_dict F) (x : tensor F)
  (args : list (tensor F)) (sh : dims) :
  out_shape m (shape x) (map (@shape F) args) = Ok sh <->
  exists y, call m sd x args = Ok y /\ shape y = sh.
Proof. rewrite <- (call_shape m sd x args). apply shape_of_Ok. Qed.

Lemma call_Raise_shape (m : module) (sd : state_dict F) (x : tensor F)
  (args : list (tensor F)) (e : exn) :
  out_shape m (shape x) (map (@shape F) args) = Raise e ->
  call m sd x args = Raise e.
Proof.
  rewrite <- (call_shape m sd x args). unfold shape_of.
  destruct (call m sd x args); simpl; congruence.
Qed.

End ShapeSoundness.

Lemma out_shape_Residual (fn : module) (sh : dims) (args : list dims) :
  out_shape (Residual_obj fn) sh args
  = (y <- out_shape fn sh args ;; broadcast_shapes y sh).
Proof. destruct args; reflexivity. Qed.

Lemma out_shape_ELU (sh : dims) : out_shape ELU sh [] = Ok sh.
Proof. reflexivity. Qed.

Lemma out_shape_Rearrange (p : pattern) (sh : dims) :
  out_shape (Rearrange p) sh [] = rearrange_shape p sh.
Proof. reflexivity. Qed.

Lemma shape_each_cons (m : module) (ms : list module) (sh : dims) :
  shape_each (m :: ms) sh = (out <- out_shape m sh [] ;; shape_each ms out).
Proof. reflexivity. Qed.

Lemma shape_each_nil (sh : dims) : shape_each [] sh = Ok sh.
Proof. reflexivity. Qed.

Lemma shape_each_app (ms1 ms2 : list module) :
  forall sh,
    shape_each (ms1 ++ ms2) sh = (out <- shape_each ms1 sh ;; shape_each ms2 out).
Proof.
  induction ms1 as [|m ms1 IH]; intros sh; [reflexivity |].
  cbn [app]. rewrite !shape_each_cons.
  destruct (out_shape m sh []) as [out|e]; [cbn [bind]; apply IH | reflexivity].
Qed.

Lemma shape_each_film_plain (c : dims) (m : module) (ms : list module)
  (sh : dims) :
  isinstance_FiLM m = false ->
  shape_each_film c (m :: ms) sh
  = (out <- out_shape m sh [] ;; shape_each_film c ms out).
Proof. intros H. cbn [shape_each_film]. rewrite H. reflexivity. Qed.

Lemma shape_each_film_film (c : dims) (dim cd : Z) (ms : list module)
  (sh : dims) :
  shape_each_film c (film dim cd :: ms) sh
  = (out <- out_shape (film dim cd) sh [c] ;; shape_each_film c ms out).
Proof. reflexivity. Qed.

(** ** Indices *)

Lemma in_range_length (sh : dims) :
  forall idx, in_range sh idx -> List.length idx = List.length sh.
Proof.
  induction sh as [|n sh IH]; intros [|i idx] H; simpl in *;
    try contradiction; [reflexivity |].
  f_equal. apply IH. tauto.
Qed.

Lemma in_range_app (a b : dims) :
  forall i j, in_range a i -> in_range b j -> in_range (a ++ b) (i ++ j).
Proof.
  induction a as [|n a IH]; intros [|i0 i] j Ha Hb; simpl in *;
    try contradiction; [assumption |].
  split; [tauto |]. apply IH; tauto.
Qed.

Lemma in_range_app_inv (a b : dims) :
  forall idx, in_range (a ++ b) idx ->
    exists i j, idx = i ++ j /\ in_range a i /\ in_range b j.
Proof.
  induction a as [|n a IH]; intros idx H.
  - exists [], idx. simpl. auto.
  - destruct idx as [|i0 idx]; simpl in H; [contradiction |].
    destruct H as [H0 H]. destruct (IH idx H) as [i [j [-> [Hi Hj]]]].
    exists (i0 :: i), j. simpl. auto.
Qed.

Lemma in_range_rev (sh : dims) :
  forall idx, in_range sh idx -> in_range (rev sh) (rev idx).
Proof.
  induction sh as [|n sh IH]; intros [|i idx] H; simpl in *;
    try contradiction; [exact I |].
  apply in_range_app; [apply IH; tauto | simpl; tauto].
Qed.

Lemma in_range_unrev (sh : dims) (idx : index) :
  in_range (rev sh) idx -> in_range sh (rev idx).
Proof.
  intros H. apply in_range_rev in H. rewrite rev_involutive in H. exact H.
Qed.

Lemma in_range_nil_inv (idx : index) : in_range [] idx -> idx = [].
Proof. destruct idx; simpl; [reflexivity | contradiction]. Qed.

Lemma in_range_singleton (n : Z) (j : index) :
  in_range [n] j -> exists t, j = [t] /\ 0 <= t < n.
Proof.
  destruct j as [|t [|t' j]]; simpl; try tauto.
  intros [H _]. exists t. auto.
Qed.

(** An index whose last entry is below [n <= T] addresses a tensor whose
    last axis has length [T]. *)
Lemma in_range_widen (lead : dims) (n T : Z) (idx : index) :
  n <= T -> in_range (lead ++ [n]) idx -> in_range (lead ++ [T]) idx.
Proof.
  intros Hn H. apply in_range_app_inv in H.
  destruct H as [i [j [-> [Hi Hj]]]].
  apply in_range_app; [exact Hi |].
  apply in_range_singleton in Hj. destruct Hj as [t [-> Ht]]. simpl. lia.
Qed.

Lemma in_range_two (lead : dims) (a b : Z) (idx : index) :
  in_range (lead ++ [a; b]) idx ->
  exists il i j, idx = il ++ [i; j] /\ in_range lead il /\
                 0 <= i < a /\ 0 <= j < b.
Proof.
  intros H. apply in_range_app_inv in H.
  destruct H as [il [jl [-> [Hil Hjl]]]].
  destruct jl as [|i [|j [|? ?]]]; simpl in Hjl; try tauto.
  exists il, i, j. tauto.
Qed.

Lemma in_range_two_intro (lead : dims) (a b : Z) (il : index) (i j : Z) :
  in_range lead il -> 0 <= i < a -> 0 <= j < b ->
  in_range (lead ++ [a; b]) (il ++ [i; j]).
Proof.
  intros Hil Hi Hj. apply in_range_app; [exact Hil | simpl; tauto].
Qed.

Lemma in_range_unsqueeze (sh : dims) (idx : index) :
  in_range (sh ++ [1]) idx -> in_range sh (removelast idx).
Proof.
  intros H. apply in_range_app_inv in H.
  destruct H as [il [jl [-> [Hil Hjl]]]].
  apply in_range_singleton in Hjl. destruct Hjl as [t [-> _]].
  rewrite removelast_last. exact Hil.
Qed.

(** ** Sums *)

Section Sums.

Context {F : Type} {SF : Scalar F}.

Lemma fold_left_fadd_ext (f g : Z -> F) (l : list nat) :
  (forall i, In i l -> f (Z.of_nat i) = g (Z.of_nat i)) ->
  forall acc,
    fold_left (fun a i => fadd a (f (Z.of_nat i))) l acc
    = fold_left (fun a i => fadd a (g (Z.of_nat i))) l acc.
Proof.
  induction l as [|i l IH]; intros H acc; [reflexivity |].
  simpl. rewrite (H i) by (left; reflexivity).
  apply IH. intros j Hj. apply H. right. exact Hj.
Qed.

(** A sum only looks at the summands inside its range. *)
Lemma fsum_ext (n : Z) (f g : Z -> F) :
  (forall i, 0 <= i < n -> f i = g i) -> fsum n f = fsum n g.
Proof.
  intros H. unfold fsum. apply fold_left_fadd_ext.
  intros i Hi. apply in_seq in Hi. apply H. lia.
Qed.

End Sums.

(** ** Broadcasting *)

Lemma broadcast_rev_same (a : dims) : broadcast_rev a a = Ok a.
Proof.
  induction a as [|n a IH]; [reflexivity |].
  simpl. rewrite IH. simpl. rewrite Z.eqb_refl. reflexivity.
Qed.

Lemma broadcast_shapes_same (sh : dims) : broadcast_shapes sh sh = Ok sh.
Proof.
  unfold broadcast_shapes. rewrite broadcast_rev_same. simpl.
  rewrite rev_involutive. reflexivity.
Qed.

(** A per-channel value of shape [(.., dim, 1)] broadcasts over the time
    axis of a signal of shape [(.., dim, T)]. *)
Lemma broadcast_over_time (lead : dims) (dim T : Z) :
  broadcast_shapes (lead ++ [dim; T]) (lead ++ [dim; 1])
  = Ok (lead ++ [dim; T]).
Proof.
  unfold broadcast_shapes. rewrite !rev_app_distr. cbn [rev app broadcast_rev].
  rewrite broadcast_rev_same. cbn [bind]. rewrite Z.eqb_refl. cbn [bind].
  destruct (T =? 1); cbn [bind rev Z.eqb Pos.eqb];
    rewrite rev_involutive, <- !app_assoc; reflexivity.
Qed.

Lemma broadcast_shapes_rev (a b r : dims) :
  broadcast_shapes a b = Ok r -> broadcast_rev (rev a) (rev b) = Ok (rev r).
Proof.
  unfold broadcast_shapes. intros H.
  apply bind_Ok in H. destruct H as [r' [Hr' H]]. injection H as <-.
  rewrite rev_involutive. exact Hr'.
Qed.

Lemma broadcast_index_rev_id (a : dims) :
  forall i, in_range a i -> broadcast_index_rev a i = i.
Proof.
  induction a as [|n a IH]; intros [|i0 i] H; simpl in H; try contradiction;
    [reflexivity |].
  cbn [broadcast_index_rev]. rewrite IH by tauto.
  destruct (Z.eqb_spec n 1); [f_equal; lia | reflexivity].
Qed.

(** No axis is broadcast for an index inside the operand's own shape. *)
Lemma broadcast_index_id (sh : dims) (idx : index) :
  in_range sh idx -> broadcast_index sh idx = idx.
Proof.
  intros H. unfold broadcast_index.
  rewrite broadcast_index_rev_id by (apply in_range_rev; exact H).
  apply rev_involutive.
Qed.

(** The index read in the left operand is inside the left operand. *)
Lemma broadcast_index_rev_l (a : dims) :
  forall b r i, broadcast_rev a b = Ok r -> in_range r i ->
    in_range a (broadcast_index_rev a i).
Proof.
  induction a as [|n a IH]; intros b r i Hr Hi; [exact I |].
  destruct b as [|m b].
  - cbn [broadcast_rev] in Hr. injection Hr as <-.
    rewrite broadcast_index_rev_id by exact Hi. exact Hi.
  - cbn [broadcast_rev] in Hr.
    apply bind_Ok in Hr. destruct Hr as [r' [Hr' Hr]].
    destruct i as [|i0 i].
    + destruct (n =? m); [| destruct (n =? 1); [| destruct (m =? 1)]];
        try discriminate; injection Hr as <-; contradiction.
    + cbn [broadcast_index_rev]. cbn [in_range].
      assert (Hi' : in_range r' i).
      { destruct (n =? m); [| destruct (n =? 1); [| destruct (m =? 1)]];
          try discriminate; injection Hr as <-; simpl in Hi; tauto. }
      split; [| exact (IH b r' i Hr' Hi')].
      destruct (Z.eqb_spec n 1) as [->|Hn1]; [lia |].
      destruct (Z.eqb_spec n m) as [->|Hnm].
      * injection Hr as <-. simpl in Hi. tauto.
      * destruct (m =? 1); [| discriminate].
        injection Hr as <-. simpl in Hi. tauto.
Qed.

Lemma broadcast_index_rev_r (a : dims) :
  forall b r i, broadcast_rev a b = Ok r -> in_range r i ->
    in_range b (broadcast_index_rev b i).
Proof.
  induction a as [|n a IH]; intros b r i Hr Hi.
  - cbn [broadcast_rev] in Hr. injection Hr as <-.
    rewrite broadcast_index_rev_id by exact Hi. exact Hi.
  - destruct b as [|m b]; [exact I |].
    cbn [broadcast_rev] in Hr.
    apply bind_Ok in Hr. destruct Hr as [r' [Hr' Hr]].
    destruct i as [|i0 i].
    + destruct (n =? m); [| destruct (n =? 1); [| destruct (m =? 1)]];
        try discriminate; injection Hr as <-; contradiction.
    + cbn [broadcast_index_rev]. cbn [in_range].
      assert (Hi' : in_range r' i).
      { destruct (n =? m); [| destruct (n =? 1); [| destruct (m =? 1)]];
          try discriminate; injection Hr as <-; simpl in Hi; tauto. }
      split; [| exact (IH b r' i Hr' Hi')].
      destruct (Z.eqb_spec m 1) as [->|Hm1]; [lia |].
      destruct (Z.eqb_spec n m) as [->|Hnm].
      * injection Hr as <-. simpl in Hi. tauto.
      * destruct (Z.eqb_spec n 1) as [->|Hn1]; [| discriminate].
        injection Hr as <-. simpl in Hi. tauto.
Qed.

(** Reading an operand through the result of an earlier broadcast reads the
    same element as reading it directly. *)
Lemma broadcast_index_rev_through (a : dims) :
  forall b r i, broadcast_rev a b = Ok r ->
    broadcast_index_rev a (broadcast_index_rev r i) = broadcast_index_rev a i.
Proof.
  induction a as [|n a IH]; intros b r i Hr; [reflexivity |].
  destruct b as [|m b].
  - cbn [broadcast_rev] in Hr. injection Hr as <-.
    destruct i as [|i0 i]; [reflexivity |].
    cbn [broadcast_index_rev]. f_equal.
    + destruct (n =? 1); reflexivity.
    + clear IH. revert i. induction a as [|n' a IHa]; intros i; [reflexivity |].
      destruct i as [|i1 i]; [reflexivity |].
      cbn [broadcast_index_rev]. f_equal; [destruct (n' =? 1); reflexivity |].
      apply IHa.
  - cbn [broadcast_rev] in Hr.
    apply bind_Ok in Hr. destruct Hr as [r' [Hr' Hr]].
    assert (Hr2 : exists rn, r = rn :: r' /\ (rn = 1 -> n = 1)).
    { destruct (Z.eqb_spec n m) as [->|Hnm];
        [| destruct (Z.eqb_spec n 1) as [->|Hn1];
           [| destruct (Z.eqb_spec m 1) as [->|Hm1]]];
        try discriminate; injection Hr as <-; eexists; split;
        try reflexivity; intros; lia. }
    destruct Hr2 as [rn [-> Hrn]].
    destruct i as [|i0 i]; [reflexivity |].
    cbn [broadcast_index_rev]. f_equal; [| apply (IH b r' i Hr')].
    destruct (Z.eqb_spec n 1) as [Hn|Hn]; [reflexivity |].
    destruct (Z.eqb_spec rn 1) as [Hr1|Hr1]; [lia | reflexivity].
Qed.

Lemma broadcast_index_l (a b r : dims) (idx : index) :
  broadcast_shapes a b = Ok r -> in_range r idx ->
  in_range a (broadcast_index a idx).
Proof.
  intros Hr Hi. unfold broadcast_index. apply in_range_unrev.
  eapply broadcast_index_rev_l;
    [apply broadcast_shapes_rev; exact Hr | apply in_range_rev; exact Hi].
Qed.

Lemma broadcast_index_r (a b r : dims) (idx : index) :
  broadcast_shapes a b = Ok r -> in_range r idx ->
  in_range b (broadcast_index b idx).
Proof.
  intros Hr Hi. unfold broadcast_index. apply in_range_unrev.
  eapply broadcast_index_rev_r;
    [apply broadcast_shapes_rev; exact Hr | apply in_range_rev; exact Hi].
Qed.

Lemma broadcast_index_through (a b r : dims) (idx : index) :
  broadcast_shapes a b = Ok r ->
  broadcast_index a (broadcast_index r idx) = broadcast_index a idx.
Proof.
  intros Hr. unfold broadcast_index. rewrite rev_involutive. f_equal.
  eapply broadcast_index_rev_through. apply broadcast_shapes_rev. exact Hr.
Qed.

Section BroadcastValues.

Context {F : Type} {SF : Scalar F}.

Lemma broadcast_Ok (op : F -> F -> F) (a b r : tensor F) :
  broadcast op a b = Ok r ->
  broadcast_shapes (shape a) (shape b) = Ok (shape r) /\
  data r = (fun idx => op (data a (broadcast_index (shape a) idx))
                          (data b (broadcast_index (shape b) idx))).
Proof.
  unfold broadcast, with_shape. intros H.
  apply bind_Ok in H. destruct H as [sh [Hsh H]]. injection H as <-.
  split; [exact Hsh | reflexivity].
Qed.

Lemma tensor_add_same_shape (a b r : tensor F) :
  shape a = shape b -> tensor_add a b = Ok r ->
  shape r = shape b /\
  forall idx, in_range (shape b) idx ->
    data r idx = fadd (data a idx) (data b idx).
Proof.
  intros Hab H. unfold tensor_add, broadcast, with_shape in H.
  rewrite Hab, broadcast_shapes_same in H. cbn [bind] in H.
  injection H as <-. cbn [shape data]. split; [reflexivity |].
  intros idx Hidx. rewrite broadcast_index_id by exact Hidx.
  reflexivity.
Qed.

End BroadcastValues.

(** ** Arithmetic of strides *)

Lemma div_sub_stride (T s : Z) : 0 < s -> (T - s) / s + 1 = T / s.
Proof.
  intros Hs. replace (T - s) with (T + (-1) * s) by ring.
  rewrite Z.div_add by lia. ring.
Qed.

Lemma ceil_div_floor (T s : Z) :
  0 < s -> ceil_div T s = T / s + (if T mod s =? 0 then 0 else 1).
Proof.
  intros Hs. unfold ceil_div.
  destruct (Z.eqb_spec (T mod s) 0) as [H0|H0].
  - rewrite Z.div_opp_l_z by lia. ring.
  - rewrite Z.div_opp_l_nz by lia. ring.
Qed.

Lemma div_320 (T : Z) : T / 2 / 4 / 5 / 8 = T / 320.
Proof. rewrite !Z.div_div by lia. reflexivity. Qed.

Lemma mul_320 (n : Z) : n * 8 * 5 * 4 * 2 = n * 320.
Proof. ring. Qed.

(** The window of output frame [t] ends at input sample [(t+1)*s - 1]. *)
Lemma window_end (n s d k t i : Z) :
  1 <= s -> 1 <= d -> 0 <= i < k -> 0 <= t < n / s ->
  t * s + i * d - (d * (k - 1) - (s - 1)) < n.
Proof.
  intros Hs Hd Hi Ht.
  assert (H1 : s * (n / s) <= n) by (apply Z.mul_div_le; lia).
  assert (H2 : i * d <= (k - 1) * d) by (apply Z.mul_le_mono_nonneg_r; lia).
  assert (H3 : (t + 1) * s <= (n / s) * s)
    by (apply Z.mul_le_mono_nonneg_r; lia).
  lia.
Qed.

(** With a positive trim the slice removes exactly the trim, and the
    length is [T * stride] whatever the kernel and the dilation. *)
Lemma slice_stop_trim (k s d T : Z) :
  1 <= s -> 1 <= T -> 0 < d * (k - 1) - (s - 1) ->
  slice_stop (- (d * (k - 1) - (s - 1))) ((T - 1) * s + d * (k - 1) + 1)
  = T * s.
Proof.
  intros Hs HT Htrim. unfold slice_stop.
  assert (Hq : 0 <= T * s) by (apply Z.mul_nonneg_nonneg; lia).
  destruct (Z.ltb_spec (- (d * (k - 1) - (s - 1))) 0); [| lia].
  replace ((T - 1) * s + d * (k - 1) + 1 + - (d * (k - 1) - (s - 1)))
    with (T * s) by ring.
  lia.
Qed.

(** ** Keyword arguments and construction *)

(** Proving the side conditions of the layers. *)
Ltac cond_true :=
  repeat (apply andb_true_intro; split);
  first [ apply Z.leb_le | apply Z.ltb_lt | apply Z.eqb_eq | reflexivity ];
  try lia.

Ltac pass_require :=
  match goal with
  | |- context [require ?c ?e] =>
      let H := fresh in
      assert (H : c = true) by cond_true;
      rewrite H; clear H; rewrite require_true; cbn [bind]
  | |- context [py_assert ?c] =>
      let H := fresh in
      assert (H : c = true) by cond_true;
      rewrite H; clear H; cbn [bind py_assert]
  end.

(** A step of a construction either raises or goes on. *)
Ltac raise_or_go :=
  match goal with
  | |- exists e, bind ?r _ = Raise e =>
      let u := fresh in
      destruct r as [u|?]; [cbn [bind] | eexists; reflexivity]
  end.

Lemma kw_get_remove (key : string) (names : list string) (kw : kwargs) :
  existsb (String.eqb key) names = false ->
  kw_get key (kw_remove names kw) = kw_get key kw.
Proof.
  intros Hkey. induction kw as [|[k v] kw IH]; [reflexivity |].
  cbn [kw_remove filter fst kw_get].
  destruct (existsb (String.eqb k) names) eqn:Hk; cbn [negb].
  - fold (kw_remove names kw). rewrite IH.
    destruct (String.eqb_spec k key) as [->|_]; [congruence | reflexivity].
  - cbn [kw_get]. fold (kw_remove names kw). rewrite IH. reflexivity.
Qed.

Lemma kw_in_remove (key : string) (names : list string) (kw : kwargs) :
  existsb (String.eqb key) names = false ->
  kw_in key (kw_remove names kw) = kw_in key kw.
Proof. intros H. unfold kw_in. rewrite kw_get_remove by assumption. reflexivity. Qed.

Lemma kw_not_allowed (key : string) (allowed : list string) (kw : kwargs) :
  kw_in key kw = true ->
  existsb (String.eqb key) allowed = false ->
  kw_all_in allowed kw = false.
Proof.
  intros Hin Hkey. induction kw as [|[k v] kw IH]; [discriminate |].
  unfold kw_in in Hin. cbn [kw_get] in Hin.
  cbn [kw_all_in forallb fst].
  destruct (String.eqb_spec k key) as [->|_].
  - rewrite Hkey. reflexivity.
  - fold (kw_all_in allowed kw). rewrite IH by exact Hin.
    apply andb_false_r.
Qed.

(** *** What the constructors build *)

Lemma ConvNd_init_default (cin cout k s d : Z) :
  0 <= cin -> 0 <= cout -> 0 <= k ->
  ConvNd_init cin cout k (PyInt s) (PyInt d) []
  = Ok (mkConv1d cin cout k s d 1 true true).
Proof.
  intros Hi Ho Hk. unfold ConvNd_init.
  cbn [kw_int kw_default kw_get py_int bind].
  rewrite !Z.mod_1_r. repeat pass_require. reflexivity.
Qed.

Lemma CausalConv1d_plain (cin cout k : Z) :
  0 <= cin -> 0 <= cout -> 0 <= k ->
  CausalConv1d cin cout k [] = Ok (causal_conv cin cout k 1 1).
Proof.
  intros Hi Ho Hk. unfold CausalConv1d. cbn -[ConvNd_init Z.mul Z.sub Z.add].
  rewrite ConvNd_init_default by assumption. reflexivity.
Qed.

Lemma CausalConv1d_strided (cin cout k s : Z) :
  0 <= cin -> 0 <= cout -> 0 <= k ->
  CausalConv1d cin cout k [("stride", PyInt s)] = Ok (causal_conv cin cout k s 1).
Proof.
  intros Hi Ho Hk. unfold CausalConv1d. cbn -[ConvNd_init Z.mul Z.sub Z.add].
  rewrite ConvNd_init_default by assumption. reflexivity.
Qed.

Lemma CausalConv1d_dilated (cin cout k d : Z) :
  0 <= cin -> 0 <= cout -> 0 <= k ->
  CausalConv1d cin cout k [("dilation", PyInt d)] = Ok (causal_conv cin cout k 1 d).
Proof.
  intros Hi Ho Hk. unfold CausalConv1d. cbn -[ConvNd_init Z.mul Z.sub Z.add].
  rewrite ConvNd_init_default by assumption. reflexivity.
Qed.

Lemma CausalConv1d_general (cin cout k s d : Z) :
  0 <= cin -> 0 <= cout -> 0 <= k ->
  CausalConv1d cin cout k [("stride", PyInt s); ("dilation", PyInt d)]
  = Ok (causal_conv cin cout k s d).
Proof.
  intros Hi Ho Hk. unfold CausalConv1d. cbn -[ConvNd_init Z.mul Z.sub Z.add].
  rewrite ConvNd_init_default by assumption. reflexivity.
Qed.

Lemma CausalConvTranspose1d_strided (cin cout k s : Z) :
  0 <= cin -> 0 <= cout -> 0 <= k ->
  CausalConvTranspose1d cin cout k [("stride", PyInt s)]
  = Ok (causal_conv_transpose cin cout k s 1).
Proof.
  intros Hi Ho Hk. unfold CausalConvTranspose1d. cbn -[ConvNd_init Z.mul Z.sub Z.add].
  rewrite ConvNd_init_default by assumption. reflexivity.
Qed.

Lemma CausalConvTranspose1d_general (cin cout k s d : Z) :
  0 <= cin -> 0 <= cout -> 0 <= k ->
  CausalConvTranspose1d cin cout k [("stride", PyInt s); ("dilation", PyInt d)]
  = Ok (causal_conv_transpose cin cout k s d).
Proof.
  intros Hi Ho Hk. unfold CausalConvTranspose1d.
  cbn -[ConvNd_init Z.mul Z.sub Z.add].
  rewrite ConvNd_init_default by assumption. reflexivity.
Qed.

Lemma ResidualUnit_plain (ch d k : Z) :
  0 <= ch -> 0 <= k ->
  ResidualUnit ch d k [] = Ok (residual_unit ch d k).
Proof.
  intros Hc Hk. unfold ResidualUnit.
  change (kw_call [("dilation", PyInt d)] []) with (Ok [("dilation", PyInt d)]).
  cbn [bind].
  rewrite CausalConv1d_dilated, CausalConv1d_plain by lia. reflexivity.
Qed.

Lemma EncoderBlock_plain (cin cout s : Z) :
  0 <= cin -> 0 <= cout -> 0 <= s ->
  EncoderBlock cin cout s = Ok (encoder_block cin cout s).
Proof.
  intros Hi Ho Hs. unfold EncoderBlock.
  rewrite !ResidualUnit_plain, CausalConv1d_strided by lia. reflexivity.
Qed.

Lemma DecoderBlock_plain (cin cout s : Z) :
  0 <= cin -> 0 <= cout -> 0 <= s ->
  DecoderBlock cin cout s = Ok (decoder_block cin cout s).
Proof.
  intros Hi Ho Hs. unfold DecoderBlock.
  rewrite CausalConvTranspose1d_strided, !ResidualUnit_plain by lia. reflexivity.
Qed.

Lemma Encoder_plain (scale ed : Z) :
  0 <= scale -> 0 <= ed -> Encoder scale ed = Ok (encoder_net scale ed).
Proof.
  intros Hs He. unfold Encoder.
  rewrite !CausalConv1d_plain, !EncoderBlock_plain by lia. reflexivity.
Qed.

Lemma FiLM_plain (dim cd : Z) :
  0 <= dim -> 0 <= cd -> FiLM dim cd = Ok (film dim cd).
Proof.
  intros Hd Hc. unfold FiLM, nn_Linear. repeat pass_require. reflexivity.
Qed.

Lemma Decoder_plain (scale ed cd : Z) :
  0 <= scale -> 0 <= ed -> 0 <= cd ->
  Decoder scale ed cd = Ok (decoder_net scale ed cd).
Proof.
  intros Hs He Hc. unfold Decoder.
  rewrite !CausalConv1d_plain, !DecoderBlock_plain, !FiLM_plain by lia.
  reflexivity.
Qed.

(** *** What the constructors refuse *)

Lemma CausalConv1d_rejects_padding (cin cout k : Z) (kw : kwargs) :
  kw_in "padding" kw = true ->
  exists e, CausalConv1d cin cout k kw = Raise e.
Proof.
  intros Hin. unfold CausalConv1d. raise_or_go. cbv zeta.
  rewrite kw_in_remove by reflexivity. rewrite Hin.
  eexists. reflexivity.
Qed.

Lemma CausalConv1d_rejects_output_padding (cin cout k : Z) (kw : kwargs) :
  kw_in "output_padding" kw = true ->
  exists e, CausalConv1d cin cout k kw = Raise e.
Proof.
  intros Hin. unfold CausalConv1d. do 2 raise_or_go.
  rewrite (kw_not_allowed "output_padding") ;
    [eexists; reflexivity | | reflexivity].
  rewrite kw_in_remove by reflexivity. exact Hin.
Qed.

Lemma CausalConvTranspose1d_rejects_padding (cin cout k : Z) (kw : kwargs) :
  kw_in "padding" kw = true ->
  exists e, CausalConvTranspose1d cin cout k kw = Raise e.
Proof.
  intros Hin. unfold CausalConvTranspose1d. raise_or_go. cbv zeta.
  rewrite kw_in_remove by reflexivity. rewrite Hin.
  eexists. reflexivity.
Qed.

Lemma CausalConvTranspose1d_rejects_output_padding (cin cout k : Z)
  (kw : kwargs) :
  kw_in "output_padding" kw = true ->
  exists e, CausalConvTranspose1d cin cout k kw = Raise e.
Proof.
  intros Hin. unfold CausalConvTranspose1d. do 2 raise_or_go.
  rewrite kw_in_remove by reflexivity. rewrite Hin.
  eexists. reflexivity.
Qed.

Lemma CausalConv1d_ignores_padding_mode (cin cout k : Z) (kw : kwargs)
  (mode : pyobj) :
  is_ok (CausalConv1d cin cout k (("padding_mode", mode) :: kw))
  = is_ok (CausalConv1d cin cout k kw).
Proof.
  unfold CausalConv1d.
  change (kw_in "in_channels" (("padding_mode", mode) :: kw))
    with (kw_in "in_channels" kw).
  change (kw_in "out_channels" (("padding_mode", mode) :: kw))
    with (kw_in "out_channels" kw).
  change (kw_in "kernel_size" (("padding_mode", mode) :: kw))
    with (kw_in "kernel_size" kw).
  change (kw_int "stride" 1 (("padding_mode", mode) :: kw))
    with (kw_int "stride" 1 kw).
  change (kw_int "dilation" 1 (("padding_mode", mode) :: kw))
    with (kw_int "dilation" 1 kw).
  change (kw_default "stride" (PyInt 1) (("padding_mode", mode) :: kw))
    with (kw_default "stride" (PyInt 1) kw).
  change (kw_default "dilation" (PyInt 1) (("padding_mode", mode) :: kw))
    with (kw_default "dilation" (PyInt 1) kw).
  change (kw_remove ["stride"; "dilation"; "padding_mode"]
            (("padding_mode", mode) :: kw))
    with (kw_remove ["stride"; "dilation"; "padding_mode"] kw).
  destruct (require _ TypeError); [cbn [bind] | reflexivity].
  destruct (py_assert _); [cbn [bind] | reflexivity].
  destruct (require _ TypeError); [cbn [bind] | reflexivity].
  destruct (ConvNd_init _ _ _ _ _ _); [cbn [bind] | reflexivity].
  destruct (kw_int "dilation" 1 kw); [cbn [bind] | reflexivity].
  destruct (kw_int "stride" 1 kw); [cbn [bind] | reflexivity].
  destruct (py_eq_str _ _), (py_eq_str _ _); reflexivity.
Qed.

Section ConfigurationErrors.

Context {F : Type} {SF : Scalar F}.

Lemma CausalConv1d_bad_mode_at_forward (cin cout k : Z) (kw : kwargs)
  (mode : string) (m : module) (sd : state_dict F) (x : tensor F) :
  supported_padding_mode mode = false ->
  CausalConv1d cin cout k (("padding_mode", PyStr mode) :: kw) = Ok m ->
  call m sd x [] = Raise NotImplementedError.
Proof.
  unfold supported_padding_mode. intros Hmode Hm.
  apply orb_false_elim in Hmode. destruct Hmode as [Hz Hknown].
  unfold CausalConv1d in Hm.
  repeat (apply bind_Ok in Hm; destruct Hm as [? [_ Hm]]).
  change (kw_default "padding_mode" (PyStr "zeros")
            (("padding_mode", PyStr mode) :: kw)) with (PyStr mode) in Hm.
  cbn [py_eq_str] in Hm. rewrite Hz in Hm. injection Hm as <-.
  cbn [call]. unfold CausalConv1d_forward. cbn [pad_mode pad_left].
  unfold F_pad, F_pad_shape. rewrite Hknown. reflexivity.
Qed.

(** C7 (amended).  An explicit [padding] or [output_padding] argument makes
    the construction of [CausalConv1d] and of [CausalConvTranspose1d]
    raise.  The [padding_mode] of a [CausalConv1d] is not looked at during
    construction: the constructor succeeds or fails as it does without the
    argument, and an unsupported mode raises [NotImplementedError] in every
    forward call. *)
Theorem configuration_errors :
  (forall cin cout k kw,
      kw_in "padding" kw = true \/ kw_in "output_padding" kw = true ->
      exists e, CausalConv1d cin cout k kw = Raise e) /\
  (forall cin cout k kw,
      kw_in "padding" kw = true \/ kw_in "output_padding" kw = true ->
      exists e, CausalConvTranspose1d cin cout k kw = Raise e) /\
  (forall cin cout k kw mode,
      is_ok (CausalConv1d cin cout k (("padding_mode", mode) :: kw))
      = is_ok (CausalConv1d cin cout k kw)) /\
  (forall cin cout k kw mode m (sd : state_dict F) (x : tensor F),
      supported_padding_mode mode = false ->
      CausalConv1d cin cout k (("padding_mode", PyStr mode) :: kw) = Ok m ->
      call m sd x [] = Raise NotImplementedError).
Proof.
  split; [| split; [| split]].
  - intros cin cout k kw [H|H];
      [apply CausalConv1d_rejects_padding
      | apply CausalConv1d_rejects_output_padding]; exact H.
  - intros cin cout k kw [H|H];
      [apply CausalConvTranspose1d_rejects_padding
      | apply CausalConvTranspose1d_rejects_output_padding]; exact H.
  - intros. apply CausalConv1d_ignores_padding_mode.
  - intros. eapply CausalConv1d_bad_mode_at_forward; eassumption.
Qed.

End ConfigurationErrors.

(** ** Shapes through the layers *)

(** The ranks a pattern covers. *)
Lemma rank_covered (p : pattern) (lead rest : dims) :
  (List.length lead <= 7)%nat -> List.length rest = named_axes p ->
  ((named_axes p <=? List.length (lead ++ rest))%nat
   && (List.length (lead ++ rest) <=? named_axes p + 7)%nat) = true.
Proof.
  intros Hl Hr. rewrite length_app, Hr.
  apply andb_true_intro. split; apply Nat.leb_le; lia.
Qed.

Lemma rearrange_shape_rank (p : pattern) (sh sh' : dims) :
  rearrange_shape p sh = Ok sh' ->
  (named_axes p <= List.length sh <= named_axes p + 7)%nat.
Proof.
  unfold rearrange_shape. intros H.
  apply bind_Ok in H. destruct H as [u [H _]]. apply require_Ok in H.
  apply andb_prop in H. destruct H as [H1 H2].
  apply Nat.leb_le in H1. apply Nat.leb_le in H2. lia.
Qed.

Lemma batch_lead_rank (lead : dims) :
  batch_lead lead -> (List.length lead <= 7)%nat.
Proof. unfold batch_lead. lia. Qed.

Lemma rearrange_add_channel (lead : dims) (T : Z) :
  (List.length lead <= 7)%nat ->
  rearrange_shape add_channel_axis (lead ++ [T]) = Ok (lead ++ [1; T]).
Proof.
  intros Hl. unfold rearrange_shape.
  rewrite (rank_covered add_channel_axis lead [T] Hl eq_refl), require_true.
  cbn [bind]. rewrite rev_app_distr. simpl.
  rewrite rev_involutive, <- app_assoc. reflexivity.
Qed.

Lemma rearrange_swap (lead : dims) (n m : Z) :
  (List.length lead <= 7)%nat ->
  rearrange_shape swap_last_axes (lead ++ [n; m]) = Ok (lead ++ [m; n]).
Proof.
  intros Hl. unfold rearrange_shape.
  rewrite (rank_covered swap_last_axes lead [n; m] Hl eq_refl), require_true.
  cbn [bind]. rewrite rev_app_distr. simpl.
  rewrite rev_involutive, <- !app_assoc. reflexivity.
Qed.

Lemma rearrange_drop_channel (lead : dims) (T : Z) :
  (List.length lead <= 7)%nat ->
  rearrange_shape drop_channel_axis (lead ++ [1; T]) = Ok (lead ++ [T]).
Proof.
  intros Hl. unfold rearrange_shape.
  rewrite (rank_covered drop_channel_axis lead [1; T] Hl eq_refl), require_true.
  cbn [bind]. rewrite rev_app_distr. simpl.
  rewrite rev_involutive. reflexivity.
Qed.

Lemma linear_out_shape (l : Linear) (lead : dims) :
  linear_shape l (lead ++ [in_features l]) = Ok (lead ++ [out_features l]).
Proof.
  unfold linear_shape. rewrite rev_app_distr. cbn [rev app].
  rewrite Z.eqb_refl. cbn [require bind rev]. rewrite rev_involutive.
  reflexivity.
Qed.

Lemma F_pad_shape_constant_inv (p : Z) (sh psh : dims) :
  F_pad_shape p "constant" sh = Ok psh ->
  exists lead T, sh = lead ++ [T] /\ 0 <= T + p /\ psh = lead ++ [T + p].
Proof.
  unfold F_pad_shape.
  change (known_pad_mode "constant") with true. rewrite require_true.
  cbn [bind]. destruct (rev sh) as [|T l] eqn:E; [discriminate |].
  cbn [String.eqb Ascii.eqb Bool.eqb bind].
  destruct (Z.leb_spec 0 (T + p)) as [Hp|Hp]; [| discriminate].
  cbn [require bind]. intros H. injection H as <-.
  exists (rev l), T. split; [| split; [exact Hp | reflexivity]].
  rewrite <- (rev_involutive sh), E. reflexivity.
Qed.

Lemma conv_shape_inv (c : Conv1d) (rule : Z -> Z -> Z -> result (Z * Z))
  (sh sh' : dims) :
  conv_shape c rule sh = Ok sh' ->
  exists lead C L r, batch_lead lead /\ sh = lead ++ [C; L] /\
                     rule (hd 1 lead) C L = Ok r /\
                     sh' = lead ++ [fst r; snd r].
Proof.
  unfold conv_shape, batch_lead. intros H.
  apply bind_Ok in H. destruct H as [_ [_ H]].
  destruct sh as [|a [|b [|e [|e' sh]]]]; try discriminate.
  - destruct (rule 1 a b) as [r|] eqn:Hr; [| discriminate].
    cbn [bind] in H. injection H as <-.
    exists [], a, b, r. simpl. auto.
  - destruct (rule a b e) as [r|] eqn:Hr; [| discriminate].
    cbn [bind] in H. injection H as <-.
    exists [a], b, e, r. simpl. auto.
Qed.

(** A convolution built from integer arguments on an input of the two
    accepted layouts. *)
Lemma conv_shape_lead (c : Conv1d) (rule : Z -> Z -> Z -> result (Z * Z))
  (lead : dims) (C L : Z) :
  int_args c = true -> batch_lead lead ->
  conv_shape c rule (lead ++ [C; L])
  = (r <- rule (hd 1 lead) C L ;; Ok (lead ++ [fst r; snd r])).
Proof.
  intros Hint Hl. unfold conv_shape. rewrite Hint, require_true. cbn [bind].
  destruct lead as [|B [|B' lead]];
    [reflexivity | reflexivity | unfold batch_lead in Hl; simpl in Hl; lia].
Qed.

Lemma conv1d_rule_Ok (cin cout k s d N T : Z) :
  1 <= cin -> 1 <= cout -> 1 <= k -> 1 <= s -> 1 <= d ->
  d * (k - 1) + 1 <= T ->
  conv1d_rule (mkConv1d cin cout k s d 1 true true) N cin T
  = Ok (cout, (T - d * (k - 1) - 1) / s + 1).
Proof.
  intros Hi Ho Hk Hs Hd HT.
  unfold conv1d_rule, conv_params_positive, conv1d_length.
  cbn [stride dilation kernel_size groups in_channels out_channels].
  repeat pass_require.
  destruct (Z.eqb_spec cin 0) as [E|_]; [lia | reflexivity].
Qed.

(** Whatever the channel counts, a convolution has no other way to fail
    on a short input than a [RuntimeError]. *)
Lemma conv1d_rule_short (cin cout k s d N C T : Z) :
  T < d * (k - 1) + 1 ->
  conv1d_rule (mkConv1d cin cout k s d 1 true true) N C T = Raise RuntimeError.
Proof.
  intros HT. unfold conv1d_rule.
  cbn [stride dilation kernel_size groups in_channels out_channels].
  destruct (conv_params_positive _); [cbn [require bind] | reflexivity].
  destruct (1 <=? cout); [cbn [require bind] | reflexivity].
  destruct (C =? cin); [cbn [require bind] | reflexivity].
  destruct (Z.leb_spec (d * (k - 1) + 1) T); [lia | reflexivity].
Qed.

Lemma conv1d_rule_inv (cin cout k s d N C T : Z) (r : Z * Z) :
  conv1d_rule (mkConv1d cin cout k s d 1 true true) N C T = Ok r ->
  C = cin /\ 1 <= cout /\ 1 <= s /\ d * (k - 1) + 1 <= T /\
  r = (if cin =? 0 then 0 else cout, (T - d * (k - 1) - 1) / s + 1).
Proof.
  unfold conv1d_rule, conv_params_positive, conv1d_length.
  cbn [stride dilation kernel_size groups in_channels out_channels].
  intros H.
  apply bind_Ok in H. destruct H as [u [Hpos H]]. apply require_Ok in Hpos.
  apply andb_prop in Hpos. destruct Hpos as [Hpos _].
  apply andb_prop in Hpos. destruct Hpos as [Hs _]. apply Z.ltb_lt in Hs.
  apply bind_Ok in H. destruct H as [u1 [Ho H]]. apply require_Ok in Ho.
  apply Z.leb_le in Ho.
  apply bind_Ok in H. destruct H as [u2 [HC H]]. apply require_Ok in HC.
  apply Z.eqb_eq in HC. subst C.
  apply bind_Ok in H. destruct H as [u3 [Hlen H]]. apply require_Ok in Hlen.
  apply Z.leb_le in Hlen. injection H as <-.
  repeat split; (assumption || lia).
Qed.

Lemma causal_conv_out_shape (lead : dims) (cin cout k s d T : Z) :
  1 <= cin -> 1 <= cout ->
  batch_lead lead -> 1 <= k -> 1 <= s -> 1 <= d -> s <= T ->
  out_shape (causal_conv cin cout k s d) (lead ++ [cin; T]) []
  = Ok (lead ++ [cout; T / s]).
Proof.
  intros Hi Ho Hl Hk Hs Hd HT.
  assert (Hp : 0 <= d * (k - 1)) by (apply Z.mul_nonneg_nonneg; lia).
  unfold causal_conv. cbn [out_shape]. unfold CausalConv1d_shape.
  cbn [pad_mode pad_left]. unfold F_pad_shape.
  change (known_pad_mode "constant") with true. rewrite require_true. cbn [bind].
  change (lead ++ [cin; T]) with (lead ++ [cin] ++ [T]).
  rewrite app_assoc, rev_app_distr.
  cbn [app rev String.eqb Ascii.eqb Bool.eqb bind].
  pass_require. rewrite rev_involutive, <- app_assoc. cbn [app].
  rewrite conv_shape_lead by (reflexivity || assumption).
  rewrite conv1d_rule_Ok by lia. cbn [bind fst snd].
  replace (T + (d * (k - 1) - (s - 1)) - d * (k - 1) - 1) with (T - s) by ring.
  rewrite div_sub_stride by lia. reflexivity.
Qed.

Lemma causal_conv_short (lead : dims) (cin cout k s d T : Z) :
  batch_lead lead -> 1 <= k -> 1 <= s -> 1 <= d -> T < s ->
  out_shape (causal_conv cin cout k s d) (lead ++ [cin; T]) []
  = Raise RuntimeError.
Proof.
  intros Hl Hk Hs Hd HT.
  unfold causal_conv. cbn [out_shape]. unfold CausalConv1d_shape.
  cbn [pad_mode pad_left]. unfold F_pad_shape.
  change (known_pad_mode "constant") with true. rewrite require_true. cbn [bind].
  change (lead ++ [cin; T]) with (lead ++ [cin] ++ [T]).
  rewrite app_assoc, rev_app_distr.
  cbn [app rev String.eqb Ascii.eqb Bool.eqb bind].
  destruct (Z.leb_spec 0 (T + (d * (k - 1) - (s - 1)))) as [Hp|Hp];
    [| reflexivity].
  cbn [require bind rev]. rewrite rev_involutive, <- app_assoc. cbn [app].
  rewrite conv_shape_lead by (reflexivity || assumption).
  rewrite conv1d_rule_short by lia. reflexivity.
Qed.

(** The general form: the input has [cin] channels, and the result has
    [cout] channels unless the input has none. *)
Lemma causal_conv_shape_inv_any (cin cout k s d : Z) (sh sh' : dims) :
  1 <= k -> 1 <= s -> 1 <= d ->
  out_shape (causal_conv cin cout k s d) sh [] = Ok sh' ->
  exists lead T, batch_lead lead /\ sh = lead ++ [cin; T] /\ s <= T /\
                 1 <= cout /\
                 sh' = lead ++ [if cin =? 0 then 0 else cout; T / s].
Proof.
  intros Hk Hs Hd. unfold causal_conv. cbn [out_shape].
  unfold CausalConv1d_shape. cbn [pad_mode pad_left]. intros H.
  apply bind_Ok in H. destruct H as [psh [Hpad Hconv]].
  apply F_pad_shape_constant_inv in Hpad.
  destruct Hpad as [lead0 [T [-> [Hp ->]]]].
  apply conv_shape_inv in Hconv.
  destruct Hconv as [lead [C [L [r [Hl [Hsh [Hrule ->]]]]]]].
  change (lead ++ [C; L]) with (lead ++ [C] ++ [L]) in Hsh.
  rewrite app_assoc in Hsh. apply app_inj_tail in Hsh.
  destruct Hsh as [-> <-].
  apply conv1d_rule_inv in Hrule.
  destruct Hrule as [-> [Ho [_ [Hlen ->]]]]. cbn [fst snd].
  exists lead, T. split; [exact Hl |].
  rewrite <- app_assoc. split; [reflexivity |]. split; [lia |].
  split; [exact Ho |].
  replace (T + (d * (k - 1) - (s - 1)) - d * (k - 1) - 1) with (T - s) by ring.
  rewrite div_sub_stride by lia. reflexivity.
Qed.

Lemma causal_conv_shape_inv (cin cout k s d : Z) (sh sh' : dims) :
  1 <= cin -> 1 <= k -> 1 <= s -> 1 <= d ->
  out_shape (causal_conv cin cout k s d) sh [] = Ok sh' ->
  exists lead T, batch_lead lead /\ sh = lead ++ [cin; T] /\ s <= T /\
                 sh' = lead ++ [cout; T / s].
Proof.
  intros Hi Hk Hs Hd H.
  apply causal_conv_shape_inv_any in H; try assumption.
  destruct H as [lead [T [Hl [-> [HT [_ ->]]]]]].
  exists lead, T. repeat split; try assumption.
  destruct (Z.eqb_spec cin 0); [lia | reflexivity].
Qed.

(** One layer of a [Sequential] whose input shape is known. *)
Ltac shape_layer :=
  rewrite ?shape_each_cons;
  first
    [ rewrite causal_conv_out_shape by (assumption || lia)
    | rewrite out_shape_ELU
    | rewrite out_shape_Rearrange ];
  cbn [bind]; rewrite ?Z.div_1_r.

Lemma residual_unit_out_shape (lead : dims) (ch d k T : Z) :
  1 <= ch -> batch_lead lead -> 1 <= k -> 1 <= d -> 1 <= T ->
  out_shape (residual_unit ch d k) (lead ++ [ch; T]) [] = Ok (lead ++ [ch; T]).
Proof.
  intros Hc Hl Hk Hd HT. unfold residual_unit.
  rewrite out_shape_Residual, out_shape_Sequential.
  do 4 shape_layer. cbn [shape_each bind].
  apply broadcast_shapes_same.
Qed.

Lemma residual_fn_keeps_shape (ch d k : Z) (sh sh' : dims) :
  1 <= k -> 1 <= d ->
  out_shape (Sequential [causal_conv ch ch k 1 d; ELU;
                         causal_conv ch ch 1 1 1; ELU]) sh [] = Ok sh' ->
  sh' = sh.
Proof.
  intros Hk Hd. rewrite out_shape_Sequential, shape_each_cons. intros H.
  apply bind_Ok in H. destruct H as [sh1 [H1 H]].
  apply causal_conv_shape_inv_any in H1; try lia.
  destruct H1 as [lead [T [_ [-> [_ [Hc ->]]]]]].
  assert (E : (if ch =? 0 then 0 else ch) = ch)
    by (destruct (Z.eqb_spec ch 0); congruence).
  rewrite E in H.
  rewrite shape_each_cons, out_shape_ELU in H. cbn [bind] in H.
  rewrite shape_each_cons in H.
  apply bind_Ok in H. destruct H as [sh2 [H2 H]].
  apply causal_conv_shape_inv_any in H2; try lia.
  destruct H2 as [lead2 [T2 [_ [Heq [_ [_ ->]]]]]].
  rewrite E in H.
  rewrite shape_each_cons, out_shape_ELU in H. cbn [bind shape_each] in H.
  injection H as <-. rewrite Z.div_1_r in *. symmetry. exact Heq.
Qed.

Lemma encoder_block_out_shape (lead : dims) (cin cout s T : Z) :
  1 <= cin -> 1 <= cout -> batch_lead lead -> 1 <= s -> s <= T ->
  out_shape (encoder_block cin cout s) (lead ++ [cin; T]) []
  = Ok (lead ++ [cout; T / s]).
Proof.
  intros Hi Ho Hl Hs HT. unfold encoder_block.
  rewrite out_shape_Sequential.
  do 3 (rewrite shape_each_cons, residual_unit_out_shape by (assumption || lia);
        cbn [bind]).
  do 2 shape_layer. reflexivity.
Qed.

Lemma encoder_block_short (lead : dims) (cin cout s T : Z) :
  1 <= cin -> batch_lead lead -> 1 <= s -> 1 <= T < s ->
  out_shape (encoder_block cin cout s) (lead ++ [cin; T]) []
  = Raise RuntimeError.
Proof.
  intros Hi Hl Hs HT. unfold encoder_block.
  rewrite out_shape_Sequential.
  do 3 (rewrite shape_each_cons, residual_unit_out_shape by (assumption || lia);
        cbn [bind]).
  rewrite shape_each_cons, causal_conv_short by (assumption || lia).
  reflexivity.
Qed.

Lemma encoder_net_core (scale ed : Z) :
  encoder_net scale ed
  = Sequential (encoder_core scale ed ++ [Rearrange swap_last_axes]).
Proof. reflexivity. Qed.

Lemma encoder_core_out_shape (lead : dims) (scale ed T : Z) :
  1 <= scale -> 1 <= ed -> batch_lead lead -> 320 <= T ->
  shape_each (encoder_core scale ed) (lead ++ [T])
  = Ok (lead ++ [ed; T / 320]).
Proof.
  intros Hsc Hed Hl HT. unfold encoder_core.
  pose proof (batch_lead_rank Hl) as Hrank.
  assert (H2 : 160 <= T / 2) by (apply Z.div_le_lower_bound; lia).
  assert (H4 : 40 <= T / 2 / 4) by (apply Z.div_le_lower_bound; lia).
  assert (H5 : 8 <= T / 2 / 4 / 5) by (apply Z.div_le_lower_bound; lia).
  assert (H8 : 1 <= T / 2 / 4 / 5 / 8) by (apply Z.div_le_lower_bound; lia).
  shape_layer. rewrite rearrange_add_channel by assumption. cbn [bind].
  do 2 shape_layer.
  do 4 (rewrite shape_each_cons, encoder_block_out_shape by (assumption || lia);
        cbn [bind]).
  do 2 shape_layer. cbn [shape_each]. rewrite div_320. reflexivity.
Qed.

(** With at least 320 samples every block is left with at least as many
    samples as its stride, and the final change of layout puts the
    [floor(T / 320)] frames before the embedding axis. *)
Lemma encoder_net_out_shape (lead : dims) (scale ed T : Z) :
  1 <= scale -> 1 <= ed -> batch_lead lead -> 320 <= T ->
  out_shape (encoder_net scale ed) (lead ++ [T]) [] = Ok (lead ++ [T / 320; ed]).
Proof.
  intros Hsc Hed Hl HT.
  rewrite encoder_net_core, out_shape_Sequential, shape_each_app.
  rewrite encoder_core_out_shape by assumption.
  cbn [bind]. rewrite shape_each_cons, out_shape_Rearrange, rearrange_swap
    by (apply batch_lead_rank; assumption).
  reflexivity.
Qed.

(** An input shorter than the total stride is refused by the first layer
    that is left with fewer samples than it needs. *)
Lemma encoder_net_short (lead : dims) (scale ed T : Z) :
  1 <= scale -> batch_lead lead -> 0 <= T < 320 ->
  out_shape (encoder_net scale ed) (lead ++ [T]) [] = Raise RuntimeError.
Proof.
  intros Hsc Hl HT. unfold encoder_net.
  pose proof (batch_lead_rank Hl) as Hrank.
  rewrite out_shape_Sequential.
  shape_layer. rewrite rearrange_add_channel by assumption. cbn [bind].
  destruct (Z.lt_ge_cases T 1) as [H1|H1].
  { rewrite shape_each_cons, causal_conv_short by (assumption || lia).
    reflexivity. }
  do 2 shape_layer.
  destruct (Z.lt_ge_cases T 2) as [H2|H2].
  { rewrite shape_each_cons, encoder_block_short by (assumption || lia).
    reflexivity. }
  rewrite shape_each_cons, encoder_block_out_shape by (assumption || lia).
  cbn [bind].
  assert (H2' : 1 <= T / 2) by (apply Z.div_le_lower_bound; lia).
  destruct (Z.lt_ge_cases (T / 2) 4) as [H4|H4].
  { rewrite shape_each_cons, encoder_block_short by (assumption || lia).
    reflexivity. }
  rewrite shape_each_cons, encoder_block_out_shape by (assumption || lia).
  cbn [bind].
  assert (H4' : 1 <= T / 2 / 4) by (apply Z.div_le_lower_bound; lia).
  destruct (Z.lt_ge_cases (T / 2 / 4) 5) as [H5|H5].
  { rewrite shape_each_cons, encoder_block_short by (assumption || lia).
    reflexivity. }
  rewrite shape_each_cons, encoder_block_out_shape by (assumption || lia).
  cbn [bind].
  assert (H5' : 1 <= T / 2 / 4 / 5) by (apply Z.div_le_lower_bound; lia).
  assert (H8 : T / 2 / 4 / 5 < 8).
  { rewrite !Z.div_div by lia. apply Z.div_lt_upper_bound; lia. }
  rewrite shape_each_cons, encoder_block_short by (assumption || lia).
  reflexivity.
Qed.

Lemma slice_last_shape_app (stop n : Z) (lead : dims) :
  slice_last_shape stop (lead ++ [n]) = Ok (lead ++ [slice_stop stop n]).
Proof.
  unfold slice_last_shape. rewrite rev_app_distr. cbn [rev app].
  rewrite rev_involutive. reflexivity.
Qed.

(** With channels on both sides and a time axis that is not empty, an
    empty batch and a batch with rows give the same channel count and
    length. *)
Lemma conv_transpose1d_rule_Ok (cin cout k s d N T : Z) :
  1 <= cin -> 1 <= cout -> 1 <= k -> 1 <= s -> 1 <= d -> 1 <= T ->
  conv_transpose1d_rule (mkConv1d cin cout k s d 1 true true) N cin T
  = Ok (cout, (T - 1) * s + d * (k - 1) + 1).
Proof.
  intros Hi Ho Hk Hs Hd HT.
  assert (Hp : 0 <= d * (k - 1)) by (apply Z.mul_nonneg_nonneg; lia).
  assert (Hq : 0 <= (T - 1) * s) by (apply Z.mul_nonneg_nonneg; lia).
  unfold conv_transpose1d_rule, conv_params_positive, conv_transpose1d_length.
  cbn [stride dilation kernel_size groups in_channels out_channels].
  do 3 pass_require.
  destruct (N =? 0).
  - destruct (Z.eqb_spec cout 0) as [E|_]; [lia |].
    cbn [negb require bind]. pass_require. reflexivity.
  - do 2 pass_require. reflexivity.
Qed.

Lemma conv_transpose1d_rule_inv (cin cout k s d N C T : Z) (r : Z * Z) :
  conv_transpose1d_rule (mkConv1d cin cout k s d 1 true true) N C T = Ok r ->
  C = cin /\ 1 <= cin /\ 1 <= s /\
  r = (cout, (T - 1) * s + d * (k - 1) + 1).
Proof.
  unfold conv_transpose1d_rule, conv_params_positive, conv_transpose1d_length.
  cbn [stride dilation kernel_size groups in_channels out_channels].
  intros H.
  apply bind_Ok in H. destruct H as [u [Hpos H]]. apply require_Ok in Hpos.
  apply andb_prop in Hpos. destruct Hpos as [Hpos _].
  apply andb_prop in Hpos. destruct Hpos as [Hs _]. apply Z.ltb_lt in Hs.
  apply bind_Ok in H. destruct H as [u1 [Hi H]]. apply require_Ok in Hi.
  apply Z.leb_le in Hi.
  apply bind_Ok in H. destruct H as [u2 [HC H]]. apply require_Ok in HC.
  apply Z.eqb_eq in HC. subst C.
  assert (Hr : r = (cout, (T - 1) * s + d * (k - 1) + 1)).
  { destruct (N =? 0);
      (apply bind_Ok in H; destruct H as [u3 [_ H]];
       apply bind_Ok in H; destruct H as [u4 [_ H]];
       injection H as <-; reflexivity). }
  repeat split; (assumption || lia).
Qed.

Lemma causal_conv_transpose_out_shape (lead : dims) (cin cout k s d T : Z) :
  1 <= cin -> 1 <= cout ->
  batch_lead lead -> 1 <= k -> 1 <= s -> 1 <= d -> 1 <= T ->
  out_shape (causal_conv_transpose cin cout k s d) (lead ++ [cin; T]) []
  = Ok (lead ++ [cout; slice_stop (- (d * (k - 1) - (s - 1)))
                                  ((T - 1) * s + d * (k - 1) + 1)]).
Proof.
  intros Hi Ho Hl Hk Hs Hd HT.
  unfold causal_conv_transpose. cbn [out_shape].
  unfold CausalConvTranspose1d_shape.
  rewrite conv_shape_lead by (reflexivity || assumption).
  rewrite conv_transpose1d_rule_Ok by lia. cbn [bind fst snd].
  change (lead ++ [cout; (T - 1) * s + d * (k - 1) + 1])
    with (lead ++ [cout] ++ [(T - 1) * s + d * (k - 1) + 1]).
  rewrite app_assoc, slice_last_shape_app, <- app_assoc. reflexivity.
Qed.

Lemma upsample_out_shape (lead : dims) (cin cout s T : Z) :
  1 <= cin -> 1 <= cout -> batch_lead lead -> 1 <= s -> 1 <= T ->
  out_shape (causal_conv_transpose cin cout (2 * s) s 1) (lead ++ [cin; T]) []
  = Ok (lead ++ [cout; T * s]).
Proof.
  intros Hi Ho Hl Hs HT.
  rewrite causal_conv_transpose_out_shape by (assumption || lia).
  rewrite slice_stop_trim by lia. reflexivity.
Qed.

Lemma decoder_block_out_shape (lead : dims) (cin cout s T : Z) :
  1 <= cin -> 1 <= cout -> batch_lead lead -> 1 <= s -> 1 <= T ->
  out_shape (decoder_block cin cout s) (lead ++ [cin; T]) []
  = Ok (lead ++ [cout; T * s]).
Proof.
  intros Hi Ho Hl Hs HT. unfold decoder_block.
  assert (HTs : 1 <= T * s) by nia.
  rewrite out_shape_Sequential.
  rewrite shape_each_cons, upsample_out_shape by (assumption || lia).
  cbn [bind].
  do 3 (rewrite shape_each_cons, residual_unit_out_shape by (assumption || lia);
        cbn [bind]).
  reflexivity.
Qed.

Lemma film_out_shape (lead : dims) (dim cd T : Z) :
  out_shape (film dim cd) (lead ++ [dim; T]) [lead ++ [cd]]
  = Ok (lead ++ [dim; T]).
Proof.
  unfold film. cbn [out_shape]. unfold FiLM_shape.
  pose proof (linear_out_shape (mkLinear cd dim) lead) as Hlin.
  cbn [in_features out_features] in Hlin. rewrite Hlin.
  cbn [bind]. rewrite <- !app_assoc. cbn [app].
  rewrite broadcast_over_time. cbn [bind]. apply broadcast_over_time.
Qed.

Lemma decoder_net_out_shape (lead : dims) (scale ed cd n : Z) :
  1 <= scale -> 1 <= ed -> batch_lead lead -> 1 <= n ->
  out_shape (decoder_net scale ed cd) (lead ++ [n; ed]) [lead ++ [cd]]
  = Ok (lead ++ [n * 320]).
Proof.
  intros Hsc Hed Hl Hn. unfold decoder_net.
  pose proof (batch_lead_rank Hl) as Hrank.
  rewrite out_shape_SequentialWithFiLM.
  rewrite shape_each_film_plain, out_shape_Rearrange, rearrange_swap
    by (reflexivity || assumption).
  cbn [bind].
  rewrite shape_each_film_plain, causal_conv_out_shape
    by (reflexivity || assumption || lia).
  cbn [bind]. rewrite Z.div_1_r.
  rewrite shape_each_film_plain, out_shape_ELU by reflexivity. cbn [bind].
  assert (H8 : 1 <= n * 8) by lia.
  assert (H5 : 1 <= n * 8 * 5) by lia.
  assert (H4 : 1 <= n * 8 * 5 * 4) by lia.
  assert (H2 : 1 <= n * 8 * 5 * 4 * 2) by lia.
  do 4 (rewrite shape_each_film_plain, decoder_block_out_shape
          by (reflexivity || assumption || lia);
        cbn [bind];
        rewrite shape_each_film_film, film_out_shape; cbn [bind]).
  rewrite shape_each_film_plain, causal_conv_out_shape
    by (reflexivity || assumption || lia).
  cbn [bind]. rewrite Z.div_1_r.
  rewrite shape_each_film_plain, out_shape_Rearrange, rearrange_drop_channel
    by (reflexivity || assumption).
  cbn [bind shape_each_film]. rewrite mul_320. reflexivity.
Qed.

(** *** Inputs the networks refuse *)

Lemma conv_shape_rank (c : Conv1d) (rule : Z -> Z -> Z -> result (Z * Z))
  (lead : dims) (a b : Z) :
  int_args c = true -> (2 <= List.length lead)%nat ->
  conv_shape c rule (lead ++ [a; b]) = Raise RuntimeError.
Proof.
  intros Hint Hl. unfold conv_shape. rewrite Hint, require_true. cbn [bind].
  destruct lead as [|n1 [|n2 lead]]; cbn [List.length] in Hl; try lia.
  destruct lead as [|n3 [|n4 lead]]; reflexivity.
Qed.

(** A causal convolution refuses an input with two or more batch axes. *)
Lemma causal_conv_rank (cin cout k s d : Z) (lead : dims) (a b : Z) :
  (2 <= List.length lead)%nat ->
  out_shape (causal_conv cin cout k s d) (lead ++ [a; b]) []
  = Raise RuntimeError.
Proof.
  intros Hl. unfold causal_conv. cbn [out_shape]. unfold CausalConv1d_shape.
  cbn [pad_mode pad_left]. unfold F_pad_shape.
  change (known_pad_mode "constant") with true. rewrite require_true. cbn [bind].
  change (lead ++ [a; b]) with (lead ++ [a] ++ [b]).
  rewrite app_assoc, rev_app_distr.
  cbn [app rev String.eqb Ascii.eqb Bool.eqb bind].
  destruct (0 <=? b + (d * (k - 1) - (s - 1))); [| reflexivity].
  cbn [require bind rev]. rewrite rev_involutive, <- app_assoc. cbn [app].
  apply conv_shape_rank; [reflexivity | exact Hl].
Qed.

Lemma conv1d_rule_wrong_channels (c : Conv1d) (N C L : Z) :
  C <> in_channels c -> conv1d_rule c N C L = Raise RuntimeError.
Proof.
  intros HC. unfold conv1d_rule.
  destruct (conv_params_positive c); [cbn [require bind] | reflexivity].
  destruct (groups c <=? out_channels c); [cbn [require bind] | reflexivity].
  destruct (Z.eqb_spec C (in_channels c)); [contradiction | reflexivity].
Qed.

(** A causal convolution refuses an input with another number of
    channels than [in_channels]. *)
Lemma causal_conv_wrong_channels (cin cout k s d : Z) (lead : dims) (C T : Z) :
  batch_lead lead -> C <> cin ->
  out_shape (causal_conv cin cout k s d) (lead ++ [C; T]) []
  = Raise RuntimeError.
Proof.
  intros Hl HC. unfold causal_conv. cbn [out_shape]. unfold CausalConv1d_shape.
  cbn [pad_mode pad_left]. unfold F_pad_shape.
  change (known_pad_mode "constant") with true. rewrite require_true. cbn [bind].
  change (lead ++ [C; T]) with (lead ++ [C] ++ [T]).
  rewrite app_assoc, rev_app_distr.
  cbn [app rev String.eqb Ascii.eqb Bool.eqb bind].
  destruct (0 <=? T + (d * (k - 1) - (s - 1))); [| reflexivity].
  cbn [require bind rev]. rewrite rev_involutive, <- app_assoc. cbn [app].
  rewrite conv_shape_lead by (reflexivity || assumption).
  rewrite conv1d_rule_wrong_channels by exact HC. reflexivity.
Qed.

Lemma decoder_net_no_frames (lead : dims) (scale ed cd : Z) (c : dims) :
  batch_lead lead ->
  out_shape (decoder_net scale ed cd) (lead ++ [0; ed]) [c]
  = Raise RuntimeError.
Proof.
  intros Hl. unfold decoder_net. rewrite out_shape_SequentialWithFiLM.
  rewrite shape_each_film_plain, out_shape_Rearrange, rearrange_swap
    by (reflexivity || apply batch_lead_rank; assumption).
  cbn [bind].
  rewrite shape_each_film_plain, causal_conv_short
    by (reflexivity || assumption || lia).
  reflexivity.
Qed.

Lemma decoder_net_rank (lead : dims) (scale ed cd n e : Z) (c : dims) :
  (2 <= List.length lead <= 7)%nat ->
  out_shape (decoder_net scale ed cd) (lead ++ [n; e]) [c]
  = Raise RuntimeError.
Proof.
  intros Hl. unfold decoder_net. rewrite out_shape_SequentialWithFiLM.
  rewrite shape_each_film_plain, out_shape_Rearrange, rearrange_swap
    by (reflexivity || lia).
  cbn [bind].
  rewrite shape_each_film_plain, causal_conv_rank by (reflexivity || lia).
  reflexivity.
Qed.

(** *** Padding modes *)

Lemma F_pad_shape_inv (p : Z) (mode : string) (sh psh : dims) :
  F_pad_shape p mode sh = Ok psh ->
  exists lead T, sh = lead ++ [T] /\ 0 <= T + p /\ psh = lead ++ [T + p].
Proof.
  unfold F_pad_shape. intros H.
  apply bind_Ok in H. destruct H as [_ [_ H]].
  destruct (rev sh) as [|T l] eqn:E; [discriminate |].
  apply bind_Ok in H. destruct H as [_ [_ H]].
  apply bind_Ok in H. destruct H as [u [Hp H]].
  apply require_Ok in Hp. apply Z.leb_le in Hp. injection H as <-.
  exists (rev l), T. split; [| split; [exact Hp | reflexivity]].
  rewrite <- (rev_involutive sh), E. reflexivity.
Qed.

(** Padding with a constant, by replication, and by reflection when the
    pad amount is smaller than the time axis, on a 2-D or 3-D input. *)
Lemma F_pad_shape_mode (p T : Z) (mode : string) (lead : dims) :
  (List.length lead = 1 \/ List.length lead = 2)%nat ->
  0 <= T + p ->
  mode = "constant" \/ mode = "replicate" \/ (mode = "reflect" /\ p < T) ->
  F_pad_shape p mode (lead ++ [T]) = Ok (lead ++ [T + p]).
Proof.
  intros Hl Hp Hmode. unfold F_pad_shape.
  assert (Hrank : (Nat.eqb (List.length (lead ++ [T])) 2
                   || Nat.eqb (List.length (lead ++ [T])) 3)%bool = true).
  { rewrite length_app. cbn [List.length].
    destruct Hl as [->| ->]; reflexivity. }
  rewrite rev_app_distr. cbn [rev app].
  destruct Hmode as [->|[->|[-> HpT]]].
  - change (known_pad_mode "constant") with true. rewrite require_true.
    cbn [bind String.eqb Ascii.eqb Bool.eqb]. pass_require.
    rewrite rev_involutive. reflexivity.
  - change (known_pad_mode "replicate") with true. rewrite require_true.
    cbn [bind String.eqb Ascii.eqb Bool.eqb].
    rewrite Hrank, require_true. cbn [bind]. pass_require.
    rewrite rev_involutive. reflexivity.
  - change (known_pad_mode "reflect") with true. rewrite require_true.
    cbn [bind String.eqb Ascii.eqb Bool.eqb].
    rewrite Hrank, require_true. cbn [bind]. do 2 pass_require.
    rewrite rev_involutive. reflexivity.
Qed.

(** The object built with a [padding_mode]: the mode is handed to [F.pad]
    as it is, but for ['zeros'], which becomes ['constant']. *)
Lemma CausalConv1d_with_mode (cin cout k s d : Z) (mode : string) :
  0 <= cin -> 0 <= cout -> 0 <= k ->
  exists pm,
    CausalConv1d cin cout k
      [("stride", PyInt s); ("dilation", PyInt d); ("padding_mode", PyStr mode)]
    = Ok (CausalConv1d_obj (mkConv1d cin cout k s d 1 true true)
            (mkPad (d * (k - 1) - (s - 1)) (PyStr pm))) /\
    (mode = "zeros" -> pm = "constant") /\
    (mode <> "zeros" -> pm = mode).
Proof.
  intros Hi Ho Hk. unfold CausalConv1d.
  cbn -[ConvNd_init Z.mul Z.sub Z.add py_eq_str].
  rewrite ConvNd_init_default by assumption. cbn [bind py_eq_str].
  destruct (String.eqb_spec mode "zeros") as [->|Hne].
  - exists "constant". split; [reflexivity |]. split; congruence.
  - exists mode. split; [reflexivity |]. split; [contradiction | reflexivity].
Qed.

Lemma causal_conv_mode_inv (cin cout k s d T : Z) (pm : string)
  (lead sh' : dims) :
  1 <= cin -> 1 <= k -> 1 <= s -> 1 <= d ->
  out_shape (CausalConv1d_obj (mkConv1d cin cout k s d 1 true true)
               (mkPad (d * (k - 1) - (s - 1)) (PyStr pm)))
            (lead ++ [cin; T]) [] = Ok sh' ->
  s <= T /\ sh' = lead ++ [cout; T / s].
Proof.
  intros Hi Hk Hs Hd. cbn [out_shape].
  unfold CausalConv1d_shape. cbn [pad_mode pad_left]. intros H.
  apply bind_Ok in H. destruct H as [psh [Hpad Hconv]].
  apply F_pad_shape_inv in Hpad.
  destruct Hpad as [lead0 [T0 [Hsh0 [Hp ->]]]].
  change (lead ++ [cin; T]) with (lead ++ [cin] ++ [T]) in Hsh0.
  rewrite app_assoc in Hsh0. apply app_inj_tail in Hsh0.
  destruct Hsh0 as [<- <-].
  apply conv_shape_inv in Hconv.
  destruct Hconv as [lead1 [C [L [r [Hl [Hsh [Hrule ->]]]]]]].
  change (lead1 ++ [C; L]) with (lead1 ++ [C] ++ [L]) in Hsh.
  rewrite app_assoc in Hsh. apply app_inj_tail in Hsh.
  destruct Hsh as [Hsh <-]. apply app_inj_tail in Hsh.
  destruct Hsh as [<- <-].
  apply conv1d_rule_inv in Hrule.
  destruct Hrule as [_ [Ho [_ [Hlen ->]]]]. cbn [fst snd].
  split; [lia |].
  destruct (Z.eqb_spec cin 0) as [E|_]; [lia |].
  replace (T + (d * (k - 1) - (s - 1)) - d * (k - 1) - 1) with (T - s) by ring.
  rewrite div_sub_stride by lia. reflexivity.
Qed.

Lemma causal_conv_mode_out_shape (cin cout k s d T : Z) (pm : string)
  (lead : dims) :
  1 <= cin -> 1 <= cout -> 1 <= k -> 1 <= s -> 1 <= d ->
  batch_lead lead -> s <= T ->
  pm = "constant" \/ pm = "replicate" \/
  (pm = "reflect" /\ d * (k - 1) - (s - 1) < T) ->
  out_shape (CausalConv1d_obj (mkConv1d cin cout k s d 1 true true)
               (mkPad (d * (k - 1) - (s - 1)) (PyStr pm)))
            (lead ++ [cin; T]) [] = Ok (lead ++ [cout; T / s]).
Proof.
  intros Hi Ho Hk Hs Hd Hl HT Hmode.
  assert (Hp : 0 <= d * (k - 1)) by (apply Z.mul_nonneg_nonneg; lia).
  cbn [out_shape]. unfold CausalConv1d_shape. cbn [pad_mode pad_left].
  change (lead ++ [cin; T]) with (lead ++ [cin] ++ [T]).
  rewrite app_assoc.
  rewrite F_pad_shape_mode; [| | lia | exact Hmode].
  2:{ rewrite length_app. cbn [List.length]. unfold batch_lead in Hl. lia. }
  cbn [bind]. rewrite <- app_assoc. cbn [app].
  rewrite conv_shape_lead by (reflexivity || assumption).
  rewrite conv1d_rule_Ok by lia. cbn [bind fst snd].
  replace (T + (d * (k - 1) - (s - 1)) - d * (k - 1) - 1) with (T - s) by ring.
  rewrite div_sub_stride by lia. reflexivity.
Qed.

Section ShapeTheorems.

Context {F : Type} {SF : Scalar F}.

(** C2 (amended).  A [CausalConv1d] with at least one input and one
    output channel, built with [kernel_size], [stride] and [dilation], whose
    pad amount is [p = dilation*(kernel_size-1) - (stride-1)], maps an input
    of time length [T >= stride] to an output of time length
    [floor((T + p - dilation*(kernel_size-1) - 1)/stride) + 1].  This value
    is [floor(T/stride)]; the ceiling [ceil(T/stride)] is one more unless
    the stride divides [T].  An input shorter than the stride is refused
    with a [RuntimeError].  The padding mode does not enter the length:
    with any [padding_mode], a forward pass that returns has been given
    [T >= stride] and returns that length, and it does return for
    [T >= stride] when the mode is ['zeros'] or ['constant'] or, for
    [p >= 0], ['replicate'], or ['reflect'] with [p < T]. *)
Theorem CausalConv1d_output_length
  (cin cout k s d T : Z) (lead : dims) (sd : state_dict F) (x : tensor F) :
  1 <= cin -> 1 <= cout -> 1 <= k -> 1 <= s -> 1 <= d ->
  batch_lead lead -> shape x = lead ++ [cin; T] ->
  let p := d * (k - 1) - (s - 1) in
  (exists m,
     CausalConv1d cin cout k [("stride", PyInt s); ("dilation", PyInt d)] = Ok m /\
     (s <= T ->
        (exists y, call m sd x [] = Ok y /\
                   shape y = lead ++ [cout; (T + p - d * (k - 1) - 1) / s + 1]) /\
        (T + p - d * (k - 1) - 1) / s + 1 = T / s /\
        ceil_div T s = T / s + (if T mod s =? 0 then 0 else 1)) /\
     (T < s -> call m sd x [] = Raise RuntimeError)) /\
  (forall mode, exists m,
     CausalConv1d cin cout k
       [("stride", PyInt s); ("dilation", PyInt d);
        ("padding_mode", PyStr mode)] = Ok m /\
     (forall y, call m sd x [] = Ok y ->
        s <= T /\
        shape y = lead ++ [cout; (T + p - d * (k - 1) - 1) / s + 1]) /\
     (s <= T ->
      mode = "zeros" \/ mode = "constant" \/
      (0 <= p /\ (mode = "replicate" \/ (mode = "reflect" /\ p < T))) ->
        exists y, call m sd x [] = Ok y)).
Proof.
  intros Hi Ho Hk Hs Hd Hl Hx p.
  assert (Hlen : (T + p - d * (k - 1) - 1) / s + 1 = T / s).
  { unfold p. replace (T + (d * (k - 1) - (s - 1)) - d * (k - 1) - 1)
      with (T - s) by ring.
    apply div_sub_stride. lia. }
  split.
  - exists (causal_conv cin cout k s d).
    split; [apply CausalConv1d_general; lia |].
    split.
    + intros HT. split; [| split; [exact Hlen | apply ceil_div_floor; lia]].
      apply call_Ok_shape. simpl map. rewrite Hx, Hlen.
      apply causal_conv_out_shape; assumption.
    + intros HT. apply call_Raise_shape. simpl map. rewrite Hx.
      apply causal_conv_short; assumption.
  - intros mode.
    destruct (@CausalConv1d_with_mode cin cout k s d mode)
      as [pm [Hm [Hzeros Hpm]]]; try lia.
    exists (CausalConv1d_obj (mkConv1d cin cout k s d 1 true true)
              (mkPad p (PyStr pm))).
    split; [exact Hm |]. split.
    + intros y Hy.
      assert (Hsh : out_shape (CausalConv1d_obj
                       (mkConv1d cin cout k s d 1 true true)
                       (mkPad p (PyStr pm))) (shape x) [] = Ok (shape y)).
      { apply (call_Ok_shape _ sd x []). exists y. auto. }
      rewrite Hx in Hsh.
      apply causal_conv_mode_inv in Hsh; try assumption.
      destruct Hsh as [HT Hsy]. split; [exact HT |].
      rewrite Hsy, Hlen. reflexivity.
    + intros HT Hmode.
      assert (Hok : out_shape (CausalConv1d_obj
                       (mkConv1d cin cout k s d 1 true true)
                       (mkPad p (PyStr pm))) (shape x) []
                    = Ok (lead ++ [cout; T / s])).
      { rewrite Hx. apply causal_conv_mode_out_shape; try assumption.
        destruct Hmode as [->|[->|[_ [->|[-> Hp]]]]].
        - left. apply Hzeros. reflexivity.
        - left. apply Hpm. discriminate.
        - right. left. apply Hpm. discriminate.
        - right. right. split; [apply Hpm; discriminate | exact Hp]. }
      apply (call_Ok_shape _ sd x []) in Hok.
      destruct Hok as [y [Hy _]]. exists y. exact Hy.
Qed.

(** C3 (amended).  For a waveform of shape [(samples)] or
    [(batch, samples)] with at least 320 samples, [Encoder.forward] returns
    a tensor of shape [(.., frames, embedding_dim)] with
    [frames = floor(samples / 320)]; the ceiling is one more unless 320
    divides [samples].  A waveform of fewer than 320 samples is refused
    with a [RuntimeError]. *)
Theorem Encoder_frames
  (scale ed T : Z) (lead : dims) (sd : state_dict F) (x : tensor F) :
  1 <= scale -> 1 <= ed -> batch_lead lead -> shape x = lead ++ [T] ->
  exists enc,
    Encoder scale ed = Ok enc /\
    (320 <= T ->
       (exists y, Encoder_forward enc sd x = Ok y /\
                  shape y = lead ++ [T / 320; ed]) /\
       ceil_div T 320 = T / 320 + (if T mod 320 =? 0 then 0 else 1)) /\
    (0 <= T < 320 -> Encoder_forward enc sd x = Raise RuntimeError).
Proof.
  intros Hs He Hl Hx. exists (encoder_net scale ed).
  split; [apply Encoder_plain; lia |]. unfold Encoder_forward. split.
  - intros HT. split; [| apply ceil_div_floor; lia].
    apply call_Ok_shape. simpl map. rewrite Hx.
    apply encoder_net_out_shape; assumption.
  - intros HT. apply call_Raise_shape. simpl map. rewrite Hx.
    apply encoder_net_short; assumption.
Qed.

(** C4 (amended).  Round-trip shape law of the Decoder: for every frame
    count [n >= 1], an embedding sequence of shape [(n, embedding_dim)] or
    [(batch, n, embedding_dim)] and a conditioning vector of shape
    [(conditioning_dim)] or [(batch, conditioning_dim)], [Decoder.forward]
    returns a waveform of shape [(.., samples)] with [samples = n * 320]
    exactly.  An embedding sequence without frames is refused with a
    [RuntimeError], and so is one with two to seven batch axes. *)
Theorem Decoder_samples
  (scale ed cd n : Z) (lead : dims) (sd : state_dict F) (x c : tensor F) :
  1 <= scale -> 1 <= ed -> 1 <= cd ->
  shape x = lead ++ [n; ed] -> shape c = lead ++ [cd] ->
  exists dec,
    Decoder scale ed cd = Ok dec /\
    (batch_lead lead -> 1 <= n ->
       exists y, Decoder_forward dec sd x c = Ok y /\
                 shape y = lead ++ [n * 320]) /\
    (batch_lead lead -> n = 0 ->
       Decoder_forward dec sd x c = Raise RuntimeError) /\
    ((2 <= List.length lead <= 7)%nat ->
       Decoder_forward dec sd x c = Raise RuntimeError).
Proof.
  intros Hs He Hc Hx Hcs. exists (decoder_net scale ed cd).
  split; [apply Decoder_plain; lia |]. unfold Decoder_forward.
  split; [| split].
  - intros Hl Hn. apply call_Ok_shape. simpl map. rewrite Hx, Hcs.
    apply decoder_net_out_shape; assumption.
  - intros Hl ->. apply call_Raise_shape. simpl map. rewrite Hx.
    apply decoder_net_no_frames. exact Hl.
  - intros Hl. apply call_Raise_shape. simpl map. rewrite Hx.
    apply decoder_net_rank. exact Hl.
Qed.

(** C5 (amended).  A [CausalConvTranspose1d] with at least one input and
    one output channel whose
    [causal_trim = dilation*(kernel_size-1) - (stride-1)] is positive maps
    an input of time length [T >= 1] to an output of time length
    [(T-1)*stride + (dilation*(kernel_size-1) + 1) - causal_trim], which is
    [T*stride]; with [dilation = 1] the expression reads
    [(T-1)*stride + kernel_size - causal_trim]. *)
Theorem CausalConvTranspose1d_output_length
  (cin cout k s d T : Z) (lead : dims) (sd : state_dict F) (x : tensor F) :
  1 <= cin -> 1 <= cout -> 1 <= k -> 1 <= s -> 1 <= d ->
  batch_lead lead -> shape x = lead ++ [cin; T] -> 1 <= T ->
  let causal_trim := d * (k - 1) - (s - 1) in
  0 < causal_trim ->
  exists m,
    CausalConvTranspose1d cin cout k
      [("stride", PyInt s); ("dilation", PyInt d)] = Ok m /\
    (exists y, call m sd x [] = Ok y /\
       shape y = lead ++ [cout; (T - 1) * s + (d * (k - 1) + 1) - causal_trim]) /\
    (T - 1) * s + (d * (k - 1) + 1) - causal_trim = T * s /\
    (d = 1 ->
     (T - 1) * s + (d * (k - 1) + 1) - causal_trim
     = (T - 1) * s + k - causal_trim).
Proof.
  intros Hi Ho Hk Hs Hd Hl Hx HT trim Htrim.
  exists (causal_conv_transpose cin cout k s d).
  split; [apply CausalConvTranspose1d_general; lia |].
  assert (Hlen : (T - 1) * s + (d * (k - 1) + 1) - trim = T * s)
    by (unfold trim; ring).
  split; [| split; [exact Hlen | intros ->; ring]].
  apply call_Ok_shape. simpl map. rewrite Hx, Hlen.
  rewrite causal_conv_transpose_out_shape by (assumption || lia).
  rewrite slice_stop_trim by (assumption || lia). reflexivity.
Qed.

(** C10.  When [causal_trim = dilation*(kernel_size-1) - (stride-1)] is 0,
    the forward pass of a [CausalConvTranspose1d] with at least one input
    and one output channel returns a tensor whose time axis is empty for
    every non-empty input: the slice [out[..., :-0]] keeps nothing. *)
Theorem CausalConvTranspose1d_zero_trim_empty
  (cin cout k s d T : Z) (lead : dims) (sd : state_dict F) (x : tensor F) :
  1 <= cin -> 1 <= cout -> 1 <= k -> 1 <= s -> 1 <= d ->
  batch_lead lead -> shape x = lead ++ [cin; T] -> 1 <= T ->
  d * (k - 1) - (s - 1) = 0 ->
  exists m,
    CausalConvTranspose1d cin cout k
      [("stride", PyInt s); ("dilation", PyInt d)] = Ok m /\
    exists y, call m sd x [] = Ok y /\ shape y = lead ++ [cout; 0].
Proof.
  intros Hi Ho Hk Hs Hd Hl Hx HT Htrim.
  exists (causal_conv_transpose cin cout k s d).
  split; [apply CausalConvTranspose1d_general; lia |].
  apply call_Ok_shape. simpl map. rewrite Hx.
  rewrite causal_conv_transpose_out_shape by (assumption || lia).
  rewrite Htrim. unfold slice_stop. cbn [Z.opp Z.ltb Z.compare].
  assert (Hq : 0 <= (T - 1) * s) by (apply Z.mul_nonneg_nonneg; lia).
  rewrite Z.min_l by lia. reflexivity.
Qed.

(** C9.  ResidualUnit shape safety, for a unit with at least one
    channel: on an input [x] of shape
    [(.., channels, T)] with [T >= 1], each of the two inner causal
    convolutions returns a tensor of the shape of [x], so does the wrapped
    transform, and the residual addition [fn(x) + x] succeeds with the
    shape of [x].  On any input whatsoever, once the wrapped transform has
    returned, the addition does not fail. *)
Theorem ResidualUnit_shape_safe
  (ch d k T : Z) (lead : dims) (sd : state_dict F) (x : tensor F) :
  1 <= ch -> 1 <= d -> 1 <= k -> batch_lead lead ->
  shape x = lead ++ [ch; T] -> 1 <= T ->
  exists conv1 conv2,
    ResidualUnit ch d k [] = Ok (Residual (Sequential [conv1; ELU; conv2; ELU])) /\
    (forall (sd' : state_dict F) (z : tensor F), shape z = shape x ->
       exists z', call conv1 sd' z [] = Ok z' /\ shape z' = shape x) /\
    (forall (sd' : state_dict F) (z : tensor F), shape z = shape x ->
       exists z', call conv2 sd' z [] = Ok z' /\ shape z' = shape x) /\
    (exists h, call (Sequential [conv1; ELU; conv2; ELU])
                    (sub sd (Attr "fn")) x [] = Ok h /\
               shape h = shape x) /\
    (exists y, call (Residual (Sequential [conv1; ELU; conv2; ELU])) sd x []
               = Ok y /\ shape y = shape x) /\
    (forall (sd' : state_dict F) (z h : tensor F),
       call (Sequential [conv1; ELU; conv2; ELU]) sd' z [] = Ok h ->
       exists y, tensor_add h z = Ok y /\ shape y = shape z).
Proof.
  intros Hc Hd Hk Hl Hx HT.
  exists (causal_conv ch ch k 1 d), (causal_conv ch ch 1 1 1).
  split; [apply ResidualUnit_plain; lia |].
  assert (Hconv : forall k' d', 1 <= k' -> 1 <= d' ->
            forall (sd' : state_dict F) (z : tensor F), shape z = shape x ->
            exists z', call (causal_conv ch ch k' 1 d') sd' z [] = Ok z' /\
                       shape z' = shape x).
  { intros k' d' Hk' Hd' sd' z Hz. apply call_Ok_shape. simpl map.
    rewrite Hz, Hx. rewrite causal_conv_out_shape by (assumption || lia).
    rewrite Z.div_1_r. reflexivity. }
  split; [apply Hconv; lia |]. split; [apply Hconv; lia |].
  split; [| split].
  - apply call_Ok_shape. simpl map. rewrite Hx.
    rewrite out_shape_Sequential. do 4 shape_layer. reflexivity.
  - apply call_Ok_shape. simpl map. rewrite Hx.
    apply residual_unit_out_shape; assumption.
  - intros sd' z h Hh.
    assert (Hsh : shape h = shape z).
    { apply (@residual_fn_keeps_shape ch d k); [exact Hk | exact Hd |].
      apply (call_Ok_shape _ sd' z []). exists h. auto. }
    unfold tensor_add, broadcast, with_shape.
    rewrite Hsh, broadcast_shapes_same. cbn [bind].
    eexists. split; reflexivity.
Qed.

End ShapeTheorems.

(** ** LearnablePooling *)

Section Pooling.

Context {F : Type} {SF : Scalar F}.

(** C6.  [LearnablePooling.forward] raises on every input: a batched
    [(batch, frames, dim)] input fails the shape check of the attention
    (the query [pooling_weights] is 2-D), and on an unbatched
    [(frames, dim)] input [squeeze] is called on the pair the attention
    returns. *)
Theorem LearnablePooling_forward_raises :
  forall (self : LearnablePooling_obj) (sd : state_dict F) (x : tensor F),
    (exists e, LearnablePooling_forward self sd x = Raise e) /\
    (forall B n dim, shape x = [B; n; dim] ->
       LearnablePooling_forward self sd x = Raise AssertionError) /\
    (forall n, shape x = [n; pooling_dim self] ->
       LearnablePooling_forward self sd x = Raise AttributeError).
Proof.
  intros self sd x. unfold LearnablePooling_forward, MultiheadAttention_forward.
  cbn [shape]. split; [| split].
  - destruct (shape x) as [|a [|b [|c l]]]; try (eexists; reflexivity).
    raise_or_go. eexists. reflexivity.
  - intros B n dim ->. reflexivity.
  - intros n ->. rewrite !Z.eqb_refl. reflexivity.
Qed.

End Pooling.

(** ** Causality *)

Section Causality.

Context {F : Type} {SF : Scalar F}.

(** The elements of the output of a causal convolution. *)
Lemma causal_conv_call_data (cin cout k s d : Z) (sd : state_dict F)
  (x x' : tensor F) :
  call (causal_conv cin cout k s d) sd x [] = Ok x' ->
  exists psh,
    data x' = conv1d_data (mkConv1d cin cout k s d 1 true true) sd
                (mkTensor psh
                   (F_pad_data (d * (k - 1) - (s - 1)) "constant" x)).
Proof.
  unfold causal_conv. cbn [call]. unfold CausalConv1d_forward.
  cbn [pad_mode pad_left]. intros H.
  apply bind_Ok in H. destruct H as [padded [Hpad Hconv]].
  unfold F_pad, with_shape in Hpad.
  apply bind_Ok in Hpad. destruct Hpad as [psh [_ Hpad]].
  injection Hpad as <-.
  unfold nn_Conv1d_forward, with_shape in Hconv.
  apply bind_Ok in Hconv. destruct Hconv as [sh' [_ Hconv]].
  injection Hconv as <-. exists psh. reflexivity.
Qed.

Lemma F_pad_data_constant (p : Z) (x : tensor F) (lead : index) (u : Z) :
  F_pad_data p "constant" x (lead ++ [u])
  = if p <=? u then data x (lead ++ [u - p]) else fzero.
Proof.
  unfold F_pad_data. rewrite rev_app_distr. cbn [rev app].
  rewrite rev_involutive. reflexivity.
Qed.

(** The elements a convolution reads for output channel [co] at time [t]. *)
Lemma conv1d_data_at (c : Conv1d) (sd : state_dict F) (x : tensor F)
  (lead : index) (co t : Z) :
  conv1d_data c sd x (lead ++ [co; t])
  = let cig := in_channels c / groups c in
    let g := co / (out_channels c / groups c) in
    let acc :=
      fsum cig (fun ci =>
        fsum (kernel_size c) (fun i =>
          fmul (param sd "weight" [co; ci; i])
               (data x (lead ++ [g * cig + ci;
                                 t * stride c + i * dilation c])))) in
    if bias c then fadd acc (param sd "bias" [co]) else acc.
Proof.
  unfold conv1d_data. rewrite rev_app_distr. cbn [rev app].
  rewrite rev_involutive. cbv zeta.
  assert (Hsum : forall f g : Z -> F, (forall ci, f ci = g ci) ->
            fsum (in_channels c / groups c) f
            = fsum (in_channels c / groups c) g).
  { intros f g Hfg. apply fsum_ext. intros ci _. apply Hfg. }
  rewrite (Hsum _ (fun ci =>
             fsum (kernel_size c) (fun i =>
               fmul (param sd "weight" [co; ci; i])
                    (data x (lead ++ [co / (out_channels c / groups c)
                                      * (in_channels c / groups c) + ci;
                                      t * stride c + i * dilation c]))))).
  - reflexivity.
  - intros ci. apply fsum_ext. intros i _.
    rewrite <- !app_assoc. reflexivity.
Qed.

Lemma causal_conv_agree (cin cout k s d n : Z) (sd : state_dict F)
  (x y x' y' : tensor F) :
  1 <= k -> 1 <= s -> 1 <= d ->
  agree n x y ->
  call (causal_conv cin cout k s d) sd x [] = Ok x' ->
  call (causal_conv cin cout k s d) sd y [] = Ok y' ->
  agree (n / s) x' y'.
Proof.
  intros Hk Hs Hd [lead [Tx [Ty [Hx [Hy [Hnx [Hny Hdata]]]]]]] Hcx Hcy.
  pose proof Hcx as Hdx. apply causal_conv_call_data in Hdx.
  destruct Hdx as [pshx Hdx].
  pose proof Hcy as Hdy. apply causal_conv_call_data in Hdy.
  destruct Hdy as [pshy Hdy].
  pose proof (proj2 (call_Ok_shape _ sd x [] (shape x'))
                (ex_intro _ x' (conj Hcx eq_refl))) as Hsx.
  pose proof (proj2 (call_Ok_shape _ sd y [] (shape y'))
                (ex_intro _ y' (conj Hcy eq_refl))) as Hsy.
  simpl map in Hsx, Hsy.
  apply causal_conv_shape_inv_any in Hsx; try assumption.
  apply causal_conv_shape_inv_any in Hsy; try assumption.
  destruct Hsx as [lx [Tx0 [Hlx [Hx0 [HTx [_ Hx']]]]]].
  destruct Hsy as [ly [Ty0 [Hly [Hy0 [HTy [_ Hy']]]]]].
  rewrite Hx in Hx0. rewrite Hy in Hy0.
  change (lx ++ [cin; Tx0]) with (lx ++ [cin] ++ [Tx0]) in Hx0.
  change (ly ++ [cin; Ty0]) with (ly ++ [cin] ++ [Ty0]) in Hy0.
  rewrite app_assoc in Hx0, Hy0.
  apply app_inj_tail in Hx0. apply app_inj_tail in Hy0.
  destruct Hx0 as [Hlead <-]. destruct Hy0 as [Hlead' <-].
  rewrite Hlead in Hlead'. apply app_inj_tail in Hlead'.
  destruct Hlead' as [<- _]. subst lead.
  exists (lx ++ [if cin =? 0 then 0 else cout]), (Tx / s), (Ty / s).
  rewrite <- !app_assoc. cbn [app].
  split; [exact Hx' |]. split; [exact Hy' |].
  split; [apply Z.div_le_mono; lia |].
  split; [apply Z.div_le_mono; lia |].
  intros idx Hidx. rewrite Hdx, Hdy. clear Hdx Hdy Hcx Hcy Hx' Hy'.
  apply in_range_two in Hidx.
  destruct Hidx as [il [co [t [-> [Hil [Hco Ht]]]]]].
  assert (Hco' : 0 <= co < cout) by (destruct (Z.eqb_spec cin 0); lia).
  rewrite !conv1d_data_at.
  cbn [in_channels out_channels kernel_size stride dilation groups bias data].
  cbv zeta. f_equal.
  rewrite !Z.div_1_r, (Z.div_small co cout) by lia.
  apply fsum_ext; intros ci Hci; apply fsum_ext; intros i Hi. f_equal.
  change (il ++ [0 * cin + ci; t * s + i * d])
    with (il ++ [0 * cin + ci] ++ [t * s + i * d]).
  rewrite app_assoc, !F_pad_data_constant.
  destruct (Z.leb_spec (d * (k - 1) - (s - 1)) (t * s + i * d)) as [Hu|Hu];
    [| reflexivity].
  apply Hdata. rewrite <- !app_assoc. cbn [app].
  pose proof (@window_end n s d k t i ltac:(lia) ltac:(lia) Hi Ht) as Hw.
  apply in_range_two_intro; [exact Hil | lia | lia].
Qed.

Lemma causal_at_conv (cin cout k s d : Z) :
  1 <= k -> 1 <= s -> 1 <= d -> causal_at s (causal_conv cin cout k s d).
Proof.
  intros Hk Hs Hd sd x y x' y' n Ha Hx Hy.
  eapply causal_conv_agree;
    [exact Hk | exact Hs | exact Hd | exact Ha | exact Hx | exact Hy].
Qed.

Lemma causal_at_ELU : causal_at 1 ELU.
Proof.
  intros sd x y x' y' n [lead [Tx [Ty [Hx [Hy [Hnx [Hny Hd]]]]]]] Hcx Hcy.
  cbn [call] in Hcx, Hcy. unfold nn_ELU_forward in Hcx, Hcy.
  injection Hcx as <-. injection Hcy as <-.
  rewrite Z.div_1_r. exists lead, Tx, Ty. cbn [shape data].
  repeat (split; [assumption |]).
  intros idx Hidx. rewrite (Hd idx Hidx). reflexivity.
Qed.

Lemma causal_each_nil : causal_each 1 [].
Proof.
  intros sd i x y x' y' n Ha Hx Hy. cbn [call_each] in Hx, Hy.
  injection Hx as <-. injection Hy as <-. rewrite Z.div_1_r. exact Ha.
Qed.

Lemma causal_each_cons (h1 h2 : Z) (m : module) (ms : list module) :
  0 < h1 -> 0 < h2 -> causal_at h1 m -> causal_each h2 ms ->
  causal_each (h1 * h2) (m :: ms).
Proof.
  intros H1 H2 Hm Hms sd i x y x' y' n Ha Hx Hy.
  cbn [call_each] in Hx, Hy.
  apply bind_Ok in Hx. destruct Hx as [x1 [Hx1 Hx]].
  apply bind_Ok in Hy. destruct Hy as [y1 [Hy1 Hy]].
  rewrite <- Z.div_div by lia.
  eapply Hms; [| exact Hx | exact Hy].
  eapply Hm; eassumption.
Qed.

Lemma causal_at_Sequential (h : Z) (ms : list module) :
  causal_each h ms -> causal_at h (Sequential ms).
Proof.
  intros Hms sd x y x' y' n Ha Hx Hy.
  rewrite call_Sequential in Hx, Hy. eapply Hms; eassumption.
Qed.

(** *** The residual connection *)

Lemma causal_at_Residual (fn : module) :
  (forall sh sh', out_shape fn sh [] = Ok sh' -> sh' = sh) ->
  causal_at 1 fn -> causal_at 1 (Residual_obj fn).
Proof.
  intros Hshape Hfn sd x y x' y' n Ha Hx Hy.
  cbn [call] in Hx, Hy.
  apply bind_Ok in Hx. destruct Hx as [fx [Hfx Hx]].
  apply bind_Ok in Hy. destruct Hy as [fy [Hfy Hy]].
  assert (Hsx : shape fx = shape x).
  { apply Hshape. apply (call_Ok_shape fn (sub sd (Attr "fn")) x []).
    exists fx. auto. }
  assert (Hsy : shape fy = shape y).
  { apply Hshape. apply (call_Ok_shape fn (sub sd (Attr "fn")) y []).
    exists fy. auto. }
  pose proof (Hfn _ _ _ _ _ _ Ha Hfx Hfy) as Hf. rewrite Z.div_1_r in Hf.
  destruct (@tensor_add_same_shape _ _ fx x x' Hsx Hx) as [Hx' Hdx].
  destruct (@tensor_add_same_shape _ _ fy y y' Hsy Hy) as [Hy' Hdy].
  destruct Ha as [lead [Tx [Ty [Hshx [Hshy [Hnx [Hny Hd]]]]]]].
  destruct Hf as [lead' [Tfx [Tfy [Hfshx [_ [_ [_ Hfd]]]]]]].
  rewrite Hsx, Hshx in Hfshx. apply app_inj_tail in Hfshx.
  destruct Hfshx as [<- <-].
  rewrite Z.div_1_r. exists lead, Tx, Ty.
  split; [congruence |]. split; [congruence |].
  split; [exact Hnx |]. split; [exact Hny |].
  intros idx Hidx.
  rewrite Hdx by (rewrite Hshx; eapply in_range_widen; eassumption).
  rewrite Hdy by (rewrite Hshy; eapply in_range_widen; eassumption).
  rewrite (Hfd idx Hidx), (Hd idx Hidx). reflexivity.
Qed.

Lemma causal_at_residual_unit (ch d k : Z) :
  1 <= k -> 1 <= d -> causal_at 1 (residual_unit ch d k).
Proof.
  intros Hk Hd. unfold residual_unit. apply causal_at_Residual.
  - intros sh sh'. apply residual_fn_keeps_shape; assumption.
  - apply causal_at_Sequential.
    change 1 with (1 * (1 * (1 * (1 * 1)))).
    repeat (apply causal_each_cons; try lia);
      try apply causal_each_nil; try apply causal_at_ELU;
      apply causal_at_conv; lia.
Qed.

Lemma causal_at_encoder_block (cin cout s : Z) :
  1 <= s -> causal_at s (encoder_block cin cout s).
Proof.
  intros Hs. unfold encoder_block. apply causal_at_Sequential.
  replace s with (1 * (1 * (1 * (s * (1 * 1))))) at 1 by ring.
  repeat (apply causal_each_cons; try lia);
    try apply causal_each_nil; try apply causal_at_ELU;
    try (apply causal_at_residual_unit; lia).
  apply causal_at_conv; lia.
Qed.

(** *** The Encoder *)

Lemma call_each_app (sd : state_dict F) (ms1 ms2 : list module) :
  forall (i : nat) (x : tensor F),
    call_each sd (ms1 ++ ms2) i x
    = (y <- call_each sd ms1 i x ;;
       call_each sd ms2 (i + List.length ms1)%nat y).
Proof.
  induction ms1 as [|m ms1 IH]; intros i x.
  - cbn [app call_each bind List.length]. rewrite Nat.add_0_r. reflexivity.
  - cbn [app call_each List.length].
    destruct (call m (sub sd (Idx i)) x []) as [y|e]; [| reflexivity].
    cbn [bind]. rewrite IH, Nat.add_succ_r. reflexivity.
Qed.

Lemma causal_at_add_channel : causal_at 1 (Rearrange add_channel_axis).
Proof.
  intros sd x y x' y' n [lead [Tx [Ty [Hx [Hy [Hnx [Hny Hd]]]]]]] Hcx Hcy.
  cbn [call] in Hcx, Hcy. unfold Rearrange_forward, with_shape in Hcx, Hcy.
  assert (Hrank : (List.length lead <= 7)%nat).
  { destruct (rearrange_shape add_channel_axis (shape x)) as [sh'|] eqn:E;
      [| discriminate].
    apply rearrange_shape_rank in E. rewrite Hx, length_app in E.
    cbn [List.length named_axes] in E. lia. }
  rewrite Hx, rearrange_add_channel in Hcx by exact Hrank.
  rewrite Hy, rearrange_add_channel in Hcy by exact Hrank.
  cbn [bind] in Hcx, Hcy. injection Hcx as <-. injection Hcy as <-.
  rewrite Z.div_1_r. exists (lead ++ [1]), Tx, Ty. cbn [shape data].
  rewrite <- !app_assoc. cbn [app].
  repeat (split; [first [reflexivity | assumption] |]).
  intros idx Hidx. apply in_range_two in Hidx.
  destruct Hidx as [il [c [t [-> [Hil [Hc Ht]]]]]].
  unfold rearrange_data. rewrite rev_app_distr. cbn [rev app].
  rewrite rev_involutive. apply Hd.
  apply in_range_app; [exact Hil | simpl; tauto].
Qed.

Lemma causal_each_encoder_core (scale ed : Z) :
  causal_each 320 (encoder_core scale ed).
Proof.
  unfold encoder_core.
  change 320 with (1 * (1 * (1 * (2 * (4 * (5 * (8 * (1 * (1 * 1))))))))).
  repeat (apply causal_each_cons; try lia);
    try apply causal_each_nil; try apply causal_at_ELU;
    try apply causal_at_add_channel;
    try (apply causal_at_encoder_block; lia);
    apply causal_at_conv; lia.
Qed.

(** The frame-major output reads the channel-major signal transposed. *)
Lemma swap_last_axes_data (x x' : tensor F) (il : index) (j e : Z) :
  Rearrange_forward swap_last_axes x = Ok x' ->
  data x' (il ++ [j; e]) = data x (il ++ [e; j]).
Proof.
  unfold Rearrange_forward, with_shape. intros H.
  apply bind_Ok in H. destruct H as [sh [_ H]]. injection H as <-.
  cbn [data]. unfold rearrange_data. rewrite rev_app_distr. cbn [rev app].
  rewrite rev_involutive, <- !app_assoc. reflexivity.
Qed.

(** C1.  Causality of the Encoder: if two waveforms (of any lengths above
    [t]) hold the same samples on [[0, t]], then every output frame [j]
    whose 320 samples end at or before [t] ([frame_end j <= t]) exists in
    both outputs and holds the same elements in both runs. *)
Theorem Encoder_causal
  (scale ed : Z) (lead : dims) (Tx Ty t : Z) (sd : state_dict F)
  (x y : tensor F) :
  1 <= scale -> 1 <= ed -> batch_lead lead ->
  shape x = lead ++ [Tx] -> shape y = lead ++ [Ty] ->
  t < Tx -> t < Ty ->
  (forall il i, in_range lead il -> 0 <= i <= t ->
     data x (il ++ [i]) = data y (il ++ [i])) ->
  forall j, 0 <= j -> frame_end j <= t ->
  exists enc ex ey,
    Encoder scale ed = Ok enc /\
    Encoder_forward enc sd x = Ok ex /\ shape ex = lead ++ [Tx / 320; ed] /\
    Encoder_forward enc sd y = Ok ey /\ shape ey = lead ++ [Ty / 320; ed] /\
    j < Tx / 320 /\ j < Ty / 320 /\
    forall il e, in_range lead il -> 0 <= e < ed ->
      data ex (il ++ [j; e]) = data ey (il ++ [j; e]).
Proof.
  intros Hs He Hl Hx Hy HtX HtY Hsame j Hj Hend. unfold frame_end in Hend.
  assert (Hagree : agree (t + 1) x y).
  { exists lead, Tx, Ty. repeat (split; [first [assumption | lia] |]).
    intros idx Hidx. apply in_range_app_inv in Hidx.
    destruct Hidx as [il [jl [-> [Hil Hjl]]]].
    apply in_range_singleton in Hjl. destruct Hjl as [i [-> Hi]].
    apply Hsame; [exact Hil | lia]. }
  set (sde := sub sd (Attr "encoder")).
  destruct (proj1 (call_Ok_shape (encoder_net scale ed) sde x []
                     (lead ++ [Tx / 320; ed]))) as [ex [Hex Hsex]].
  { simpl map. rewrite Hx. apply encoder_net_out_shape; (assumption || lia). }
  destruct (proj1 (call_Ok_shape (encoder_net scale ed) sde y []
                     (lead ++ [Ty / 320; ed]))) as [ey [Hey Hsey]].
  { simpl map. rewrite Hy. apply encoder_net_out_shape; (assumption || lia). }
  assert (HjN : j < (t + 1) / 320).
  { apply Z.lt_le_trans with (j + 1); [lia |].
    apply Z.div_le_lower_bound; lia. }
  exists (encoder_net scale ed), ex, ey.
  split; [apply Encoder_plain; lia |]. unfold Encoder_forward. fold sde.
  split; [exact Hex |]. split; [exact Hsex |].
  split; [exact Hey |]. split; [exact Hsey |].
  split; [apply Z.lt_le_trans with ((t + 1) / 320);
          [exact HjN | apply Z.div_le_mono; lia] |].
  split; [apply Z.lt_le_trans with ((t + 1) / 320);
          [exact HjN | apply Z.div_le_mono; lia] |].
  rewrite encoder_net_core, call_Sequential, call_each_app in Hex, Hey.
  apply bind_Ok in Hex. destruct Hex as [cx [Hcx Hex]].
  apply bind_Ok in Hey. destruct Hey as [cy [Hcy Hey]].
  cbn [call_each call bind] in Hex, Hey.
  apply bind_Ok in Hex. destruct Hex as [ex' [Hex Hex']].
  apply bind_Ok in Hey. destruct Hey as [ey' [Hey Hey']].
  injection Hex' as ->. injection Hey' as ->.
  pose proof (@causal_each_encoder_core scale ed sde 0%nat x y cx cy (t + 1)
                Hagree Hcx Hcy) as Hc.
  destruct Hc as [lead' [Tcx [Tcy [Hscx [_ [_ [_ Hcd]]]]]]].
  assert (Hcore : shape cx = lead ++ [ed; Tx / 320]).
  { destruct (proj1 (call_Ok_shape (Sequential (encoder_core scale ed)) sde x []
                       (lead ++ [ed; Tx / 320]))) as [cx' [Hcx' Hs']].
    - simpl map. rewrite out_shape_Sequential, Hx.
      apply encoder_core_out_shape; (assumption || lia).
    - rewrite call_Sequential in Hcx'. congruence. }
  rewrite Hcore in Hscx.
  change (lead ++ [ed; Tx / 320]) with (lead ++ [ed] ++ [Tx / 320]) in Hscx.
  rewrite app_assoc in Hscx. apply app_inj_tail in Hscx.
  destruct Hscx as [<- _].
  intros il e Hil Hee.
  rewrite (@swap_last_axes_data cx ex il j e Hex),
    (@swap_last_axes_data cy ey il j e Hey).
  apply Hcd. rewrite <- app_assoc. cbn [app].
  apply in_range_two_intro; [exact Hil | exact Hee | lia].
Qed.

End Causality.

(** ** FiLM *)

Section FiLMLaws.

Context {F : Type} {SF : Scalar F}.

(** The elements of the output of a linear layer. *)
Lemma nn_Linear_forward_data (l : Linear) (sd : state_dict F)
  (c g : tensor F) :
  nn_Linear_forward l sd c = Ok g ->
  forall idx, in_range (shape g) idx ->
    exists lead o,
      idx = lead ++ [o] /\
      data g idx
      = fadd (fsum (in_features l) (fun i =>
                fmul (data c (lead ++ [i])) (param sd "weight" [o; i])))
             (param sd "bias" [o]).
Proof.
  unfold nn_Linear_forward, with_shape, linear_shape. intros H.
  apply bind_Ok in H. destruct H as [sh [Hsh H]]. injection H as <-.
  cbn [shape data]. destruct (rev (shape c)) as [|n lead]; [discriminate |].
  apply bind_Ok in Hsh. destruct Hsh as [_ [_ Hsh]]. injection Hsh as <-.
  cbn [rev]. intros idx Hidx. apply in_range_app_inv in Hidx.
  destruct Hidx as [il [jl [-> [_ Hjl]]]].
  apply in_range_singleton in Hjl. destruct Hjl as [o [-> _]].
  exists il, o. split; [reflexivity |].
  unfold linear_data. rewrite rev_app_distr. cbn [rev app]. f_equal.
  apply fsum_ext. intros i _. rewrite rev_involutive. reflexivity.
Qed.

End FiLMLaws.

(** *** The identity law over floats *)

Section Float32.

#[local] Existing Instance float32_scalar.

Lemma digits2_pos_shift23 (m : positive) :
  Zpos (digits2_pos (m * 8388608)) = Zpos (digits2_pos m) + 23.
Proof.
  rewrite Pos.mul_comm. cbn [Pos.mul digits2_pos]. lia.
Qed.

Lemma shr_shift23 (m : positive) :
  iter_pos shr_1 23
    {| shr_m := Zpos (m * 8388608); shr_r := false; shr_s := false |}
  = {| shr_m := Zpos m; shr_r := false; shr_s := false |}.
Proof.
  rewrite Pos.mul_comm. reflexivity.
Qed.

(** Multiplying a float by one gives the float back, bit for bit: the
    product of the mantissas is the mantissa shifted by 23 bits, and
    rounding shifts it back without loss. *)
Lemma float32_mul_one (a : float32) :
  is_float32 a = true -> fmul a fone = a.
Proof.
  unfold is_float32.
  destruct a as [s|s| |s m e]; intros Hv; cbn [fmul fone float32_scalar SFmul].
  - rewrite xorb_false_r. reflexivity.
  - rewrite xorb_false_r. reflexivity.
  - reflexivity.
  - rewrite xorb_false_r. cbn [valid_binary] in Hv. unfold bounded in Hv.
    apply andb_prop in Hv. destruct Hv as [Hc Hb].
    unfold canonical_mantissa in Hc. apply Z.eqb_eq in Hc.
    unfold binary_round_aux, shr_fexp.
    cbn [Zdigits2]. rewrite digits2_pos_shift23.
    replace (Z.pos (digits2_pos m) + 23 + (e + -23))
      with (Z.pos (digits2_pos m) + e) by lia.
    rewrite Hc.
    replace (e - (e + -23)) with 23 by lia.
    cbn [shr_record_of_loc shr]. rewrite shr_shift23.
    cbn [shr_m loc_of_shr_record round_nearest_even Zdigits2].
    replace (e + -23 + 23) with e by lia.
    rewrite Hc, Z.sub_diag. cbn [shr shr_m shr_record_of_loc].
    rewrite Hb. reflexivity.
Qed.

(** Adding a zero of either sign changes nothing but, possibly, the sign
    of a zero. *)
Lemma float32_add_zero (a : float32) (s : bool) :
  (is_zero a = false -> SFadd 24 128 a (S754_zero s) = a) /\
  (is_zero a = true -> is_zero (SFadd 24 128 a (S754_zero s)) = true).
Proof.
  destruct a as [sa|sa| |sa m e]; split; intros H; try discriminate;
    try reflexivity.
  destruct sa, s; reflexivity.
Qed.

Lemma float_eq_refl (a : float32) : float_eq a a = negb (is_nan a).
Proof.
  unfold float_eq, SFeqb.
  destruct a as [s|s| |s m e]; cbn [SFcompare is_nan negb]; try reflexivity.
  - destruct s; reflexivity.
  - destruct s; rewrite Z.compare_refl, Pos.compare_cont_refl; reflexivity.
Qed.

Lemma float_eq_zeros (a b : float32) :
  is_zero a = true -> is_zero b = true -> float_eq a b = true.
Proof.
  destruct a, b; intros Ha Hb; try discriminate. reflexivity.
Qed.

(** The floats equal to one and to zero. *)
Lemma float_eq_one (a : float32) :
  float_eq a (fone) = true ->
  a = fone.
Proof.
  unfold float_eq, SFeqb. cbn [fone float32_scalar].
  destruct a as [s|s| |s m e]; cbn [SFcompare]; try (destruct s; discriminate);
    try discriminate.
  destruct s; [discriminate |].
  destruct (Z.compare_spec e (-23)) as [->|?|?]; try discriminate.
  destruct (Pos.compare_cont Eq m 8388608) eqn:E; try discriminate.
  apply Pos.compare_eq in E. subst m. reflexivity.
Qed.

Lemma float_eq_zero (a : float32) :
  float_eq a (fzero) = true -> is_zero a = true.
Proof.
  unfold float_eq, SFeqb. cbn [fzero float32_scalar].
  destruct a as [s|s| |s m e]; cbn [SFcompare]; try (destruct s; discriminate);
    try discriminate.
  reflexivity.
Qed.

(** The arithmetic of the identity modulation: [a * 1 + 0 == a] holds for
    every float but NaN, and the result is [a] itself unless [a] is a
    zero. *)
Lemma float32_identity (a g b : float32) :
  is_float32 a = true -> float_eq g fone = true -> float_eq b fzero = true ->
  float_eq (fadd (fmul a g) b) a = negb (is_nan a) /\
  (is_zero a = false -> fadd (fmul a g) b = a).
Proof.
  intros Ha Hg Hb. apply float_eq_one in Hg. subst g.
  apply float_eq_zero in Hb. destruct b as [s| | |]; try discriminate.
  rewrite float32_mul_one by exact Ha. cbn [fadd float32_scalar].
  destruct (float32_add_zero a s) as [Hnz Hz].
  destruct (is_zero a) eqn:E.
  - split; [| discriminate].
    rewrite float_eq_zeros by auto. destruct a; try discriminate. reflexivity.
  - rewrite Hnz by reflexivity. split; [apply float_eq_refl | reflexivity].
Qed.


End Float32.

(** ** Concrete runs *)

Lemma fsum_Z_zero (n : Z) (f : Z -> Z) :
  (forall i, 0 <= i < n -> f i = 0) -> @fsum Z Z_scalar n f = 0.
Proof.
  intros H. rewrite (@fsum_ext Z Z_scalar n f (fun _ => 0)) by exact H.
  unfold fsum. generalize (seq 0 (Z.to_nat n)).
  induction l as [|i l IH]; [reflexivity | exact IH].
Qed.

(** C1 at work: a silent waveform of 640 samples and a waveform of 960
    samples that is silent up to sample 319 give the same frame 0. *)
Lemma Encoder_causal_witness :
  exists enc ex ey,
    Encoder 1 1 = Ok enc /\
    Encoder_forward (SF := Z_scalar) enc (constant_state 1) (zeros [640])
    = Ok ex /\
    Encoder_forward (SF := Z_scalar) enc (constant_state 1) (step_after 319 960)
    = Ok ey /\
    data ex [0; 0] = data ey [0; 0].
Proof.
  destruct (@Encoder_causal Z Z_scalar 1 1 [] 640 960 319 (constant_state 1)
              (zeros [640]) (step_after 319 960))
    with (j := 0)
    as [enc [ex [ey [Henc [Hex [_ [Hey [_ [_ [_ Hsame]]]]]]]]]];
    try reflexivity; try (unfold frame_end; lia);
    [unfold batch_lead; simpl; lia | |].
  - intros il i Hil Hi. apply in_range_nil_inv in Hil. subst il.
    cbn [app zeros step_after data].
    destruct (Z.leb_spec i 319); [reflexivity | lia].
  - exists enc, ex, ey. split; [exact Henc |]. split; [exact Hex |].
    split; [exact Hey |]. apply (Hsame [] 0); [exact I | lia].
Defined.

(** C2 at work: kernel 4, stride 2 on 16 samples gives 8 frames. *)
Lemma CausalConv1d_output_length_witness :
  exists m,
    CausalConv1d 1 8 4 [("stride", PyInt 2); ("dilation", PyInt 1)] = Ok m /\
    exists y, call (SF := Z_scalar) m (constant_state 1) (arange [3; 1; 16]) []
              = Ok y /\ shape y = [3; 8; 8].
Proof.
  destruct (@CausalConv1d_output_length Z Z_scalar 1 8 4 2 1 16 [3]
              (constant_state 1) (arange [3; 1; 16]))
    as [[m [Hm [Hok _]]] _];
    try lia; try reflexivity; [unfold batch_lead; simpl; lia |].
  exists m. split; [exact Hm |].
  destruct (Hok ltac:(lia)) as [[y [Hy Hsh]] _].
  exists y. split; [exact Hy | exact Hsh].
Defined.

(** Against C2 as stated: kernel 4, stride 2 on 3 samples gives
    [floor(3/2) = 1] frame, not [ceil(3/2) = 2]. *)
Lemma CausalConv1d_not_ceil :
  exists m y,
    CausalConv1d 1 1 4 [("stride", PyInt 2)] = Ok m /\
    call (SF := Z_scalar) m (constant_state 1) (arange [1; 1; 3]) [] = Ok y /\
    shape y = [1; 1; 1] /\
    ceil_div 3 2 = 2.
Proof.
  exists (causal_conv 1 1 4 2 1).
  destruct (proj1 (call_Ok_shape (SF := Z_scalar) (causal_conv 1 1 4 2 1)
                     (constant_state 1) (arange [1; 1; 3]) [] [1; 1; 1])
              eq_refl) as [y [Hy Hsh]].
  exists y. split; [reflexivity |]. split; [exact Hy |].
  split; [exact Hsh | reflexivity].
Qed.

(** C3 at work, the end-to-end scenario of the specification: a batch
    of 2 waveforms of 16000 samples, [scale = 32], [embedding_dim = 64],
    gives shape [(2, 50, 64)]. *)
Lemma Encoder_frames_witness :
  exists enc y,
    Encoder 32 64 = Ok enc /\
    Encoder_forward (SF := Z_scalar) enc (constant_state 1) (zeros [2; 16000])
    = Ok y /\
    shape y = [2; 50; 64].
Proof.
  destruct (@Encoder_frames Z Z_scalar 32 64 16000 [2] (constant_state 1)
              (zeros [2; 16000]))
    as [enc [Henc [Hok _]]];
    try lia; try reflexivity; [unfold batch_lead; simpl; lia |].
  destruct (Hok ltac:(lia)) as [[y [Hy Hsh]] _].
  exists enc, y. split; [exact Henc |]. split; [exact Hy | exact Hsh].
Defined.

(** Against C3 as stated: 321 samples give [floor(321/320) = 1] frame,
    not [ceil(321/320) = 2]. *)
Lemma Encoder_frames_not_ceil :
  exists enc y,
    Encoder 1 1 = Ok enc /\
    Encoder_forward (SF := Z_scalar) enc (constant_state 1) (zeros [321])
    = Ok y /\
    shape y = [1; 1] /\
    ceil_div 321 320 = 2.
Proof.
  exists (encoder_net 1 1).
  destruct (proj1 (call_Ok_shape (SF := Z_scalar) (encoder_net 1 1)
                     (sub (constant_state 1) (Attr "encoder")) (zeros [321])
                     [] [1; 1])
              (@encoder_net_out_shape [] 1 1 321 ltac:(lia) ltac:(lia)
                 ltac:(unfold batch_lead; simpl; lia)
                 ltac:(lia))) as [y [Hy Hsh]].
  exists y. split; [reflexivity |]. split; [exact Hy |].
  split; [exact Hsh | reflexivity].
Qed.

(** C4 at work: 50 frames decode to [50 * 320 = 16000] samples. *)
Lemma Decoder_samples_witness :
  exists dec y,
    Decoder 32 64 64 = Ok dec /\
    Decoder_forward (SF := Z_scalar) dec (constant_state 1)
      (zeros [2; 50; 64]) (zeros [2; 64]) = Ok y /\
    shape y = [2; 16000].
Proof.
  destruct (@Decoder_samples Z Z_scalar 32 64 64 50 [2] (constant_state 1)
              (zeros [2; 50; 64]) (zeros [2; 64]))
    as [dec [Hdec [Hok _]]];
    try lia; try reflexivity.
  destruct Hok as [y [Hy Hsh]]; [unfold batch_lead; simpl; lia | lia |].
  exists dec, y. split; [exact Hdec |]. split; [exact Hy | exact Hsh].
Defined.

(** Against C4 as stated: an embedding sequence without frames does not
    decode to a waveform of [0 * 320 = 0] samples; the first convolution
    refuses it. *)
Lemma Decoder_no_frames :
  exists dec,
    Decoder 32 64 64 = Ok dec /\
    Decoder_forward (SF := Z_scalar) dec (constant_state 1)
      (zeros [2; 0; 64]) (zeros [2; 64]) = Raise RuntimeError.
Proof.
  exists (decoder_net 32 64 64). split; [reflexivity |].
  unfold Decoder_forward. apply call_Raise_shape.
  apply (@decoder_net_no_frames [2] 32 64 64 [2; 64]).
  unfold batch_lead. simpl. lia.
Qed.

(** C5 at work: kernel 16, stride 8 on 50 frames gives 400 samples. *)
Lemma CausalConvTranspose1d_output_length_witness :
  exists m y,
    CausalConvTranspose1d 4 2 16 [("stride", PyInt 8); ("dilation", PyInt 1)]
    = Ok m /\
    call (SF := Z_scalar) m (constant_state 1) (arange [2; 4; 50]) [] = Ok y /\
    shape y = [2; 2; 400].
Proof.
  destruct (@CausalConvTranspose1d_output_length Z Z_scalar 4 2 16 8 1 50 [2]
              (constant_state 1) (arange [2; 4; 50]))
    as [m [Hm [[y [Hy Hsh]] _]]];
    try lia; try reflexivity; [unfold batch_lead; simpl; lia |].
  exists m, y. split; [exact Hm |]. split; [exact Hy | exact Hsh].
Defined.

(** Against C5 as stated: with kernel 2, stride 1, dilation 2 and [T = 3]
    the output has 3 samples, while [(T-1)*stride + kernel_size -
    causal_trim] is 2. *)
Lemma CausalConvTranspose1d_dilated_length :
  exists m y,
    CausalConvTranspose1d 1 1 2 [("dilation", PyInt 2)] = Ok m /\
    call (SF := Z_scalar) m (constant_state 1) (arange [1; 1; 3]) [] = Ok y /\
    shape y = [1; 1; 3] /\
    (3 - 1) * 1 + 2 - (2 * (2 - 1) - (1 - 1)) = 2.
Proof.
  exists (causal_conv_transpose 1 1 2 1 2).
  destruct (proj1 (call_Ok_shape (SF := Z_scalar) (causal_conv_transpose 1 1 2 1 2)
                     (constant_state 1) (arange [1; 1; 3]) [] [1; 1; 3])
              eq_refl) as [y [Hy Hsh]].
  exists y. split; [reflexivity |]. split; [exact Hy |].
  split; [exact Hsh | reflexivity].
Qed.

(** C6 at the failing input: a batch of 2 sequences of 10 frames of
    width 64. *)
Lemma LearnablePooling_batch_raises :
  exists pool,
    LearnablePooling 64 = Ok pool /\
    LearnablePooling_forward (SF := Z_scalar) pool (constant_state 1)
      (zeros [2; 10; 64]) = Raise AssertionError.
Proof.
  eexists. split; reflexivity.
Qed.

(** Against C7 as stated: [CausalConv1d(1, 1, 3, padding_mode='bogus')]
    is constructed, and the error comes from the forward call. *)
Lemma CausalConv1d_bad_mode_constructs :
  exists m,
    CausalConv1d 1 1 3 [("padding_mode", PyStr "bogus")] = Ok m /\
    call (SF := Z_scalar) m (constant_state 1) (arange [1; 1; 8]) []
    = Raise NotImplementedError.
Proof.
  eexists. split; [reflexivity |]. reflexivity.
Qed.



(** C9 at work: [ResidualUnit(4, dilation=3)] on a [(2, 4, 10)] input. *)
Lemma ResidualUnit_shape_safe_witness :
  exists m y,
    ResidualUnit 4 3 7 [] = Ok m /\
    call (SF := Z_scalar) m (constant_state 1) (arange [2; 4; 10]) [] = Ok y /\
    shape y = [2; 4; 10].
Proof.
  destruct (@ResidualUnit_shape_safe Z Z_scalar 4 3 7 10 [2]
              (constant_state 1) (arange [2; 4; 10]))
    as [c1 [c2 [Hm [_ [_ [_ [[y [Hy Hsh]] _]]]]]]];
    try lia; try reflexivity; [unfold batch_lead; simpl; lia |].
  exists (Residual (Sequential [c1; ELU; c2; ELU])), y.
  split; [exact Hm |]. split; [exact Hy | exact Hsh].
Defined.

(** C10 at work: kernel 1, stride 1, dilation 1 on 5 samples gives an
    empty time axis. *)
Lemma CausalConvTranspose1d_zero_trim_witness :
  exists m y,
    CausalConvTranspose1d 1 1 1 [("stride", PyInt 1); ("dilation", PyInt 1)]
    = Ok m /\
    call (SF := Z_scalar) m (constant_state 1) (arange [1; 1; 5]) [] = Ok y /\
    shape y = [1; 1; 0].
Proof.
  destruct (@CausalConvTranspose1d_zero_trim_empty Z Z_scalar 1 1 1 1 1 5 [1]
              (constant_state 1) (arange [1; 1; 5]))
    as [m [Hm [y [Hy Hsh]]]];
    try lia; try reflexivity; [unfold batch_lead; simpl; lia |].
  exists m, y. split; [exact Hm |]. split; [exact Hy | exact Hsh].
Defined.

(* ================================================================= *)
(** * Further properties *)

(** ** The blocks and the round trip *)

Lemma residual_unit_short (lead : dims) (ch d k T : Z) :
  batch_lead lead -> 1 <= k -> 1 <= d -> T < 1 ->
  out_shape (residual_unit ch d k) (lead ++ [ch; T]) [] = Raise RuntimeError.
Proof.
  intros Hl Hk Hd HT. unfold residual_unit.
  rewrite out_shape_Residual, out_shape_Sequential.
  rewrite shape_each_cons, causal_conv_short by (assumption || lia).
  reflexivity.
Qed.

Section BlockTheorems.

Context {F : Type} {SF : Scalar F}.

(** X1.  [EncoderBlock(in_channels, out_channels, stride)] with at least
    one input and one output channel divides the
    time axis by its stride, rounding down: a signal of shape
    [(.., in_channels, T)] with [T >= stride] comes out with shape
    [(.., out_channels, floor(T / stride))], and a shorter signal is
    refused with a [RuntimeError]. *)
Theorem EncoderBlock_frames
  (cin cout s T : Z) (lead : dims) (sd : state_dict F) (x : tensor F) :
  1 <= cin -> 1 <= cout -> 1 <= s -> batch_lead lead ->
  shape x = lead ++ [cin; T] ->
  exists blk,
    EncoderBlock cin cout s = Ok blk /\
    (s <= T ->
       exists y, call blk sd x [] = Ok y /\ shape y = lead ++ [cout; T / s]) /\
    (T < s -> call blk sd x [] = Raise RuntimeError).
Proof.
  intros Hi Ho Hs Hl Hx. exists (encoder_block cin cout s).
  split; [apply EncoderBlock_plain; lia |]. split.
  - intros HT. apply call_Ok_shape. simpl map. rewrite Hx.
    apply encoder_block_out_shape; assumption.
  - intros HT. apply call_Raise_shape. simpl map. rewrite Hx.
    destruct (Z.lt_ge_cases T 1) as [H1|H1].
    + unfold encoder_block. rewrite out_shape_Sequential.
      rewrite shape_each_cons, residual_unit_short by (assumption || lia).
      reflexivity.
    + apply encoder_block_short; (assumption || lia).
Qed.

(** X2.  [DecoderBlock(in_channels, out_channels, stride)] with at least
    one input and one output channel multiplies the
    time axis by its stride: a signal of shape [(.., in_channels, T)] with
    [T >= 1] comes out with shape [(.., out_channels, T * stride)]. *)
Theorem DecoderBlock_samples
  (cin cout s T : Z) (lead : dims) (sd : state_dict F) (x : tensor F) :
  1 <= cin -> 1 <= cout -> 1 <= s -> batch_lead lead ->
  shape x = lead ++ [cin; T] -> 1 <= T ->
  exists blk,
    DecoderBlock cin cout s = Ok blk /\
    exists y, call blk sd x [] = Ok y /\ shape y = lead ++ [cout; T * s].
Proof.
  intros Hi Ho Hs Hl Hx HT. exists (decoder_block cin cout s).
  split; [apply DecoderBlock_plain; lia |].
  apply call_Ok_shape. simpl map. rewrite Hx.
  apply decoder_block_out_shape; assumption.
Qed.

(** X3.  Decoding what the Encoder produced gives back
    [320 * floor(samples / 320)] samples: never more than went in, fewer
    than 320 less, and exactly as many when 320 divides the number of
    samples. *)
Theorem Decoder_after_Encoder
  (scale ed cd T : Z) (lead : dims) (sde sdd : state_dict F)
  (x c : tensor F) :
  1 <= scale -> 1 <= ed -> 1 <= cd -> batch_lead lead ->
  shape x = lead ++ [T] -> shape c = lead ++ [cd] -> 320 <= T ->
  exists enc dec e y,
    Encoder scale ed = Ok enc /\ Decoder scale ed cd = Ok dec /\
    Encoder_forward enc sde x = Ok e /\
    Decoder_forward dec sdd e c = Ok y /\
    shape y = lead ++ [320 * (T / 320)] /\
    T - 320 < 320 * (T / 320) <= T /\
    (320 * (T / 320) = T <-> T mod 320 = 0).
Proof.
  intros Hs He Hc Hl Hx Hcs HT.
  destruct (proj1 (call_Ok_shape (encoder_net scale ed)
                     (sub sde (Attr "encoder")) x [] (lead ++ [T / 320; ed])))
    as [e [Hcall Hse]].
  { simpl map. rewrite Hx. apply encoder_net_out_shape; assumption. }
  assert (Hn : 1 <= T / 320) by (apply Z.div_le_lower_bound; lia).
  destruct (proj1 (call_Ok_shape (decoder_net scale ed cd)
                     (sub sdd (Attr "decoder")) e [c]
                     (lead ++ [T / 320 * 320])))
    as [y [Hcally Hsy]].
  { simpl map. rewrite Hse, Hcs. apply decoder_net_out_shape; assumption. }
  exists (encoder_net scale ed), (decoder_net scale ed cd), e, y.
  split; [apply Encoder_plain; lia |].
  split; [apply Decoder_plain; lia |].
  split; [exact Hcall |]. split; [exact Hcally |].
  split; [rewrite Hsy, Z.mul_comm; reflexivity |].
  pose proof (Z.div_mod T 320 ltac:(lia)) as Hdm.
  pose proof (Z.mod_pos_bound T 320 ltac:(lia)) as Hmb.
  split; [lia |]. split; lia.
Qed.

(** X4.  What the Decoder refuses: an embedding sequence without frames,
    frames whose width is not [embedding_dim], and a conditioning vector
    whose width is not [conditioning_dim] each end in a [RuntimeError]. *)
Theorem Decoder_refuses
  (scale ed cd : Z) (lead : dims) (sd : state_dict F) (x c : tensor F) :
  1 <= scale -> 1 <= ed -> 1 <= cd -> batch_lead lead ->
  exists dec,
    Decoder scale ed cd = Ok dec /\
    (shape x = lead ++ [0; ed] ->
       Decoder_forward dec sd x c = Raise RuntimeError) /\
    (forall n e, e <> ed -> shape x = lead ++ [n; e] ->
       Decoder_forward dec sd x c = Raise RuntimeError) /\
    (forall n w, 1 <= n -> w <> cd ->
       shape x = lead ++ [n; ed] -> shape c = lead ++ [w] ->
       Decoder_forward dec sd x c = Raise RuntimeError).
Proof.
  intros Hs He Hc Hl. exists (decoder_net scale ed cd).
  split; [apply Decoder_plain; lia |]. unfold Decoder_forward.
  split; [| split].
  - intros Hx. apply call_Raise_shape. simpl map. rewrite Hx.
    unfold decoder_net. rewrite out_shape_SequentialWithFiLM.
    rewrite shape_each_film_plain, out_shape_Rearrange, rearrange_swap
      by (reflexivity || apply batch_lead_rank; assumption).
    cbn [bind].
    rewrite shape_each_film_plain, causal_conv_short
      by (reflexivity || assumption || lia).
    reflexivity.
  - intros n e Hne Hx. apply call_Raise_shape. simpl map. rewrite Hx.
    unfold decoder_net. rewrite out_shape_SequentialWithFiLM.
    rewrite shape_each_film_plain, out_shape_Rearrange, rearrange_swap
      by (reflexivity || apply batch_lead_rank; assumption).
    cbn [bind].
    rewrite shape_each_film_plain, causal_conv_wrong_channels
      by (reflexivity || assumption).
    reflexivity.
  - intros n w Hn Hw Hx Hcs. apply call_Raise_shape. simpl map.
    rewrite Hx, Hcs.
    unfold decoder_net. rewrite out_shape_SequentialWithFiLM.
    rewrite shape_each_film_plain, out_shape_Rearrange, rearrange_swap
      by (reflexivity || apply batch_lead_rank; assumption).
    cbn [bind].
    rewrite shape_each_film_plain, causal_conv_out_shape
      by (reflexivity || assumption || lia).
    cbn [bind]. rewrite Z.div_1_r.
    rewrite shape_each_film_plain, out_shape_ELU by reflexivity. cbn [bind].
    rewrite shape_each_film_plain, decoder_block_out_shape
      by (reflexivity || assumption || lia).
    cbn [bind]. rewrite shape_each_film_film.
    unfold film at 1. cbn [out_shape]. unfold FiLM_shape, linear_shape.
    rewrite rev_app_distr. cbn [rev app in_features].
    assert (Hw' : (w =? cd) = false) by (apply Z.eqb_neq; exact Hw).
    rewrite Hw'. reflexivity.
Qed.

End BlockTheorems.

(** ** Conditioning: [SequentialWithFiLM] and [FiLM] *)

(** The index a per-channel value of shape [(.., dim, 1)] is read at. *)
Lemma broadcast_index_channel (lead : dims) (dim : Z) (il : index) (ch t : Z) :
  in_range lead il -> 0 <= ch < dim ->
  broadcast_index (lead ++ [dim; 1]) (il ++ [ch; t]) = il ++ [ch; 0].
Proof.
  intros Hil Hch. unfold broadcast_index.
  rewrite !rev_app_distr. cbn [rev app broadcast_index_rev Z.eqb Pos.eqb].
  rewrite broadcast_index_rev_id by (apply in_range_rev; exact Hil).
  cbn [rev]. rewrite rev_involutive, <- !app_assoc. cbn [app].
  destruct (Z.eqb_spec dim 1) as [->|_]; [| reflexivity].
  replace ch with 0 by lia. reflexivity.
Qed.

Lemma broadcast_single_channel (lead : dims) (dim T : Z) :
  broadcast_shapes (lead ++ [1; T]) (lead ++ [dim; 1]) = Ok (lead ++ [dim; T]).
Proof.
  unfold broadcast_shapes. rewrite !rev_app_distr. cbn [rev app broadcast_rev].
  rewrite broadcast_rev_same. cbn [bind].
  destruct (Z.eqb_spec 1 dim) as [<-|Hd]; cbn [bind Z.eqb Pos.eqb];
    destruct (Z.eqb_spec T 1) as [->|HT]; cbn [bind rev Z.eqb Pos.eqb];
    rewrite rev_involutive, <- !app_assoc; reflexivity.
Qed.

Lemma broadcast_channel_mismatch (lead : dims) (C dim T : Z) :
  C <> dim -> C <> 1 -> dim <> 1 ->
  broadcast_shapes (lead ++ [C; T]) (lead ++ [dim; 1]) = Raise RuntimeError.
Proof.
  intros H1 H2 H3. unfold broadcast_shapes.
  rewrite !rev_app_distr. cbn [rev app broadcast_rev].
  rewrite broadcast_rev_same. cbn [bind].
  destruct (Z.eqb_spec C dim) as [|_]; [contradiction |].
  destruct (Z.eqb_spec C 1) as [|_]; [contradiction |].
  destruct (Z.eqb_spec dim 1) as [|_]; [contradiction |].
  reflexivity.
Qed.

Section Conditioning.

Context {F : Type} {SF : Scalar F}.

Lemma call_each_film_plain (sd : state_dict F) (c : tensor F)
  (ms : list module) :
  forallb (fun m => negb (isinstance_FiLM m)) ms = true ->
  forall (i : nat) (x : tensor F),
    call_each_film sd c ms i x = call_each sd ms i x.
Proof.
  induction ms as [|m ms IH]; intros Hms i x; [reflexivity |].
  cbn [forallb] in Hms. apply andb_prop in Hms. destruct Hms as [Hm Hms].
  cbn [call_each_film call_each].
  destruct (isinstance_FiLM m); [discriminate |].
  destruct (call m (sub sd (Idx i)) x []) as [y|e]; [| reflexivity].
  cbn [bind]. apply IH. exact Hms.
Qed.

(** X5.  [SequentialWithFiLM] hands the condition to its direct children
    of class [FiLM] and to nothing else.  Without such a child it behaves
    as [nn.Sequential] and the condition is ignored; a [FiLM] wrapped in a
    [Residual] or sitting inside a nested [nn.Sequential] is called
    without the condition, which is a [TypeError]. *)
Theorem SequentialWithFiLM_dispatch (sd : state_dict F) (x c : tensor F) :
  (forall ms,
      forallb (fun m => negb (isinstance_FiLM m)) ms = true ->
      call (SequentialWithFiLM_obj ms) sd x [c] = call (Sequential ms) sd x []) /\
  (forall g b rest,
      call (SequentialWithFiLM_obj (Residual_obj (FiLM_obj g b) :: rest))
        sd x [c] = Raise TypeError) /\
  (forall g b inner rest,
      call (SequentialWithFiLM_obj (Sequential (FiLM_obj g b :: inner) :: rest))
        sd x [c] = Raise TypeError).
Proof.
  split; [| split].
  - intros ms Hms. rewrite call_SequentialWithFiLM, call_Sequential.
    apply call_each_film_plain. exact Hms.
  - intros g b rest. reflexivity.
  - intros g b inner rest. reflexivity.
Qed.

(** The elements of the output of [FiLM.forward] on a channel-major signal. *)
Lemma film_call_data (dim cd T : Z) (lead : dims) (sd : state_dict F)
  (x c y : tensor F) :
  shape x = lead ++ [dim; T] -> shape c = lead ++ [cd] ->
  call (film dim cd) sd x [c] = Ok y ->
  exists g b,
    nn_Linear_forward (mkLinear cd dim) (sub sd (Attr "to_gamma")) c = Ok g /\
    nn_Linear_forward (mkLinear cd dim) (sub sd (Attr "to_beta")) c = Ok b /\
    shape g = lead ++ [dim] /\ shape b = lead ++ [dim] /\
    shape y = lead ++ [dim; T] /\
    forall il ch t, in_range lead il -> 0 <= ch < dim -> 0 <= t < T ->
      data y (il ++ [ch; t])
      = fadd (fmul (data x (il ++ [ch; t])) (data g (il ++ [ch])))
             (data b (il ++ [ch])).
Proof.
  intros Hx Hc Hy.
  assert (Hsy : shape y = lead ++ [dim; T]).
  { pose proof (proj2 (call_Ok_shape (film dim cd) sd x [c] (shape y))
                  (ex_intro _ y (conj Hy eq_refl))) as Hs.
    simpl map in Hs. rewrite Hx, Hc, film_out_shape in Hs.
    injection Hs as <-. reflexivity. }
  unfold film in Hy. cbn [call] in Hy. unfold FiLM_forward in Hy.
  apply bind_Ok in Hy. destruct Hy as [g [Hg Hy]].
  apply bind_Ok in Hy. destruct Hy as [b [Hb Hy]].
  apply bind_Ok in Hy. destruct Hy as [scaled [Hsc Hy]].
  assert (Hlin : forall (sd' : state_dict F) r,
            nn_Linear_forward (mkLinear cd dim) sd' c = Ok r ->
            shape r = lead ++ [dim]).
  { intros sd' r Hr. unfold nn_Linear_forward, with_shape in Hr.
    pose proof (linear_out_shape (mkLinear cd dim) lead) as Hlin.
    cbn [in_features out_features] in Hlin. rewrite Hc, Hlin in Hr.
    cbn [bind] in Hr. injection Hr as <-. reflexivity. }
  pose proof (Hlin _ _ Hg) as Hsg. pose proof (Hlin _ _ Hb) as Hsb.
  apply broadcast_Ok in Hsc. destruct Hsc as [Hssh Hsd].
  apply broadcast_Ok in Hy. destruct Hy as [_ Hyd].
  cbn [unsqueeze_last shape] in Hssh, Hsd, Hyd.
  rewrite Hx, Hsg, <- app_assoc in Hssh. cbn [app] in Hssh.
  rewrite broadcast_over_time in Hssh. injection Hssh as Hssh.
  exists g, b. repeat (split; [assumption |]).
  intros il ch t Hil Hch Ht.
  assert (Hin : in_range (lead ++ [dim; T]) (il ++ [ch; t]))
    by (apply in_range_two_intro; assumption).
  rewrite Hyd, Hsd. cbn [data]. rewrite <- Hssh, Hx, Hsg, Hsb.
  rewrite <- !app_assoc. cbn [app].
  rewrite !(@broadcast_index_id _ _ Hin).
  rewrite (@broadcast_index_channel lead dim il ch t Hil Hch).
  cbn [unsqueeze_last data].
  change (il ++ [ch; 0]) with (il ++ [ch] ++ [0]).
  rewrite app_assoc, removelast_last. reflexivity.
Qed.

(** X6.  How [FiLM(dim, conditioning_dim)] treats the shapes it is given:
    a signal with [dim] channels keeps its shape; a signal with a single
    channel is silently expanded to [dim] channels by broadcasting; any
    other channel count is a [RuntimeError] (for [dim <> 1]), and so is a
    condition whose width is not [conditioning_dim]. *)
Theorem FiLM_shapes
  (dim cd T : Z) (lead : dims) (sd : state_dict F) (x c : tensor F) :
  0 <= dim -> 0 <= cd ->
  exists m,
    FiLM dim cd = Ok m /\
    (shape x = lead ++ [dim; T] -> shape c = lead ++ [cd] ->
       exists y, call m sd x [c] = Ok y /\ shape y = lead ++ [dim; T]) /\
    (shape x = lead ++ [1; T] -> shape c = lead ++ [cd] ->
       exists y, call m sd x [c] = Ok y /\ shape y = lead ++ [dim; T]) /\
    (forall C, C <> dim -> C <> 1 -> dim <> 1 ->
       shape x = lead ++ [C; T] -> shape c = lead ++ [cd] ->
       call m sd x [c] = Raise RuntimeError) /\
    (forall w, w <> cd -> shape c = lead ++ [w] ->
       call m sd x [c] = Raise RuntimeError).
Proof.
  intros Hd Hc. exists (film dim cd).
  split; [apply FiLM_plain; assumption |].
  pose proof (linear_out_shape (mkLinear cd dim) lead) as Hlin.
  cbn [in_features out_features] in Hlin.
  split; [| split; [| split]].
  - intros Hx Hcs. apply call_Ok_shape. simpl map. rewrite Hx, Hcs.
    apply film_out_shape.
  - intros Hx Hcs. apply call_Ok_shape. simpl map. rewrite Hx, Hcs.
    unfold film. cbn [out_shape]. unfold FiLM_shape. rewrite Hlin.
    cbn [bind]. rewrite <- !app_assoc. cbn [app].
    rewrite broadcast_single_channel. cbn [bind]. apply broadcast_over_time.
  - intros C H1 H2 H3 Hx Hcs. apply call_Raise_shape. simpl map.
    rewrite Hx, Hcs.
    unfold film. cbn [out_shape]. unfold FiLM_shape. rewrite Hlin.
    cbn [bind]. rewrite <- !app_assoc. cbn [app].
    rewrite broadcast_channel_mismatch by assumption. reflexivity.
  - intros w Hw Hcs. apply call_Raise_shape. simpl map. rewrite Hcs.
    unfold film. cbn [out_shape]. unfold FiLM_shape, linear_shape.
    rewrite rev_app_distr. cbn [rev app in_features].
    assert (Hw' : (w =? cd) = false) by (apply Z.eqb_neq; exact Hw).
    rewrite Hw'. reflexivity.
Qed.

(** X7.  [FiLM.forward] is an affine map per channel that does not look at
    the time index: on a signal of shape [(.., dim, T)] with a condition of
    shape [(.., conditioning_dim)], the element at channel [ch] and time
    [t] is [x * gamma + beta], where [gamma] and [beta] are the outputs of
    the two linear layers for channel [ch], the same at every [t]. *)
Theorem FiLM_affine
  (dim cd T : Z) (lead : dims) (sd : state_dict F) (x c : tensor F) :
  0 <= dim -> 0 <= cd ->
  shape x = lead ++ [dim; T] -> shape c = lead ++ [cd] ->
  let to (name : string) (il : index) (ch : Z) :=
    fadd (fsum cd (fun i =>
            fmul (data c (il ++ [i]))
                 (param (sub sd (Attr name)) "weight" [ch; i])))
         (param (sub sd (Attr name)) "bias" [ch]) in
  exists m y,
    FiLM dim cd = Ok m /\ call m sd x [c] = Ok y /\ shape y = shape x /\
    forall il ch t, in_range lead il -> 0 <= ch < dim -> 0 <= t < T ->
      data y (il ++ [ch; t])
      = fadd (fmul (data x (il ++ [ch; t])) (to "to_gamma" il ch))
             (to "to_beta" il ch).
Proof.
  intros Hd Hc Hx Hcs to.
  destruct (proj1 (call_Ok_shape (film dim cd) sd x [c] (lead ++ [dim; T])))
    as [y [Hy Hsy]].
  { simpl map. rewrite Hx, Hcs. apply film_out_shape. }
  exists (film dim cd), y.
  split; [apply FiLM_plain; assumption |]. split; [exact Hy |].
  split; [congruence |].
  destruct (@film_call_data dim cd T lead sd x c y Hx Hcs Hy)
    as [g [b [Hg [Hb [Hsg [Hsb [_ Hdata]]]]]]].
  intros il ch t Hil Hch Ht. rewrite (Hdata il ch t Hil Hch Ht).
  assert (Hin : in_range (lead ++ [dim]) (il ++ [ch]))
    by (apply in_range_app; [exact Hil | simpl; lia]).
  assert (Hlin : forall name r,
            nn_Linear_forward (mkLinear cd dim) (sub sd (Attr name)) c = Ok r ->
            shape r = lead ++ [dim] ->
            data r (il ++ [ch]) = to name il ch).
  { intros name r Hr Hsr. rewrite <- Hsr in Hin.
    destruct (nn_Linear_forward_data _ _ _ Hr _ Hin) as [l' [o [Heq ->]]].
    apply app_inj_tail in Heq. destruct Heq as [<- <-]. reflexivity. }
  rewrite (Hlin _ _ Hg Hsg), (Hlin _ _ Hb Hsb). reflexivity.
Qed.

End Conditioning.

(** ** Causality of the layers and of the Decoder *)

Lemma broadcast_shapes_last (a b : dims) (T : Z) :
  broadcast_shapes (a ++ [T]) (b ++ [1])
  = (r <- broadcast_shapes a b ;; Ok (r ++ [T])).
Proof.
  unfold broadcast_shapes. rewrite !rev_app_distr. cbn [rev app broadcast_rev].
  destruct (broadcast_rev (rev a) (rev b)) as [r|e]; [| reflexivity].
  cbn [bind].
  destruct (Z.eqb_spec T 1) as [->|HT]; cbn [bind rev Z.eqb Pos.eqb];
    reflexivity.
Qed.

Lemma broadcast_index_last (a : dims) (T : Z) (il : index) (i : Z) :
  0 <= i < T ->
  broadcast_index (a ++ [T]) (il ++ [i]) = broadcast_index a il ++ [i].
Proof.
  intros Hi. unfold broadcast_index.
  rewrite !rev_app_distr. cbn [rev app broadcast_index_rev].
  destruct (Z.eqb_spec T 1) as [->|_]; [replace i with 0 by lia |];
    reflexivity.
Qed.

Lemma slice_stop_expand (k s d T n : Z) :
  1 <= s -> 0 < d * (k - 1) - (s - 1) -> n <= T ->
  n * s <= slice_stop (- (d * (k - 1) - (s - 1)))
             ((T - 1) * s + d * (k - 1) + 1).
Proof.
  intros Hs Htrim Hn. unfold slice_stop.
  destruct (Z.ltb_spec (- (d * (k - 1) - (s - 1))) 0); [| lia].
  replace ((T - 1) * s + d * (k - 1) + 1 + - (d * (k - 1) - (s - 1)))
    with (T * s) by ring.
  assert (n * s <= T * s) by (apply Z.mul_le_mono_nonneg_r; lia). lia.
Qed.

(** A tap of a transposed convolution that lands on output sample
    [t < n * s] comes from an input frame below [n]. *)
Lemma tap_source (n s d t i : Z) :
  1 <= s -> 1 <= d -> 0 <= i -> t < n * s -> (t - i * d) / s < n.
Proof.
  intros Hs Hd Hi Ht. apply Z.div_lt_upper_bound; [lia |].
  assert (0 <= i * d) by (apply Z.mul_nonneg_nonneg; lia). lia.
Qed.

Lemma causal_conv_transpose_shape_inv (cin cout k s d : Z) (sh sh' : dims) :
  out_shape (causal_conv_transpose cin cout k s d) sh [] = Ok sh' ->
  exists lead T,
    batch_lead lead /\ sh = lead ++ [cin; T] /\
    sh' = lead ++ [cout; slice_stop (- (d * (k - 1) - (s - 1)))
                           ((T - 1) * s + d * (k - 1) + 1)].
Proof.
  unfold causal_conv_transpose. cbn [out_shape].
  unfold CausalConvTranspose1d_shape. intros H.
  apply bind_Ok in H. destruct H as [out [Hconv Hslice]].
  apply conv_shape_inv in Hconv.
  destruct Hconv as [lead [C [L [r [Hl [-> [Hrule ->]]]]]]].
  apply conv_transpose1d_rule_inv in Hrule.
  destruct Hrule as [-> [_ [_ ->]]]. cbn [fst snd] in Hslice.
  change (lead ++ [cout; (L - 1) * s + d * (k - 1) + 1])
    with (lead ++ [cout] ++ [(L - 1) * s + d * (k - 1) + 1]) in Hslice.
  rewrite app_assoc, slice_last_shape_app, <- app_assoc in Hslice.
  injection Hslice as <-.
  exists lead, L. split; [exact Hl |]. split; reflexivity.
Qed.

Section LayerCausality.

Context {F : Type} {SF : Scalar F}.

(** Agreement on a prefix of a channel-major signal, element by element. *)
Lemma agree_channels (lead : dims) (C Tx Ty n : Z) (x y : tensor F) :
  shape x = lead ++ [C; Tx] -> shape y = lead ++ [C; Ty] ->
  n <= Tx -> n <= Ty ->
  (forall il c i, in_range lead il -> 0 <= c < C -> 0 <= i < n ->
     data x (il ++ [c; i]) = data y (il ++ [c; i])) ->
  agree n x y.
Proof.
  intros Hx Hy Hnx Hny Hd. exists (lead ++ [C]), Tx, Ty.
  rewrite <- !app_assoc. cbn [app].
  repeat (split; [assumption |]).
  intros idx Hidx. apply in_range_two in Hidx.
  destruct Hidx as [il [c [i [-> [Hil [Hc Hi]]]]]]. apply Hd; assumption.
Qed.

Lemma agree_channels_inv (lead : dims) (C T n : Z) (x y : tensor F) :
  agree n x y -> shape x = lead ++ [C; T] ->
  forall il c i, in_range lead il -> 0 <= c < C -> 0 <= i < n ->
    data x (il ++ [c; i]) = data y (il ++ [c; i]).
Proof.
  intros [lead' [Tx [Ty [Hx [_ [_ [_ Hd]]]]]]] Hsx il c i Hil Hc Hi.
  rewrite Hsx in Hx.
  change (lead ++ [C; T]) with (lead ++ [C] ++ [T]) in Hx.
  rewrite app_assoc in Hx. apply app_inj_tail in Hx. destruct Hx as [<- _].
  apply Hd. rewrite <- app_assoc. cbn [app].
  apply in_range_two_intro; assumption.
Qed.

Lemma agree_samples_inv (lead : dims) (T n : Z) (x y : tensor F) :
  agree n x y -> shape x = lead ++ [T] ->
  forall il i, in_range lead il -> 0 <= i < n ->
    data x (il ++ [i]) = data y (il ++ [i]).
Proof.
  intros [lead' [Tx [Ty [Hx [_ [_ [_ Hd]]]]]]] Hsx il i Hil Hi.
  rewrite Hsx in Hx. apply app_inj_tail in Hx. destruct Hx as [<- _].
  apply Hd. apply in_range_app; [exact Hil | simpl; lia].
Qed.

(** X8.  [CausalConv1d] with at least one input and one output channel
    is causal for every kernel size, stride and
    dilation: if two signals hold the same samples on [[0, t]], then every
    output frame [j] with [(j + 1) * stride - 1 <= t] exists in both
    outputs and holds the same elements. *)
Theorem CausalConv1d_causal
  (cin cout k s d : Z) (lead : dims) (Tx Ty t : Z) (sd : state_dict F)
  (x y : tensor F) :
  1 <= cin -> 1 <= cout -> 1 <= k -> 1 <= s -> 1 <= d -> batch_lead lead ->
  shape x = lead ++ [cin; Tx] -> shape y = lead ++ [cin; Ty] ->
  t < Tx -> t < Ty ->
  (forall il c i, in_range lead il -> 0 <= c < cin -> 0 <= i <= t ->
     data x (il ++ [c; i]) = data y (il ++ [c; i])) ->
  forall j, 0 <= j -> (j + 1) * s - 1 <= t ->
  exists m ox oy,
    CausalConv1d cin cout k [("stride", PyInt s); ("dilation", PyInt d)]
    = Ok m /\
    call m sd x [] = Ok ox /\ shape ox = lead ++ [cout; Tx / s] /\
    call m sd y [] = Ok oy /\ shape oy = lead ++ [cout; Ty / s] /\
    j < Tx / s /\ j < Ty / s /\
    forall il co, in_range lead il -> 0 <= co < cout ->
      data ox (il ++ [co; j]) = data oy (il ++ [co; j]).
Proof.
  intros Hi Ho Hk Hs Hd Hl Hx Hy HtX HtY Hsame j Hj Hend.
  assert (Hjs : s <= (j + 1) * s) by nia.
  assert (Hagree : agree (t + 1) x y).
  { apply (@agree_channels lead cin Tx Ty); try assumption; try lia.
    intros il c i Hil Hc Hi'. apply Hsame; [assumption | assumption | lia]. }
  destruct (proj1 (call_Ok_shape (causal_conv cin cout k s d) sd x []
                     (lead ++ [cout; Tx / s]))) as [ox [Hox Hsox]].
  { simpl map. rewrite Hx. apply causal_conv_out_shape; (assumption || lia). }
  destruct (proj1 (call_Ok_shape (causal_conv cin cout k s d) sd y []
                     (lead ++ [cout; Ty / s]))) as [oy [Hoy Hsoy]].
  { simpl map. rewrite Hy. apply causal_conv_out_shape; (assumption || lia). }
  assert (HjN : j < (t + 1) / s).
  { apply Z.lt_le_trans with (j + 1); [lia |].
    apply Z.div_le_lower_bound; lia. }
  exists (causal_conv cin cout k s d), ox, oy.
  split; [apply CausalConv1d_general; lia |].
  split; [exact Hox |]. split; [exact Hsox |].
  split; [exact Hoy |]. split; [exact Hsoy |].
  split; [apply Z.lt_le_trans with ((t + 1) / s);
          [exact HjN | apply Z.div_le_mono; lia] |].
  split; [apply Z.lt_le_trans with ((t + 1) / s);
          [exact HjN | apply Z.div_le_mono; lia] |].
  pose proof (@causal_conv_agree F SF cin cout k s d (t + 1) sd x y ox oy
                Hk Hs Hd Hagree Hox Hoy) as Ha.
  intros il co Hil Hco.
  apply (@agree_channels_inv lead cout (Tx / s) ((t + 1) / s) ox oy Ha Hsox);
    [exact Hil | exact Hco | lia].
Qed.

(** *** The transposed convolution *)

Lemma causal_conv_transpose_call_data (cin cout k s d : Z) (sd : state_dict F)
  (x x' : tensor F) :
  call (causal_conv_transpose cin cout k s d) sd x [] = Ok x' ->
  data x' = conv_transpose1d_data (mkConv1d cin cout k s d 1 true true) sd x.
Proof.
  unfold causal_conv_transpose. cbn [call].
  unfold CausalConvTranspose1d_forward. intros H.
  apply bind_Ok in H. destruct H as [out [Hout Hslice]].
  unfold nn_ConvTranspose1d_forward, with_shape in Hout.
  apply bind_Ok in Hout. destruct Hout as [sh [_ Hout]]. injection Hout as <-.
  unfold slice_last, with_shape in Hslice.
  apply bind_Ok in Hslice. destruct Hslice as [sh' [_ Hslice]].
  injection Hslice as <-. reflexivity.
Qed.

(** The elements a transposed convolution reads for output channel [co]
    at time [t]. *)
Lemma conv_transpose1d_data_at (c : Conv1d) (sd : state_dict F) (x : tensor F)
  (lead : index) (co t : Z) :
  conv_transpose1d_data c sd x (lead ++ [co; t])
  = let cig := in_channels c / groups c in
    let cog := out_channels c / groups c in
    let g := co / cog in
    let acc :=
      fsum cig (fun ci =>
        fsum (kernel_size c) (fun i =>
          let r := t - i * dilation c in
          let j := r / stride c in
          if (r mod stride c =? 0) && (0 <=? j) && (j <? last (shape x) 0)
          then fmul (data x (lead ++ [g * cig + ci; j]))
                    (param sd "weight" [g * cig + ci; co mod cog; i])
          else fzero)) in
    if bias c then fadd acc (param sd "bias" [co]) else acc.
Proof.
  unfold conv_transpose1d_data. rewrite rev_app_distr. cbn [rev app].
  rewrite rev_involutive. cbv zeta.
  assert (Hsum : forall f g : Z -> F, (forall ci, f ci = g ci) ->
            fsum (in_channels c / groups c) f
            = fsum (in_channels c / groups c) g).
  { intros f g Hfg. apply fsum_ext. intros ci _. apply Hfg. }
  match goal with
  | |- (if _ then fadd (fsum _ ?f) _ else _) = (if _ then fadd (fsum _ ?g) _ else _) =>
      rewrite (Hsum f g)
  end.
  - reflexivity.
  - intros ci. apply fsum_ext. intros i _.
    rewrite <- !app_assoc. reflexivity.
Qed.

Lemma causal_conv_transpose_agree (cin cout k s d n : Z) (sd : state_dict F)
  (x y x' y' : tensor F) :
  1 <= k -> 1 <= s -> 1 <= d -> 0 < d * (k - 1) - (s - 1) ->
  agree n x y ->
  call (causal_conv_transpose cin cout k s d) sd x [] = Ok x' ->
  call (causal_conv_transpose cin cout k s d) sd y [] = Ok y' ->
  agree (n * s) x' y'.
Proof.
  intros Hk Hs Hd Htrim [lead [Tx [Ty [Hx [Hy [Hnx [Hny Hdata]]]]]]] Hcx Hcy.
  pose proof (causal_conv_transpose_call_data _ _ _ _ _ _ _ Hcx) as Hdx.
  pose proof (causal_conv_transpose_call_data _ _ _ _ _ _ _ Hcy) as Hdy.
  pose proof (proj2 (call_Ok_shape _ sd x [] (shape x'))
                (ex_intro _ x' (conj Hcx eq_refl))) as Hsx.
  pose proof (proj2 (call_Ok_shape _ sd y [] (shape y'))
                (ex_intro _ y' (conj Hcy eq_refl))) as Hsy.
  simpl map in Hsx, Hsy.
  apply causal_conv_transpose_shape_inv in Hsx.
  apply causal_conv_transpose_shape_inv in Hsy.
  destruct Hsx as [lx [Tx0 [Hlx [Hx0 Hx']]]].
  destruct Hsy as [ly [Ty0 [Hly [Hy0 Hy']]]].
  pose proof Hx as Hshx. pose proof Hy as Hshy.
  rewrite Hx in Hx0. rewrite Hy in Hy0.
  change (lx ++ [cin; Tx0]) with (lx ++ [cin] ++ [Tx0]) in Hx0.
  change (ly ++ [cin; Ty0]) with (ly ++ [cin] ++ [Ty0]) in Hy0.
  rewrite app_assoc in Hx0, Hy0.
  apply app_inj_tail in Hx0. apply app_inj_tail in Hy0.
  destruct Hx0 as [Hlead <-]. destruct Hy0 as [Hlead' <-].
  rewrite Hlead in Hlead'. apply app_inj_tail in Hlead'.
  destruct Hlead' as [<- _]. subst lead.
  eexists (lx ++ [cout]), _, _.
  rewrite <- !app_assoc. cbn [app].
  split; [exact Hx' |]. split; [exact Hy' |].
  split; [apply slice_stop_expand; lia |].
  split; [apply slice_stop_expand; lia |].
  intros idx Hidx. rewrite Hdx, Hdy. clear Hdx Hdy Hcx Hcy Hx' Hy'.
  apply in_range_two in Hidx.
  destruct Hidx as [il [co [t [-> [Hil [Hco Ht]]]]]].
  rewrite !conv_transpose1d_data_at.
  cbn [in_channels out_channels kernel_size stride dilation groups bias].
  cbv zeta. f_equal.
  rewrite Hshx, Hshy, !last_last.
  rewrite !Z.div_1_r, (Z.div_small co cout) by lia.
  apply fsum_ext; intros ci Hci; apply fsum_ext; intros i Hi.
  pose proof (@tap_source n s d t i Hs Hd ltac:(lia) ltac:(lia)) as Hsrc.
  destruct (Z.eqb_spec ((t - i * d) mod s) 0) as [_|_]; [| reflexivity].
  destruct (Z.leb_spec 0 ((t - i * d) / s)) as [Hj0|_]; [| reflexivity].
  cbn [andb].
  destruct (Z.ltb_spec ((t - i * d) / s) Tx) as [_|Hbad]; [| lia].
  destruct (Z.ltb_spec ((t - i * d) / s) Ty) as [_|Hbad]; [| lia].
  f_equal. apply Hdata. rewrite <- !app_assoc. cbn [app].
  apply in_range_two_intro; [exact Hil | lia | lia].
Qed.

(** X9.  [CausalConvTranspose1d] with at least one input and one output
    channel is causal: with a positive trim, if two
    signals hold the same frames [0 .. j], then the output samples
    [0 .. (j + 1) * stride - 1] exist in both outputs and are the same. *)
Theorem CausalConvTranspose1d_causal
  (cin cout k s d : Z) (lead : dims) (Tx Ty j : Z) (sd : state_dict F)
  (x y : tensor F) :
  1 <= cin -> 1 <= cout -> 1 <= k -> 1 <= s -> 1 <= d ->
  0 < d * (k - 1) - (s - 1) -> batch_lead lead ->
  shape x = lead ++ [cin; Tx] -> shape y = lead ++ [cin; Ty] ->
  0 <= j -> j < Tx -> j < Ty ->
  (forall il c i, in_range lead il -> 0 <= c < cin -> 0 <= i <= j ->
     data x (il ++ [c; i]) = data y (il ++ [c; i])) ->
  exists m ox oy,
    CausalConvTranspose1d cin cout k
      [("stride", PyInt s); ("dilation", PyInt d)] = Ok m /\
    call m sd x [] = Ok ox /\ shape ox = lead ++ [cout; Tx * s] /\
    call m sd y [] = Ok oy /\ shape oy = lead ++ [cout; Ty * s] /\
    (j + 1) * s <= Tx * s /\ (j + 1) * s <= Ty * s /\
    forall il co t, in_range lead il -> 0 <= co < cout ->
      0 <= t < (j + 1) * s ->
      data ox (il ++ [co; t]) = data oy (il ++ [co; t]).
Proof.
  intros Hi Ho Hk Hs Hd Htrim Hl Hx Hy Hj HjX HjY Hsame.
  assert (Hagree : agree (j + 1) x y).
  { apply (@agree_channels lead cin Tx Ty); try assumption; try lia.
    intros il c i Hil Hc Hi'. apply Hsame; [assumption | assumption | lia]. }
  destruct (proj1 (call_Ok_shape (causal_conv_transpose cin cout k s d) sd x []
                     (lead ++ [cout; Tx * s]))) as [ox [Hox Hsox]].
  { simpl map. rewrite Hx.
    rewrite causal_conv_transpose_out_shape by (assumption || lia).
    rewrite slice_stop_trim by (assumption || lia). reflexivity. }
  destruct (proj1 (call_Ok_shape (causal_conv_transpose cin cout k s d) sd y []
                     (lead ++ [cout; Ty * s]))) as [oy [Hoy Hsoy]].
  { simpl map. rewrite Hy.
    rewrite causal_conv_transpose_out_shape by (assumption || lia).
    rewrite slice_stop_trim by (assumption || lia). reflexivity. }
  exists (causal_conv_transpose cin cout k s d), ox, oy.
  split; [apply CausalConvTranspose1d_general; lia |].
  split; [exact Hox |]. split; [exact Hsox |].
  split; [exact Hoy |]. split; [exact Hsoy |].
  split; [apply Z.mul_le_mono_nonneg_r; lia |].
  split; [apply Z.mul_le_mono_nonneg_r; lia |].
  pose proof (@causal_conv_transpose_agree cin cout k s d (j + 1) sd x y ox oy
                Hk Hs Hd Htrim Hagree Hox Hoy) as Ha.
  intros il co t Hil Hco Ht.
  apply (@agree_channels_inv lead cout (Tx * s) ((j + 1) * s) ox oy Ha Hsox);
    assumption.
Qed.

End LayerCausality.

(** *** The Decoder *)

Lemma rearrange_drop_channel_inv (sh sh' : dims) :
  rearrange_shape drop_channel_axis sh = Ok sh' ->
  exists lead T, sh = lead ++ [1; T] /\ sh' = lead ++ [T].
Proof.
  unfold rearrange_shape. intros H.
  apply bind_Ok in H. destruct H as [_ [_ H]].
  destruct (rev sh) as [|T [|m l]] eqn:E; try discriminate.
  destruct (Z.eqb_spec m 1) as [->|]; [| discriminate].
  cbn [require bind] in H. injection H as <-.
  exists (rev l), T. split; [| reflexivity].
  rewrite <- (rev_involutive sh), E. cbn [rev].
  rewrite <- app_assoc. reflexivity.
Qed.

Lemma decoder_net_core (scale ed cd : Z) :
  decoder_net scale ed cd
  = SequentialWithFiLM_obj
      (Rearrange swap_last_axes :: decoder_core scale ed cd).
Proof. reflexivity. Qed.

Section DecoderCausality.

Context {F : Type} {SF : Scalar F}.

Lemma expands_of_causal (m : module) :
  causal_at (F := F) 1 m -> expands_at (F := F) 1 m [].
Proof.
  intros Hm sd x y x' y' n Ha Hx Hy. rewrite Z.mul_1_r.
  rewrite <- (Z.div_1_r n). eapply Hm; eassumption.
Qed.

Lemma expands_at_conv_transpose (cin cout k s d : Z) :
  1 <= k -> 1 <= s -> 1 <= d -> 0 < d * (k - 1) - (s - 1) ->
  expands_at (F := F) s (causal_conv_transpose cin cout k s d) [].
Proof.
  intros Hk Hs Hd Htrim sd x y x' y' n Ha Hx Hy.
  eapply causal_conv_transpose_agree;
    [exact Hk | exact Hs | exact Hd | exact Htrim | exact Ha | exact Hx
    | exact Hy].
Qed.

Lemma expands_each_nil : expands_each (F := F) 1 [].
Proof.
  intros sd i x y x' y' n Ha Hx Hy. cbn [call_each] in Hx, Hy.
  injection Hx as <-. injection Hy as <-. rewrite Z.mul_1_r. exact Ha.
Qed.

Lemma expands_each_cons (s1 s2 : Z) (m : module) (ms : list module) :
  expands_at (F := F) s1 m [] -> expands_each (F := F) s2 ms ->
  expands_each (F := F) (s1 * s2) (m :: ms).
Proof.
  intros Hm Hms sd i x y x' y' n Ha Hx Hy.
  cbn [call_each] in Hx, Hy.
  apply bind_Ok in Hx. destruct Hx as [x1 [Hx1 Hx]].
  apply bind_Ok in Hy. destruct Hy as [y1 [Hy1 Hy]].
  rewrite Z.mul_assoc.
  eapply Hms; [| exact Hx | exact Hy].
  eapply Hm; eassumption.
Qed.

Lemma expands_at_Sequential (s : Z) (ms : list module) :
  expands_each (F := F) s ms -> expands_at (F := F) s (Sequential ms) [].
Proof.
  intros Hms sd x y x' y' n Ha Hx Hy.
  rewrite call_Sequential in Hx, Hy. eapply Hms; eassumption.
Qed.

Lemma expands_at_decoder_block (cin cout s : Z) :
  1 <= s -> expands_at (F := F) s (decoder_block cin cout s) [].
Proof.
  intros Hs. unfold decoder_block. apply expands_at_Sequential.
  replace s with (s * (1 * (1 * (1 * 1)))) at 1 by ring.
  repeat apply expands_each_cons; try apply expands_each_nil;
    try (apply expands_of_causal; apply causal_at_residual_unit; lia).
  apply expands_at_conv_transpose; lia.
Qed.

(** [FiLM] works on each time step by itself, whatever the shapes. *)
Lemma expands_at_FiLM (g b : Linear) (c : tensor F) :
  expands_at 1 (FiLM_obj g b) [c].
Proof.
  intros sd x y x' y' n [lead [Tx [Ty [Hx [Hy [Hnx [Hny Hd]]]]]]] Hcx Hcy.
  cbn [call] in Hcx, Hcy. unfold FiLM_forward in Hcx, Hcy.
  apply bind_Ok in Hcx. destruct Hcx as [gv [Hg Hcx]].
  apply bind_Ok in Hcx. destruct Hcx as [bv [Hb Hcx]].
  rewrite Hg, Hb in Hcy. cbn [bind] in Hcy.
  apply bind_Ok in Hcx. destruct Hcx as [sx [Hsx Hcx]].
  apply bind_Ok in Hcy. destruct Hcy as [sy [Hsy Hcy]].
  apply broadcast_Ok in Hsx. destruct Hsx as [Hsxs Hsxd].
  apply broadcast_Ok in Hsy. destruct Hsy as [Hsys Hsyd].
  apply broadcast_Ok in Hcx. destruct Hcx as [Hxs Hxd].
  apply broadcast_Ok in Hcy. destruct Hcy as [Hys Hyd].
  cbn [unsqueeze_last shape] in Hsxs, Hsys, Hxs, Hys, Hsxd, Hsyd, Hxd, Hyd.
  rewrite Hx, broadcast_shapes_last in Hsxs.
  rewrite Hy, broadcast_shapes_last in Hsys.
  apply bind_Ok in Hsxs. destruct Hsxs as [r [Hr Hsxs]].
  rewrite Hr in Hsys. cbn [bind] in Hsys.
  injection Hsxs as Hsxs. injection Hsys as Hsys.
  rewrite <- Hsxs, broadcast_shapes_last in Hxs.
  rewrite <- Hsys, broadcast_shapes_last in Hys.
  apply bind_Ok in Hxs. destruct Hxs as [r2 [Hr2 Hxs]].
  rewrite Hr2 in Hys. cbn [bind] in Hys.
  injection Hxs as Hxs. injection Hys as Hys.
  rewrite Z.mul_1_r. exists r2, Tx, Ty.
  split; [symmetry; exact Hxs |]. split; [symmetry; exact Hys |].
  split; [exact Hnx |]. split; [exact Hny |].
  intros idx Hidx. apply in_range_app_inv in Hidx.
  destruct Hidx as [il [jl [-> [Hil Hjl]]]].
  apply in_range_singleton in Hjl. destruct Hjl as [i [-> Hi]].
  rewrite Hxd, Hyd, Hsxd, Hsyd, <- Hsxs, <- Hsys, Hx, Hy.
  rewrite (@broadcast_index_last r Tx il i), (@broadcast_index_last r Ty il i)
    by lia.
  rewrite (@broadcast_index_last lead Tx (broadcast_index r il) i),
    (@broadcast_index_last lead Ty (broadcast_index r il) i) by lia.
  f_equal. f_equal. apply Hd.
  apply in_range_app; [| simpl; lia].
  eapply broadcast_index_l; [exact Hr |].
  eapply broadcast_index_l; [exact Hr2 | exact Hil].
Qed.

Lemma expands_at_drop_channel :
  expands_at (F := F) 1 (Rearrange drop_channel_axis) [].
Proof.
  intros sd x y x' y' n [lead [Tx [Ty [Hx [Hy [Hnx [Hny Hd]]]]]]] Hcx Hcy.
  cbn [call] in Hcx, Hcy. unfold Rearrange_forward, with_shape in Hcx, Hcy.
  apply bind_Ok in Hcx. destruct Hcx as [shx [Hshx Hcx]].
  apply bind_Ok in Hcy. destruct Hcy as [shy [Hshy Hcy]].
  injection Hcx as <-. injection Hcy as <-.
  apply rearrange_drop_channel_inv in Hshx, Hshy.
  destruct Hshx as [lx [Tx0 [Hx0 ->]]]. destruct Hshy as [ly [Ty0 [Hy0 ->]]].
  rewrite Hx in Hx0. rewrite Hy in Hy0.
  change (lx ++ [1; Tx0]) with (lx ++ [1] ++ [Tx0]) in Hx0.
  change (ly ++ [1; Ty0]) with (ly ++ [1] ++ [Ty0]) in Hy0.
  rewrite app_assoc in Hx0, Hy0.
  apply app_inj_tail in Hx0. apply app_inj_tail in Hy0.
  destruct Hx0 as [Hlead <-]. destruct Hy0 as [Hlead' <-].
  rewrite Hlead in Hlead'. apply app_inj_tail in Hlead'.
  destruct Hlead' as [<- _]. subst lead.
  rewrite Z.mul_1_r. exists lx, Tx, Ty. cbn [shape data].
  repeat (split; [first [reflexivity | assumption] |]).
  intros idx Hidx. apply in_range_app_inv in Hidx.
  destruct Hidx as [il [jl [-> [Hil Hjl]]]].
  apply in_range_singleton in Hjl. destruct Hjl as [i [-> Hi]].
  unfold rearrange_data. rewrite rev_app_distr. cbn [rev app].
  rewrite rev_involutive, <- !app_assoc. cbn [app].
  apply Hd. rewrite <- app_assoc. cbn [app].
  apply in_range_two_intro; [exact Hil | lia | exact Hi].
Qed.

Lemma expands_each_film_nil (c : tensor F) : expands_each_film 1 c [].
Proof.
  intros sd i x y x' y' n Ha Hx Hy. cbn [call_each_film] in Hx, Hy.
  injection Hx as <-. injection Hy as <-. rewrite Z.mul_1_r. exact Ha.
Qed.

Lemma expands_each_film_cons (s1 s2 : Z) (c : tensor F) (m : module)
  (ms : list module) :
  expands_at s1 m (if isinstance_FiLM m then [c] else []) ->
  expands_each_film s2 c ms ->
  expands_each_film (s1 * s2) c (m :: ms).
Proof.
  intros Hm Hms sd i x y x' y' n Ha Hx Hy.
  cbn [call_each_film] in Hx, Hy.
  apply bind_Ok in Hx. destruct Hx as [x1 [Hx1 Hx]].
  apply bind_Ok in Hy. destruct Hy as [y1 [Hy1 Hy]].
  rewrite Z.mul_assoc.
  eapply Hms; [| exact Hx | exact Hy].
  destruct (isinstance_FiLM m); eapply Hm; eassumption.
Qed.

Lemma expands_each_film_decoder_core (scale ed cd : Z) (c : tensor F) :
  expands_each_film 320 c (decoder_core scale ed cd).
Proof.
  unfold decoder_core.
  change 320
    with (1 * (1 * (8 * (1 * (5 * (1 * (4 * (1 * (2 * (1 * (1 * (1 * 1)))))))))))).
  repeat apply expands_each_film_cons; try apply expands_each_film_nil;
    cbn [isinstance_FiLM film decoder_block causal_conv];
    try apply expands_at_FiLM;
    try (apply expands_at_decoder_block; lia);
    try (apply expands_of_causal; apply causal_at_ELU);
    try (apply expands_of_causal; apply causal_at_conv; lia).
  apply expands_at_drop_channel.
Qed.

(** X10.  Causality of the Decoder: if two embedding sequences hold the
    same frames [0 .. j] and are decoded with the same condition, then the
    320 * (j + 1) output samples of these frames, up to sample
    [frame_end j], exist in both waveforms and are the same. *)
Theorem Decoder_causal
  (scale ed cd : Z) (lead : dims) (nx ny j : Z) (sd : state_dict F)
  (x y c : tensor F) :
  1 <= scale -> 1 <= ed -> 1 <= cd -> batch_lead lead ->
  shape x = lead ++ [nx; ed] -> shape y = lead ++ [ny; ed] ->
  shape c = lead ++ [cd] ->
  0 <= j -> j < nx -> j < ny ->
  (forall il i e, in_range lead il -> 0 <= i <= j -> 0 <= e < ed ->
     data x (il ++ [i; e]) = data y (il ++ [i; e])) ->
  exists dec wx wy,
    Decoder scale ed cd = Ok dec /\
    Decoder_forward dec sd x c = Ok wx /\ shape wx = lead ++ [nx * 320] /\
    Decoder_forward dec sd y c = Ok wy /\ shape wy = lead ++ [ny * 320] /\
    frame_end j < nx * 320 /\ frame_end j < ny * 320 /\
    forall il i, in_range lead il -> 0 <= i <= frame_end j ->
      data wx (il ++ [i]) = data wy (il ++ [i]).
Proof.
  intros Hs He Hc Hl Hx Hy Hcs Hj HjX HjY Hsame.
  set (sdd := sub sd (Attr "decoder")).
  destruct (proj1 (call_Ok_shape (decoder_net scale ed cd) sdd x [c]
                     (lead ++ [nx * 320]))) as [wx [Hwx Hswx]].
  { simpl map. rewrite Hx, Hcs. apply decoder_net_out_shape; (assumption || lia). }
  destruct (proj1 (call_Ok_shape (decoder_net scale ed cd) sdd y [c]
                     (lead ++ [ny * 320]))) as [wy [Hwy Hswy]].
  { simpl map. rewrite Hy, Hcs. apply decoder_net_out_shape; (assumption || lia). }
  exists (decoder_net scale ed cd), wx, wy.
  split; [apply Decoder_plain; lia |]. unfold Decoder_forward. fold sdd.
  split; [exact Hwx |]. split; [exact Hswx |].
  split; [exact Hwy |]. split; [exact Hswy |].
  unfold frame_end. split; [lia |]. split; [lia |].
  rewrite decoder_net_core, call_SequentialWithFiLM in Hwx, Hwy.
  cbn [call_each_film isinstance_FiLM call] in Hwx, Hwy.
  apply bind_Ok in Hwx. destruct Hwx as [tx [Htx Hwx]].
  apply bind_Ok in Hwy. destruct Hwy as [ty [Hty Hwy]].
  assert (Hagree : agree (j + 1) tx ty).
  { apply (@agree_channels F lead ed nx ny); try lia.
    - pose proof Htx as H. unfold Rearrange_forward, with_shape in H.
      rewrite Hx, rearrange_swap in H by (apply batch_lead_rank; exact Hl).
      cbn [bind] in H. injection H as <-. reflexivity.
    - pose proof Hty as H. unfold Rearrange_forward, with_shape in H.
      rewrite Hy, rearrange_swap in H by (apply batch_lead_rank; exact Hl).
      cbn [bind] in H. injection H as <-. reflexivity.
    - intros il e i Hil Hee Hi.
      rewrite (@swap_last_axes_data F SF x tx il e i Htx),
        (@swap_last_axes_data F SF y ty il e i Hty).
      apply Hsame; [exact Hil | lia | exact Hee]. }
  pose proof (@expands_each_film_decoder_core scale ed cd c sdd 1%nat
                tx ty wx wy (j + 1) Hagree Hwx Hwy) as Ha.
  intros il i Hil Hi.
  apply (@agree_samples_inv F lead (nx * 320) ((j + 1) * 320) wx wy Ha Hswx);
    [exact Hil | lia].
Qed.

End DecoderCausality.

(** ** Padding modes other than zeros *)

Lemma fold_left_Z_zero (f : Z -> Z) (l : list nat) (a : Z) :
  (forall i, In i l -> f (Z.of_nat i) = 0) ->
  fold_left (fun acc i => acc + f (Z.of_nat i)) l a = a.
Proof.
  revert a. induction l as [|i l IH]; intros a H; [reflexivity |].
  cbn [fold_left]. rewrite (H i) by (left; reflexivity).
  rewrite Z.add_0_r. apply IH. intros j Hj. apply H. right. exact Hj.
Qed.

(** A sum of integers whose summands vanish after the first. *)
Lemma fsum_Z_first (n : Z) (f : Z -> Z) :
  1 <= n -> (forall i, 1 <= i < n -> f i = 0) ->
  @fsum Z Z_scalar n f = f 0.
Proof.
  intros Hn H. unfold fsum.
  replace (Z.to_nat n) with (S (Z.to_nat (n - 1))) by lia.
  cbn [seq fold_left fadd fzero Z_scalar].
  rewrite fold_left_Z_zero; [reflexivity |].
  intros i Hi. apply in_seq in Hi. apply H. lia.
Qed.

Lemma CausalConv1d_reflect_built (k d : Z) :
  0 <= k ->
  CausalConv1d 1 1 k [("dilation", PyInt d); ("padding_mode", PyStr "reflect")]
  = Ok (CausalConv1d_obj (mkConv1d 1 1 k 1 d 1 true true)
          (mkPad (d * (k - 1) - (1 - 1)) (PyStr "reflect"))).
Proof.
  intros Hk. unfold CausalConv1d. cbn -[ConvNd_init Z.mul Z.sub Z.add].
  rewrite ConvNd_init_default by lia. reflexivity.
Qed.

(** Output sample 0 of a [CausalConv1d] that pads by reflection. *)
Lemma reflect_first_sample (k d : Z) (x ox : tensor Z) :
  call (SF := Z_scalar)
    (CausalConv1d_obj (mkConv1d 1 1 k 1 d 1 true true)
       (mkPad (d * (k - 1) - (1 - 1)) (PyStr "reflect")))
    (constant_state 1) x [] = Ok ox ->
  data ox [0; 0]
  = @fsum Z Z_scalar k (fun i =>
      if d * (k - 1) <=? i * d then data x [0; i * d - d * (k - 1)]
      else data x [0; d * (k - 1) - i * d]) + 1.
Proof.
  intros H. cbn [call] in H. unfold CausalConv1d_forward in H.
  cbn [pad_mode pad_left] in H.
  apply bind_Ok in H. destruct H as [padded [Hpad Hconv]].
  unfold F_pad, with_shape in Hpad.
  apply bind_Ok in Hpad. destruct Hpad as [psh [_ Hpad]].
  injection Hpad as <-.
  unfold nn_Conv1d_forward, with_shape in Hconv.
  apply bind_Ok in Hconv. destruct Hconv as [sh' [_ Hconv]].
  injection Hconv as <-. cbn [data].
  rewrite (@conv1d_data_at Z Z_scalar _ _ _ [] 0 0).
  cbn [in_channels out_channels kernel_size stride dilation groups bias data
       app].
  cbv zeta. change (1 / 1) with 1. change (0 / 1) with 0.
  unfold constant_state at 2. cbn [param fadd Z_scalar]. f_equal.
  change (@fsum Z Z_scalar 1) with (fun f : Z -> Z => 0 + f 0).
  cbv beta. rewrite Z.add_0_l.
  apply (@fsum_ext Z Z_scalar). intros i Hi.
  unfold constant_state, param. cbn [fmul Z_scalar]. rewrite Z.mul_1_l.
  unfold F_pad_data. cbn [rev app String.eqb Ascii.eqb Bool.eqb].
  replace (0 * 1 + i * d) with (i * d) by ring.
  rewrite ?Z.sub_0_r.
  replace (d * (k - 1) - (1 - 1)) with (d * (k - 1)) by ring.
  replace (0 * 1 + 0) with 0 by ring.
  reflexivity.
Qed.

(** X11.  Padding by reflection makes [CausalConv1d] look ahead: with
    [padding_mode='reflect'] (kernel size at least 2) the first output
    sample reads the input sample [dilation * (kernel_size - 1)].  A silent
    signal and a signal with a single impulse at that later sample give
    different first output samples. *)
Theorem CausalConv1d_reflect_looks_ahead (k d : Z) :
  2 <= k -> 1 <= d ->
  let p := d * (k - 1) in
  exists m ox oy,
    CausalConv1d 1 1 k
      [("dilation", PyInt d); ("padding_mode", PyStr "reflect")] = Ok m /\
    call (SF := Z_scalar) m (constant_state 1) (zeros [1; p + 1]) [] = Ok ox /\
    call (SF := Z_scalar) m (constant_state 1) (impulse_at p (p + 1)) []
    = Ok oy /\
    (forall i, 0 <= i < p ->
       data (zeros [1; p + 1]) [0; i] = data (impulse_at p (p + 1)) [0; i]) /\
    data ox [0; 0] = 1 /\ data oy [0; 0] = 2.
Proof.
  intros Hk Hd p.
  assert (Hp : 1 <= p) by (unfold p; nia).
  set (m := CausalConv1d_obj (mkConv1d 1 1 k 1 d 1 true true)
              (mkPad (d * (k - 1) - (1 - 1)) (PyStr "reflect"))).
  assert (Hshape : out_shape m [1; p + 1] [] = Ok [1; p + 1]).
  { unfold m. change [1; p + 1] with ([] ++ [1; p + 1]) at 1.
    rewrite (@causal_conv_mode_out_shape 1 1 k 1 d (p + 1) "reflect" []);
      try lia.
    - rewrite Z.div_1_r. reflexivity.
    - unfold batch_lead. simpl. lia.
    - right. right. split; [reflexivity | fold p; lia]. }
  destruct (proj1 (call_Ok_shape (SF := Z_scalar) m (constant_state 1)
                     (zeros [1; p + 1]) [] [1; p + 1]) Hshape)
    as [ox [Hox _]].
  destruct (proj1 (call_Ok_shape (SF := Z_scalar) m (constant_state 1)
                     (impulse_at p (p + 1)) [] [1; p + 1]) Hshape)
    as [oy [Hoy _]].
  exists m, ox, oy.
  split; [apply CausalConv1d_reflect_built; lia |].
  split; [exact Hox |]. split; [exact Hoy |].
  split; [| split].
  - intros i Hi. cbn [zeros impulse_at data].
    destruct (Z.eqb_spec i p); [lia | reflexivity].
  - rewrite (@reflect_first_sample k d (zeros [1; p + 1]) ox Hox).
    rewrite fsum_Z_zero; [reflexivity |].
    intros i _. destruct (d * (k - 1) <=? i * d); reflexivity.
  - rewrite (@reflect_first_sample k d (impulse_at p (p + 1)) oy Hoy).
    fold p. rewrite fsum_Z_first.
    + cbn [impulse_at data]. replace (0 * d) with 0 by ring.
      destruct (Z.leb_spec p 0); [lia |].
      replace (p - 0) with p by ring. rewrite Z.eqb_refl. reflexivity.
    + lia.
    + intros i Hi. cbn [impulse_at data].
      assert (Hid : 1 * d <= i * d) by (apply Z.mul_le_mono_nonneg_r; lia).
      assert (Hik : i * d <= (k - 1) * d)
        by (apply Z.mul_le_mono_nonneg_r; lia).
      assert (Hpk : p = (k - 1) * d) by (unfold p; ring).
      destruct (Z.leb_spec p (i * d)).
      * destruct (Z.eqb_spec (i * d - p) p); [lia | reflexivity].
      * destruct (Z.eqb_spec (p - i * d) p); [lia | reflexivity].
Qed.

(** ** The classifier on top of the Encoder *)

Section ClassifierTheorems.

Context {F : Type} {SF : Scalar F} {NF : NormScalar F}.

(** X12.  [EncoderClassifier.__init__] takes an encoder and two widths and
    nothing else: any further keyword argument is a [TypeError].
    [train_content_encoder] passes [dropout=args.encoder_dropout], so it
    raises [TypeError] at its first statement, whatever its arguments and
    whatever it would do afterwards. *)
Theorem train_content_encoder_raises :
  (forall (V : Type) (enc : forward_pass F) (inf outf : Z) (key : string)
          (v : V) (kw : list (string * V)),
      EncoderClassifier enc inf outf ((key, v) :: kw) = Raise TypeError) /\
  (forall (V A : Type) (content_encoder : forward_pass F) (dropout : V)
          (training : EncoderClassifier_obj F -> result A),
      train_content_encoder content_encoder dropout training
      = Raise TypeError).
Proof.
  split; intros; reflexivity.
Qed.

Lemma EncoderClassifier_plain (enc : forward_pass F) (inf outf : Z) :
  0 <= inf -> 0 <= outf ->
  EncoderClassifier enc inf outf (@nil (string * pyobj))
  = Ok (mkEncoderClassifier enc (mkLayerNorm inf) (mkLinear inf outf)).
Proof.
  intros Hi Ho. unfold EncoderClassifier, nn_LayerNorm, nn_Linear.
  cbn [require bind]. repeat pass_require. reflexivity.
Qed.

Lemma layer_norm_same_shape (n : Z) (lead : dims) :
  layer_norm_shape (mkLayerNorm n) (lead ++ [n]) = Ok (lead ++ [n]).
Proof.
  unfold layer_norm_shape. rewrite rev_app_distr. cbn [rev app normalized_shape].
  rewrite Z.eqb_refl. reflexivity.
Qed.

(** X13.  The classifier on an [Encoder(scale, embedding_dim)]: with
    [in_features = embedding_dim], a waveform of shape [(.., samples)] with
    at least 320 samples gives logits of shape
    [(.., floor(samples / 320), out_features)]; with any other
    [in_features] the layer norm refuses the embeddings with a
    [RuntimeError]. *)
Theorem EncoderClassifier_logits
  (scale ed inf outf T : Z) (lead : dims) (sd : state_dict F) (x : tensor F) :
  1 <= scale -> 1 <= ed -> 0 <= inf -> 0 <= outf -> batch_lead lead ->
  shape x = lead ++ [T] -> 320 <= T ->
  exists enc cls,
    Encoder scale ed = Ok enc /\
    EncoderClassifier (Encoder_forward enc) inf outf (@nil (string * pyobj))
    = Ok cls /\
    (inf = ed ->
       exists y, EncoderClassifier_forward cls sd x = Ok y /\
                 shape y = lead ++ [T / 320; outf]) /\
    (inf <> ed -> EncoderClassifier_forward cls sd x = Raise RuntimeError).
Proof.
  intros Hs He Hi Ho Hl Hx HT.
  exists (encoder_net scale ed),
    (mkEncoderClassifier (Encoder_forward (encoder_net scale ed))
       (mkLayerNorm inf) (mkLinear inf outf)).
  split; [apply Encoder_plain; lia |].
  split; [apply EncoderClassifier_plain; assumption |].
  destruct (proj1 (call_Ok_shape (encoder_net scale ed)
                     (sub (sub sd (Attr "encoder")) (Attr "encoder")) x []
                     (lead ++ [T / 320; ed]))) as [e [Hcall Hse]].
  { simpl map. rewrite Hx. apply encoder_net_out_shape; assumption. }
  unfold EncoderClassifier_forward, Encoder_forward.
  cbn [encoder norm linear]. rewrite Hcall. cbn [bind].
  unfold nn_LayerNorm_forward, with_shape. rewrite Hse.
  change (lead ++ [T / 320; ed]) with (lead ++ [T / 320] ++ [ed]).
  rewrite app_assoc. split.
  - intros ->. rewrite layer_norm_same_shape. cbn [bind].
    unfold nn_Linear_forward, with_shape. cbn [shape].
    pose proof (linear_out_shape (mkLinear ed outf) (lead ++ [T / 320]))
      as Hlin.
    cbn [in_features out_features] in Hlin. rewrite Hlin. cbn [bind].
    eexists. split; [reflexivity |]. cbn [shape].
    rewrite <- app_assoc. reflexivity.
  - intros Hne. unfold layer_norm_shape. rewrite rev_app_distr.
    cbn [rev app normalized_shape].
    destruct (Z.eqb_spec ed inf) as [Heq|_]; [congruence | reflexivity].
Qed.

(** The frames of the Encoder that two runs agree on. *)
Lemma encoder_net_frames_agree (scale ed : Z) (lead : dims) (Tx Ty n : Z)
  (sd : state_dict F) (x y ex ey : tensor F) :
  1 <= scale -> 1 <= ed ->
  batch_lead lead -> shape x = lead ++ [Tx] -> 320 <= Tx ->
  agree n x y ->
  call (encoder_net scale ed) sd x [] = Ok ex ->
  call (encoder_net scale ed) sd y [] = Ok ey ->
  forall il j e, in_range lead il -> 0 <= j < n / 320 -> 0 <= e < ed ->
    data ex (il ++ [j; e]) = data ey (il ++ [j; e]).
Proof.
  intros Hsc Hed Hl Hx HTx Hagree Hex Hey.
  rewrite encoder_net_core, call_Sequential, call_each_app in Hex, Hey.
  apply bind_Ok in Hex. destruct Hex as [cx [Hcx Hex]].
  apply bind_Ok in Hey. destruct Hey as [cy [Hcy Hey]].
  cbn [call_each call bind] in Hex, Hey.
  apply bind_Ok in Hex. destruct Hex as [ex' [Hex Hex']].
  apply bind_Ok in Hey. destruct Hey as [ey' [Hey Hey']].
  injection Hex' as ->. injection Hey' as ->.
  pose proof (@causal_each_encoder_core F SF scale ed sd 0%nat x y cx cy n
                Hagree Hcx Hcy) as Hc.
  assert (Hcore : shape cx = lead ++ [ed; Tx / 320]).
  { destruct (proj1 (call_Ok_shape (Sequential (encoder_core scale ed)) sd x []
                       (lead ++ [ed; Tx / 320]))) as [cx' [Hcx' Hs']].
    - simpl map. rewrite out_shape_Sequential, Hx.
      apply encoder_core_out_shape; (assumption || lia).
    - rewrite call_Sequential in Hcx'. congruence. }
  intros il j e Hil Hj Hee.
  rewrite (@swap_last_axes_data F SF cx ex il j e Hex),
    (@swap_last_axes_data F SF cy ey il j e Hey).
  apply (@agree_channels_inv F lead ed (Tx / 320) (n / 320) cx cy Hc Hcore);
    assumption.
Qed.

(** The elements a layer norm reads for one output element. *)
Lemma layer_norm_data_at (ln : LayerNorm) (sd : state_dict F) (x : tensor F)
  (lead : index) (e : Z) :
  layer_norm_data ln sd x (lead ++ [e])
  = let n := normalized_shape ln in
    let row := fun i => data x (lead ++ [i]) in
    let mean := fdiv (fsum n row) (fnum n) in
    let var :=
      fdiv (fsum n (fun i => fmul (fsub (row i) mean) (fsub (row i) mean)))
           (fnum n) in
    fadd (fmul (fdiv (fsub (row e) mean) (fsqrt (fadd var feps)))
               (param sd "weight" [e]))
         (param sd "bias" [e]).
Proof.
  unfold layer_norm_data. rewrite rev_app_distr. cbn [rev app].
  cbv zeta. rewrite !rev_involutive. reflexivity.
Qed.

(** A layer norm works on each row of the last axis by itself. *)
Lemma layer_norm_rows (ln : LayerNorm) (sd : state_dict F) (x y : tensor F)
  (lead : index) (e : Z) :
  (forall i, 0 <= i < normalized_shape ln ->
     data x (lead ++ [i]) = data y (lead ++ [i])) ->
  0 <= e < normalized_shape ln ->
  layer_norm_data ln sd x (lead ++ [e]) = layer_norm_data ln sd y (lead ++ [e]).
Proof.
  intros Hrow He. rewrite !layer_norm_data_at. cbv zeta.
  assert (Hmean : fsum (normalized_shape ln) (fun i => data x (lead ++ [i]))
                  = fsum (normalized_shape ln) (fun i => data y (lead ++ [i]))).
  { apply fsum_ext. exact Hrow. }
  rewrite Hmean, (Hrow e He).
  f_equal. f_equal. f_equal. f_equal. f_equal. f_equal.
  apply fsum_ext. intros i Hi. rewrite (Hrow i Hi). reflexivity.
Qed.

(** X14.  The logits are causal as the embeddings are: if two waveforms
    hold the same samples on [[0, t]], the classifier on an
    [Encoder(scale, embedding_dim)] gives the same logits for every frame
    [j] with [frame_end j <= t]. *)
Theorem EncoderClassifier_causal
  (scale ed outf : Z) (lead : dims) (Tx Ty t : Z) (sd : state_dict F)
  (x y : tensor F) :
  1 <= scale -> 1 <= ed -> 0 <= outf -> batch_lead lead ->
  shape x = lead ++ [Tx] -> shape y = lead ++ [Ty] ->
  t < Tx -> t < Ty ->
  (forall il i, in_range lead il -> 0 <= i <= t ->
     data x (il ++ [i]) = data y (il ++ [i])) ->
  forall j, 0 <= j -> frame_end j <= t ->
  exists enc cls lx ly,
    Encoder scale ed = Ok enc /\
    EncoderClassifier (Encoder_forward enc) ed outf (@nil (string * pyobj))
    = Ok cls /\
    EncoderClassifier_forward cls sd x = Ok lx /\
    shape lx = lead ++ [Tx / 320; outf] /\
    EncoderClassifier_forward cls sd y = Ok ly /\
    shape ly = lead ++ [Ty / 320; outf] /\
    j < Tx / 320 /\ j < Ty / 320 /\
    forall il o, in_range lead il -> 0 <= o < outf ->
      data lx (il ++ [j; o]) = data ly (il ++ [j; o]).
Proof.
  intros Hs He Ho Hl Hx Hy HtX HtY Hsame j Hj Hend. unfold frame_end in Hend.
  assert (Hagree : agree (t + 1) x y).
  { exists lead, Tx, Ty. repeat (split; [first [assumption | lia] |]).
    intros idx Hidx. apply in_range_app_inv in Hidx.
    destruct Hidx as [il [jl [-> [Hil Hjl]]]].
    apply in_range_singleton in Hjl. destruct Hjl as [i [-> Hi]].
    apply Hsame; [exact Hil | lia]. }
  set (sde := sub (sub sd (Attr "encoder")) (Attr "encoder")).
  destruct (proj1 (call_Ok_shape (encoder_net scale ed) sde x []
                     (lead ++ [Tx / 320; ed]))) as [ex [Hex Hsex]].
  { simpl map. rewrite Hx. apply encoder_net_out_shape; (assumption || lia). }
  destruct (proj1 (call_Ok_shape (encoder_net scale ed) sde y []
                     (lead ++ [Ty / 320; ed]))) as [ey [Hey Hsey]].
  { simpl map. rewrite Hy. apply encoder_net_out_shape; (assumption || lia). }
  assert (HjN : j < (t + 1) / 320).
  { apply Z.lt_le_trans with (j + 1); [lia |].
    apply Z.div_le_lower_bound; lia. }
  pose proof (@encoder_net_frames_agree scale ed lead Tx Ty (t + 1) sde
                x y ex ey Hs He Hl Hx ltac:(lia) Hagree Hex Hey) as Hframes.
  assert (Hrun : forall (w : tensor F) (ew : tensor F) (Tw : Z),
            call (encoder_net scale ed) sde w [] = Ok ew ->
            shape ew = lead ++ [Tw / 320; ed] ->
            exists lw,
              EncoderClassifier_forward
                (mkEncoderClassifier (Encoder_forward (encoder_net scale ed))
                   (mkLayerNorm ed) (mkLinear ed outf)) sd w = Ok lw /\
              shape lw = lead ++ [Tw / 320; outf] /\
              forall il o,
                data lw (il ++ [j; o])
                = linear_data (mkLinear ed outf) (sub sd (Attr "linear"))
                    (mkTensor (shape ew)
                       (layer_norm_data (mkLayerNorm ed)
                          (sub sd (Attr "norm")) ew))
                    (il ++ [j; o])).
  { intros w ew Tw Hew Hsew.
    unfold EncoderClassifier_forward, Encoder_forward.
    cbn [encoder norm linear]. fold sde. rewrite Hew. cbn [bind].
    unfold nn_LayerNorm_forward, with_shape. rewrite Hsew.
    change (lead ++ [Tw / 320; ed]) with (lead ++ [Tw / 320] ++ [ed]).
    rewrite app_assoc, layer_norm_same_shape. cbn [bind].
    unfold nn_Linear_forward, with_shape. cbn [shape].
    pose proof (linear_out_shape (mkLinear ed outf) (lead ++ [Tw / 320]))
      as Hlin.
    cbn [in_features out_features] in Hlin. rewrite Hlin. cbn [bind].
    eexists. split; [reflexivity |]. cbn [shape data].
    split; [rewrite <- app_assoc; reflexivity |].
    intros il o. reflexivity. }
  destruct (Hrun x ex Tx Hex Hsex) as [lx [Hlx [Hslx Hdx]]].
  destruct (Hrun y ey Ty Hey Hsey) as [ly [Hly [Hsly Hdy]]].
  exists (encoder_net scale ed),
    (mkEncoderClassifier (Encoder_forward (encoder_net scale ed))
       (mkLayerNorm ed) (mkLinear ed outf)), lx, ly.
  split; [apply Encoder_plain; lia |].
  split; [apply EncoderClassifier_plain; lia |].
  split; [exact Hlx |]. split; [exact Hslx |].
  split; [exact Hly |]. split; [exact Hsly |].
  split; [apply Z.lt_le_trans with ((t + 1) / 320);
          [exact HjN | apply Z.div_le_mono; lia] |].
  split; [apply Z.lt_le_trans with ((t + 1) / 320);
          [exact HjN | apply Z.div_le_mono; lia] |].
  intros il o Hil Hoo. rewrite Hdx, Hdy.
  unfold linear_data.
  change (il ++ [j; o]) with (il ++ [j] ++ [o]).
  rewrite app_assoc, rev_app_distr. cbn [rev app in_features data].
  f_equal. apply fsum_ext. intros i Hi. f_equal.
  rewrite rev_involutive.
  apply layer_norm_rows; cbn [normalized_shape]; [| exact Hi].
  intros e Hee. rewrite <- app_assoc. cbn [app].
  apply Hframes; [exact Hil | lia | exact Hee].
Qed.

End ClassifierTheorems.

(** ** The labels of the training script *)

Lemma dims_eqb_refl (a : dims) : dims_eqb a a = true.
Proof.
  induction a as [|n a IH]; [reflexivity |].
  cbn [dims_eqb]. rewrite Z.eqb_refl, IH. reflexivity.
Qed.

Lemma dims_eqb_eq (a b : dims) : dims_eqb a b = true -> a = b.
Proof.
  revert b. induction a as [|n a IH]; intros [|m b] H; try discriminate;
    [reflexivity |].
  cbn [dims_eqb] in H. apply andb_prop in H. destruct H as [Hn Hab].
  apply Z.eqb_eq in Hn. subst m. f_equal. apply IH. exact Hab.
Qed.

(** A loop whose body succeeds on every element succeeds, with one result
    per element. *)
Lemma map_result_Ok {A B : Type} (f : A -> result B) (P : A -> B -> Prop)
  (l : list A) :
  (forall a, In a l -> exists b, f a = Ok b /\ P a b) ->
  exists bs, map_result f l = Ok bs /\ Forall2 P l bs.
Proof.
  induction l as [|a l IH]; intros H.
  - exists []. split; [reflexivity | constructor].
  - destruct (H a (or_introl eq_refl)) as [b [Hb HP]].
    destruct IH as [bs [Hbs HF]].
    { intros a' Ha'. apply H. right. exact Ha'. }
    exists (b :: bs). cbn [map_result]. rewrite Hb. cbn [bind].
    rewrite Hbs. cbn [bind]. split; [reflexivity |].
    constructor; assumption.
Qed.

Lemma Forall2_nth {A B : Type} (P : A -> B -> Prop) (l : list A) (bs : list B)
  (i : nat) (da : A) (db : B) :
  Forall2 P l bs -> (i < List.length l)%nat -> P (nth i l da) (nth i bs db).
Proof.
  intros H. revert i. induction H as [|a b l bs Hab _ IH]; intros i Hi.
  - simpl in Hi. lia.
  - destruct i as [|i]; [exact Hab |]. simpl. apply IH. simpl in Hi. lia.
Qed.

Lemma Forall2_length_eq {A B : Type} (P : A -> B -> Prop) (l : list A)
  (bs : list B) :
  Forall2 P l bs -> List.length bs = List.length l.
Proof. induction 1; simpl; congruence. Qed.

Lemma unfold_frames (T : Z) (lead : dims) :
  320 <= T ->
  unfold_shape SAMPLES_PER_FRAME SAMPLES_PER_FRAME (lead ++ [T])
  = Ok (lead ++ [T / 320; 320]).
Proof.
  intros HT. unfold unfold_shape, SAMPLES_PER_FRAME.
  cbn [Z.leb Z.ltb Z.compare require bind].
  rewrite rev_app_distr. cbn [rev app]. pass_require.
  rewrite div_sub_stride by lia.
  rewrite rev_involutive, <- !app_assoc. reflexivity.
Qed.

Section BatchLabels.

Context {F : Type}.

(** X15.  [get_batch_labels] on a batch of [B >= 1] waveforms of
    [T >= 320] samples, with a label model that returns
    [floor(T / 320)] labels per waveform: the result has one label per
    frame of 320 samples, as many frames as the Encoder produces.  A frame
    with a sample outside the mask gets the label [-1]; a frame whose 320
    samples are all inside the mask keeps the label the model gave for the
    waveform of its row. *)
Theorem get_batch_labels_masked
  (units : tensor F -> result (tensor Z)) (batch : tensor F)
  (mask : tensor bool) (B T : Z) :
  1 <= B -> 320 <= T -> shape batch = [B; T] -> shape mask = [B; T] ->
  (forall s, shape s = [1; 1; T] ->
     exists u, units s = Ok u /\ shape u = [T / 320]) ->
  exists labels,
    get_batch_labels units batch mask = Ok labels /\
    shape labels = [B; T / 320] /\
    forall b f, 0 <= b < B -> 0 <= f < T / 320 ->
      ((exists k, 0 <= k < 320 /\ data mask [b; f * 320 + k] = false) ->
         data labels [b; f] = -1) /\
      ((forall k, 0 <= k < 320 -> data mask [b; f * 320 + k] = true) ->
         exists s u,
           shape s = [1; 1; T] /\
           (forall i, data s [0; 0; i] = data batch [b; i]) /\
           units s = Ok u /\ data labels [b; f] = data u [f]).
Proof.
  intros HB HT Hbatch Hmask Hunits.
  unfold get_batch_labels, tensor_unfold. rewrite Hmask.
  change [B; T] with ([B] ++ [T]).
  rewrite (@unfold_frames T [B] HT). cbn [bind app].
  set (windows := mkTensor [B; T / 320; 320] _).
  unfold tensor_iter. rewrite Hbatch. cbn [bind].
  set (rows := map _ (seq 0 (Z.to_nat B))).
  set (body := fun sample : tensor F =>
                 single_sample_batch <- rearrange_s_11s sample ;;
                 units single_sample_batch).
  destruct (@map_result_Ok _ _ body
              (fun row u => shape u = [T / 320] /\
                 exists s, shape s = [1; 1; T] /\
                   (forall i, data s [0; 0; i] = data row [i]) /\
                   units s = Ok u) rows) as [us [Hus HF]].
  { intros row Hrow. unfold rows in Hrow. apply in_map_iff in Hrow.
    destruct Hrow as [b [<- _]]. unfold body, rearrange_s_11s. cbn [shape bind].
    destruct (Hunits (mkTensor [1; 1; T] (fun idx =>
                 match idx with
                 | [_; _; i] => data batch [Z.of_nat b; i]
                 | _ => data batch [Z.of_nat b]
                 end)) eq_refl) as [u [Hu Hsu]].
    exists u. cbn [data]. split; [exact Hu |]. split; [exact Hsu |].
    eexists. split; [| split; [| exact Hu]]; [reflexivity |].
    intros i. reflexivity. }
  fold body. rewrite Hus. cbn [bind].
  assert (Hlen : List.length us = Z.to_nat B).
  { rewrite (Forall2_length_eq HF). unfold rows.
    rewrite length_map, length_seq. reflexivity. }
  assert (Hrows : List.length rows = Z.to_nat B).
  { unfold rows. rewrite length_map, length_seq. reflexivity. }
  destruct us as [|u0 us']; [simpl in Hlen; lia |].
  assert (Hshapes : forall u, In u (u0 :: us') -> shape u = [T / 320]).
  { intros u Hu. apply In_nth with (d := u0) in Hu.
    destruct Hu as [i [Hi <-]].
    apply (@Forall2_nth _ _ _ rows (u0 :: us') i
             (mkTensor [] (fun _ => data batch [])) u0 HF).
    rewrite Hrows, <- Hlen. exact Hi. }
  unfold torch_stack.
  assert (Hall : forallb (fun t => dims_eqb (shape t) (shape u0)) (u0 :: us')
                 = true).
  { apply forallb_forall. intros u Hu.
    rewrite (Hshapes u Hu), (Hshapes u0 (or_introl eq_refl)).
    apply dims_eqb_refl. }
  rewrite Hall, require_true. cbn [bind shape].
  rewrite Hlen, (Hshapes u0 (or_introl eq_refl)), Z2Nat.id by lia.
  unfold tensor_all_last, windows. cbn [shape rev app].
  rewrite dims_eqb_refl. cbn [py_assert bind].
  eexists. split; [reflexivity |].
  unfold assign_where_not. cbn [shape data]. split; [reflexivity |].
  intros b f Hb Hf.
  assert (Hwin : forallb (fun k => data mask [b; f * 320 + Z.of_nat k])
                   (seq 0 (Z.to_nat 320)) = true <->
                 forall k, 0 <= k < 320 -> data mask [b; f * 320 + k] = true).
  { rewrite forallb_forall. split.
    - intros H k Hk. specialize (H (Z.to_nat k)).
      rewrite Z2Nat.id in H by lia. apply H. apply in_seq. lia.
    - intros H k Hk. apply in_seq in Hk. apply H. lia. }
  unfold SAMPLES_PER_FRAME. cbn [rev app]. split.
  - intros [k [Hk Hfalse]].
    destruct (forallb (fun k0 => data mask [b; f * 320 + Z.of_nat k0])
                (seq 0 (Z.to_nat 320))) eqn:E; [| reflexivity].
    rewrite (proj1 Hwin eq_refl k Hk) in Hfalse. discriminate.
  - intros Htrue. rewrite (proj2 Hwin Htrue).
    pose proof (@Forall2_nth _ _ _ rows (u0 :: us') (Z.to_nat b)
                  (mkTensor [] (fun _ => data batch [])) u0 HF
                  ltac:(rewrite Hrows; lia)) as [_ [s [Hs [Hsd Hsu]]]].
    exists s, (nth (Z.to_nat b) (u0 :: us') u0).
    split; [exact Hs |]. split; [| split; [exact Hsu | reflexivity]].
    intros i. rewrite Hsd.
    set (row := fun b0 : nat =>
                  mkTensor [T] (fun idx => data batch (Z.of_nat b0 :: idx))).
    rewrite (nth_indep rows _ (row 0%nat)) by (rewrite Hrows; lia).
    unfold rows. fold row.
    rewrite (map_nth row (seq 0 (Z.to_nat B)) 0%nat (Z.to_nat b)).
    rewrite seq_nth by lia. unfold row. cbn [data].
    rewrite Nat.add_0_l, Z2Nat.id by lia. reflexivity.
Qed.

(** X16.  What [get_batch_labels] refuses, whatever the label model: a
    mask of fewer than 320 samples ([RuntimeError], before any label is
    computed) and an empty batch ([RuntimeError]); and, on a batch of one
    waveform, a label model that returns another number of labels than
    there are frames fails the assertion. *)
Theorem get_batch_labels_refuses
  (units : tensor F -> result (tensor Z)) (batch : tensor F)
  (mask : tensor bool) :
  (forall lead T, 0 <= T < 320 -> shape mask = lead ++ [T] ->
     get_batch_labels units batch mask = Raise RuntimeError) /\
  (forall lead T rest, 320 <= T -> shape mask = lead ++ [T] ->
     shape batch = 0 :: rest ->
     get_batch_labels units batch mask = Raise RuntimeError) /\
  (forall T n u, 320 <= T -> n <> T / 320 ->
     shape mask = [1; T] -> shape batch = [1; T] ->
     (forall s, shape s = [1; 1; T] -> units s = Ok u) -> shape u = [n] ->
     get_batch_labels units batch mask = Raise AssertionError).
Proof.
  split; [| split].
  - intros lead T HT Hmask. unfold get_batch_labels, tensor_unfold.
    rewrite Hmask. unfold unfold_shape, SAMPLES_PER_FRAME.
    cbn [Z.leb Z.ltb Z.compare require bind].
    rewrite rev_app_distr. cbn [rev app].
    destruct (Z.leb_spec 320 T); [lia | reflexivity].
  - intros lead T rest HT Hmask Hbatch.
    unfold get_batch_labels, tensor_unfold. rewrite Hmask.
    rewrite (@unfold_frames T lead HT). cbn [bind].
    unfold tensor_iter. rewrite Hbatch. reflexivity.
  - intros T n u HT Hn Hmask Hbatch Hunits Hu.
    unfold get_batch_labels, tensor_unfold. rewrite Hmask.
    change [1; T] with ([1] ++ [T]).
    rewrite (@unfold_frames T [1] HT). cbn [bind app].
    unfold tensor_iter. rewrite Hbatch.
    change (Z.to_nat 1) with 1%nat. cbn [bind seq map map_result].
    unfold rearrange_s_11s. cbn [shape bind].
    rewrite Hunits by reflexivity. cbn [bind].
    unfold torch_stack. cbn [forallb]. rewrite dims_eqb_refl.
    cbn [andb require bind shape List.length].
    unfold tensor_all_last. cbn [shape rev app]. rewrite Hu.
    cbn [dims_eqb Z.of_nat Pos.of_succ_nat Z.eqb Pos.eqb andb].
    destruct (Z.eqb_spec n (T / 320)) as [|_]; [contradiction |].
    reflexivity.
Qed.

End BatchLabels.

(** ** The rows of a batch do not mix *)

Section RowLocality.

Context {F : Type} {SF : Scalar F}.

Lemma row_local_ELU : row_local (F := F) ELU.
Proof.
  intros sd x y x' y' b [Hsh [B [rest [Hx [Hlen [Hb Hd]]]]]] Hcx Hcy.
  cbn [call] in Hcx, Hcy. unfold nn_ELU_forward in Hcx, Hcy.
  injection Hcx as <-. injection Hcy as <-. cbn [shape data].
  split; [exact Hsh |]. exists B, rest.
  repeat (split; [assumption |]).
  intros idx Hidx. cbn [data]. rewrite (Hd idx Hidx). reflexivity.
Qed.

Lemma row_local_conv (cin cout k s d : Z) :
  1 <= k -> 1 <= s -> 1 <= d ->
  row_local (F := F) (causal_conv cin cout k s d).
Proof.
  intros Hk Hs Hd sd x y x' y' b [Hsh [B [rest [Hx [Hlen [Hb Hdata]]]]]]
    Hcx Hcy.
  pose proof (causal_conv_call_data _ _ _ _ _ _ _ Hcx) as [pshx Hdx].
  pose proof (causal_conv_call_data _ _ _ _ _ _ _ Hcy) as [pshy Hdy].
  pose proof (proj2 (call_Ok_shape _ sd x [] (shape x'))
                (ex_intro _ x' (conj Hcx eq_refl))) as Hsx.
  pose proof (proj2 (call_Ok_shape _ sd y [] (shape y'))
                (ex_intro _ y' (conj Hcy eq_refl))) as Hsy.
  simpl map in Hsx, Hsy. rewrite <- Hsh in Hsy.
  assert (Hsame : shape x' = shape y') by congruence.
  apply causal_conv_shape_inv_any in Hsx; try assumption.
  destruct Hsx as [lead [T [Hl [Hx0 [HT [_ Hx']]]]]].
  rewrite Hx in Hx0.
  assert (Hlead : lead = [B] /\ rest = [cin; T]).
  { unfold batch_lead in Hl.
    destruct lead as [|B0 [|B1 lead]]; [| | simpl in Hl; lia].
    - cbn [app] in Hx0. injection Hx0 as _ Hrest. subst rest.
      simpl in Hlen. lia.
    - cbn [app] in Hx0. injection Hx0 as <- <-. auto. }
  destruct Hlead as [-> ->]. cbn [app] in Hx'.
  split; [exact Hsame |]. exists B, [if cin =? 0 then 0 else cout; T / s].
  split; [exact Hx' |]. split; [simpl; lia |]. split; [exact Hb |].
  intros idx Hidx. rewrite Hdx, Hdy.
  destruct idx as [|co [|t [|? ?]]]; simpl in Hidx; try tauto.
  destruct Hidx as [Hco [Ht _]].
  assert (Hco' : 0 <= co < cout) by (destruct (Z.eqb_spec cin 0); lia).
  change [b; co; t] with ([b] ++ [co; t]). rewrite !conv1d_data_at.
  cbn [in_channels out_channels kernel_size stride dilation groups bias data].
  cbv zeta. f_equal.
  rewrite !Z.div_1_r, (Z.div_small co cout) by lia.
  apply fsum_ext; intros ci Hci; apply fsum_ext; intros i Hi. f_equal.
  change ([b] ++ [0 * cin + ci; t * s + i * d])
    with (([b] ++ [0 * cin + ci]) ++ [t * s + i * d]).
  rewrite !F_pad_data_constant.
  destruct (Z.leb_spec (d * (k - 1) - (s - 1)) (t * s + i * d)) as [Hu|Hu];
    [| reflexivity].
  cbn [app]. apply Hdata.
  pose proof (@window_end T s d k t i ltac:(lia) ltac:(lia) Hi Ht) as Hw.
  simpl. lia.
Qed.

Lemma row_local_each_nil : row_local_each (F := F) [].
Proof.
  intros sd i x y x' y' b Ha Hx Hy. cbn [call_each] in Hx, Hy.
  injection Hx as <-. injection Hy as <-. exact Ha.
Qed.

Lemma row_local_each_cons (m : module) (ms : list module) :
  row_local (F := F) m -> row_local_each (F := F) ms ->
  row_local_each (F := F) (m :: ms).
Proof.
  intros Hm Hms sd i x y x' y' b Ha Hx Hy.
  cbn [call_each] in Hx, Hy.
  apply bind_Ok in Hx. destruct Hx as [x1 [Hx1 Hx]].
  apply bind_Ok in Hy. destruct Hy as [y1 [Hy1 Hy]].
  eapply Hms; [| exact Hx | exact Hy].
  eapply Hm; eassumption.
Qed.

Lemma row_local_Sequential (ms : list module) :
  row_local_each (F := F) ms -> row_local (F := F) (Sequential ms).
Proof.
  intros Hms sd x y x' y' b Ha Hx Hy.
  rewrite call_Sequential in Hx, Hy. eapply Hms; eassumption.
Qed.

Lemma row_local_Residual (fn : module) :
  (forall sh sh', out_shape fn sh [] = Ok sh' -> sh' = sh) ->
  row_local (F := F) fn -> row_local (F := F) (Residual_obj fn).
Proof.
  intros Hshape Hfn sd x y x' y' b Ha Hx Hy.
  cbn [call] in Hx, Hy.
  apply bind_Ok in Hx. destruct Hx as [fx [Hfx Hx]].
  apply bind_Ok in Hy. destruct Hy as [fy [Hfy Hy]].
  assert (Hsx : shape fx = shape x).
  { apply Hshape. apply (call_Ok_shape fn (sub sd (Attr "fn")) x []).
    exists fx. auto. }
  assert (Hsy : shape fy = shape y).
  { apply Hshape. apply (call_Ok_shape fn (sub sd (Attr "fn")) y []).
    exists fy. auto. }
  pose proof (Hfn _ _ _ _ _ _ Ha Hfx Hfy) as Hf.
  destruct (@tensor_add_same_shape _ _ fx x x' Hsx Hx) as [Hx' Hdx].
  destruct (@tensor_add_same_shape _ _ fy y y' Hsy Hy) as [Hy' Hdy].
  destruct Ha as [Hsh [B [rest [Hshx [Hlen [Hb Hd]]]]]].
  destruct Hf as [_ [B' [rest' [Hfshx [_ [_ Hfd]]]]]].
  rewrite Hsx, Hshx in Hfshx. injection Hfshx as <- <-.
  split; [congruence |]. exists B, rest.
  split; [congruence |]. split; [exact Hlen |]. split; [exact Hb |].
  intros idx Hidx.
  rewrite Hdx by (rewrite Hshx; simpl; tauto).
  rewrite Hdy by (rewrite <- Hsh, Hshx; simpl; tauto).
  rewrite (Hfd idx Hidx), (Hd idx Hidx). reflexivity.
Qed.

Lemma row_local_residual_unit (ch d k : Z) :
  1 <= k -> 1 <= d -> row_local (F := F) (residual_unit ch d k).
Proof.
  intros Hk Hd. unfold residual_unit. apply row_local_Residual.
  - intros sh sh'. apply residual_fn_keeps_shape; assumption.
  - apply row_local_Sequential.
    repeat apply row_local_each_cons; try apply row_local_each_nil;
      try apply row_local_ELU; apply row_local_conv; lia.
Qed.

Lemma row_local_encoder_block (cin cout s : Z) :
  1 <= s -> row_local (F := F) (encoder_block cin cout s).
Proof.
  intros Hs. unfold encoder_block. apply row_local_Sequential.
  repeat apply row_local_each_cons; try apply row_local_each_nil;
    try apply row_local_ELU;
    try (apply row_local_residual_unit; lia).
  apply row_local_conv; lia.
Qed.

Lemma row_local_encoder_convs (scale ed : Z) :
  row_local_each (F := F) (tl (encoder_core scale ed)).
Proof.
  unfold encoder_core. cbn [tl].
  repeat apply row_local_each_cons; try apply row_local_each_nil;
    try apply row_local_ELU;
    try (apply row_local_encoder_block; lia);
    apply row_local_conv; lia.
Qed.

(** X17.  The Encoder keeps the waveforms of a batch apart: if two batches
    of shape [(B, samples)] hold the same waveform in row [b], the
    embeddings of row [b] are the same, whatever the other rows hold. *)
Theorem Encoder_rows_independent
  (scale ed B T b : Z) (sd : state_dict F) (x y : tensor F) :
  1 <= scale -> 1 <= ed -> 320 <= T ->
  shape x = [B; T] -> shape y = [B; T] -> 0 <= b < B ->
  (forall i, 0 <= i < T -> data x [b; i] = data y [b; i]) ->
  exists enc ex ey,
    Encoder scale ed = Ok enc /\
    Encoder_forward enc sd x = Ok ex /\ shape ex = [B; T / 320; ed] /\
    Encoder_forward enc sd y = Ok ey /\ shape ey = [B; T / 320; ed] /\
    forall j e, 0 <= j < T / 320 -> 0 <= e < ed ->
      data ex [b; j; e] = data ey [b; j; e].
Proof.
  intros Hs He HT Hx Hy Hb Hsame.
  assert (Hl : batch_lead [B]) by (unfold batch_lead; simpl; lia).
  set (sde := sub sd (Attr "encoder")).
  destruct (proj1 (call_Ok_shape (encoder_net scale ed) sde x []
                     ([B] ++ [T / 320; ed]))) as [ex [Hex Hsex]].
  { simpl map. rewrite Hx. apply (@encoder_net_out_shape [B]); assumption. }
  destruct (proj1 (call_Ok_shape (encoder_net scale ed) sde y []
                     ([B] ++ [T / 320; ed]))) as [ey [Hey Hsey]].
  { simpl map. rewrite Hy. apply (@encoder_net_out_shape [B]); assumption. }
  exists (encoder_net scale ed), ex, ey.
  split; [apply Encoder_plain; lia |]. unfold Encoder_forward. fold sde.
  split; [exact Hex |]. split; [exact Hsex |].
  split; [exact Hey |]. split; [exact Hsey |].
  rewrite encoder_net_core, call_Sequential, call_each_app in Hex, Hey.
  apply bind_Ok in Hex. destruct Hex as [cx [Hcx Hex]].
  apply bind_Ok in Hey. destruct Hey as [cy [Hcy Hey]].
  cbn [call_each call bind] in Hex, Hey.
  apply bind_Ok in Hex. destruct Hex as [ex' [Hex Hex']].
  apply bind_Ok in Hey. destruct Hey as [ey' [Hey Hey']].
  injection Hex' as ->. injection Hey' as ->.
  assert (Hcore : shape cx = [B; ed; T / 320]).
  { destruct (proj1 (call_Ok_shape (Sequential (encoder_core scale ed)) sde x []
                       ([B] ++ [ed; T / 320]))) as [cx' [Hcx' Hs']].
    - simpl map. rewrite out_shape_Sequential, Hx.
      apply (@encoder_core_out_shape [B]); assumption.
    - rewrite call_Sequential, Hcx in Hcx'. injection Hcx' as <-. exact Hs'. }
  unfold encoder_core in Hcx, Hcy. cbn [call_each] in Hcx, Hcy.
  apply bind_Ok in Hcx. destruct Hcx as [x1 [Hx1 Hcx]].
  apply bind_Ok in Hcy. destruct Hcy as [y1 [Hy1 Hcy]].
  assert (Hrow : same_row b x1 y1).
  { cbn [call] in Hx1, Hy1. unfold Rearrange_forward, with_shape in Hx1, Hy1.
    rewrite Hx in Hx1. rewrite Hy in Hy1.
    change [B; T] with ([B] ++ [T]) in Hx1, Hy1.
    rewrite (@rearrange_add_channel [B] T) in Hx1, Hy1 by (simpl; lia).
    cbn [bind app] in Hx1, Hy1. injection Hx1 as <-. injection Hy1 as <-.
    cbn [shape data]. split; [reflexivity |]. exists B, [1; T].
    split; [reflexivity |]. split; [simpl; lia |]. split; [exact Hb |].
    intros idx Hidx.
    destruct idx as [|c [|t [|? ?]]]; simpl in Hidx; try tauto.
    unfold rearrange_data. cbn [rev app]. apply Hsame. lia. }
  pose proof (@row_local_encoder_convs scale ed sde 1%nat x1 y1 cx cy b
                Hrow Hcx Hcy) as [_ [B' [rest [Hscx [_ [_ Hcd]]]]]].
  rewrite Hcore in Hscx. injection Hscx as <- <-.
  intros j e Hj Hee. change [b; j; e] with ([b] ++ [j; e]).
  rewrite (@swap_last_axes_data F SF cx ex [b] j e Hex),
    (@swap_last_axes_data F SF cy ey [b] j e Hey).
  cbn [app]. apply Hcd. simpl. lia.
Qed.

End RowLocality.

(** ** Keyword arguments handed through [ResidualUnit] *)

Lemma ResidualUnit_strided (ch d k s : Z) :
  0 <= ch -> 0 <= k ->
  ResidualUnit ch d k [("stride", PyInt s)]
  = Ok (Residual (Sequential [causal_conv ch ch k s d; ELU;
                               causal_conv ch ch 1 s 1; ELU])).
Proof.
  intros Hc Hk. unfold ResidualUnit.
  change (kw_call [("dilation", PyInt d)] [("stride", PyInt s)])
    with (Ok [("dilation", PyInt d); ("stride", PyInt s)]).
  cbn [bind].
  assert (H1 : CausalConv1d ch ch k [("dilation", PyInt d); ("stride", PyInt s)]
               = Ok (causal_conv ch ch k s d)).
  { unfold CausalConv1d. cbn -[ConvNd_init Z.mul Z.sub Z.add].
    rewrite ConvNd_init_default by lia. reflexivity. }
  rewrite H1, CausalConv1d_strided by lia. reflexivity.
Qed.

Lemma broadcast_single_frame (lead : dims) (ch T : Z) :
  broadcast_shapes (lead ++ [ch; 1]) (lead ++ [ch; T]) = Ok (lead ++ [ch; T]).
Proof.
  unfold broadcast_shapes. rewrite !rev_app_distr. cbn [rev app broadcast_rev].
  rewrite broadcast_rev_same. cbn [bind]. rewrite Z.eqb_refl. cbn [bind].
  destruct (Z.eqb_spec 1 T) as [<-|HT]; cbn [bind rev Z.eqb Pos.eqb];
    rewrite rev_involutive, <- !app_assoc; reflexivity.
Qed.

Lemma broadcast_frames_mismatch (lead : dims) (ch q T : Z) :
  q <> T -> q <> 1 -> T <> 1 ->
  broadcast_shapes (lead ++ [ch; q]) (lead ++ [ch; T]) = Raise RuntimeError.
Proof.
  intros H1 H2 H3. unfold broadcast_shapes.
  rewrite !rev_app_distr. cbn [rev app broadcast_rev].
  rewrite broadcast_rev_same. cbn [bind]. rewrite Z.eqb_refl. cbn [bind].
  destruct (Z.eqb_spec q T) as [|_]; [contradiction |].
  destruct (Z.eqb_spec q 1) as [|_]; [contradiction |].
  destruct (Z.eqb_spec T 1) as [|_]; [contradiction |].
  reflexivity.
Qed.

Section ResidualUnitKeywords.

Context {F : Type} {SF : Scalar F}.

(** X18.  [ResidualUnit] hands its extra keyword arguments to both of its
    convolutions, so [ResidualUnit(channels, dilation, kernel_size,
    stride=s)] with [s >= 2] (and at least one channel) is constructed but
    does not work as a
    residual unit: the wrapped transform divides the time axis by [s]
    twice.  A signal shorter than [s * s] is refused by a convolution, a
    signal of [2 * s * s] samples or more fails in the residual addition,
    and in between the single frame that is left is silently broadcast
    over the whole input. *)
Theorem ResidualUnit_stride_keyword
  (ch d k s T : Z) (lead : dims) (sd : state_dict F) (x : tensor F) :
  1 <= ch -> 1 <= d -> 1 <= k -> 2 <= s -> batch_lead lead ->
  shape x = lead ++ [ch; T] ->
  exists m,
    ResidualUnit ch d k [("stride", PyInt s)] = Ok m /\
    (T < s * s -> call m sd x [] = Raise RuntimeError) /\
    (s * s <= T < 2 * (s * s) ->
       exists y, call m sd x [] = Ok y /\ shape y = lead ++ [ch; T]) /\
    (2 * (s * s) <= T -> call m sd x [] = Raise RuntimeError).
Proof.
  intros Hc Hd Hk Hs Hl Hx.
  exists (Residual (Sequential [causal_conv ch ch k s d; ELU;
                                causal_conv ch ch 1 s 1; ELU])).
  split; [apply ResidualUnit_strided; lia |].
  assert (Hss : 4 <= s * s) by nia.
  assert (Hfn : s <= T -> s <= T / s ->
            out_shape (Sequential [causal_conv ch ch k s d; ELU;
                                   causal_conv ch ch 1 s 1; ELU])
              (lead ++ [ch; T]) [] = Ok (lead ++ [ch; T / (s * s)])).
  { intros H1 H2. rewrite out_shape_Sequential.
    rewrite shape_each_cons, causal_conv_out_shape by (assumption || lia).
    cbn [bind]. rewrite shape_each_cons, out_shape_ELU. cbn [bind].
    rewrite shape_each_cons, causal_conv_out_shape by (assumption || lia).
    cbn [bind]. rewrite shape_each_cons, out_shape_ELU. cbn [bind shape_each].
    rewrite Z.div_div by lia. reflexivity. }
  assert (Hdiv : s * s <= T -> s <= T / s)
    by (intros H; apply Z.div_le_lower_bound; lia).
  unfold Residual. split; [| split].
  - intros HT. apply call_Raise_shape. simpl map. rewrite Hx.
    rewrite out_shape_Residual, out_shape_Sequential.
    destruct (Z.lt_ge_cases T s) as [H1|H1].
    { rewrite shape_each_cons, causal_conv_short by (assumption || lia).
      reflexivity. }
    rewrite shape_each_cons, causal_conv_out_shape by (assumption || lia).
    cbn [bind]. rewrite shape_each_cons, out_shape_ELU. cbn [bind].
    assert (H2 : T / s < s) by (apply Z.div_lt_upper_bound; lia).
    rewrite shape_each_cons, causal_conv_short by (assumption || lia).
    reflexivity.
  - intros HT. apply call_Ok_shape. simpl map. rewrite Hx.
    assert (HsT : s <= T) by nia.
    rewrite out_shape_Residual, Hfn by (try apply Hdiv; lia). cbn [bind].
    assert (Hq : T / (s * s) = 1).
    { symmetry. apply Z.div_unique with (r := T - s * s); lia. }
    rewrite Hq. apply broadcast_single_frame.
  - intros HT. apply call_Raise_shape. simpl map. rewrite Hx.
    assert (HsT : s <= T) by nia.
    rewrite out_shape_Residual, Hfn by (try apply Hdiv; lia). cbn [bind].
    assert (Hq : 2 <= T / (s * s)) by (apply Z.div_le_lower_bound; lia).
    assert (Hq' : T / (s * s) < T) by (apply Z.div_lt; lia).
    apply broadcast_frames_mismatch; lia.
Qed.

End ResidualUnitKeywords.

(** ** The ranks the networks accept *)

Section Ranks.

Context {F : Type} {SF : Scalar F}.

(** X19.  The waveform of the Encoder is a vector or a batch of vectors,
    and the embedding sequence of the Decoder a matrix or a batch of
    matrices.  A tensor without axes, or with a single axis for the
    Decoder, has no recipe in the change of layout at the entrance
    ([KeyError]), and a tensor with two to seven batch axes is refused by
    the first convolution ([RuntimeError]). *)
Theorem networks_refuse_ranks
  (scale ed cd : Z) (sd : state_dict F) (x c : tensor F) :
  1 <= scale -> 1 <= ed -> 1 <= cd ->
  exists enc dec,
    Encoder scale ed = Ok enc /\ Decoder scale ed cd = Ok dec /\
    (shape x = [] -> Encoder_forward enc sd x = Raise KeyError) /\
    (forall lead T, (2 <= List.length lead <= 7)%nat -> shape x = lead ++ [T] ->
       Encoder_forward enc sd x = Raise RuntimeError) /\
    (shape x = [] -> Decoder_forward dec sd x c = Raise KeyError) /\
    (forall n, shape x = [n] -> Decoder_forward dec sd x c = Raise KeyError) /\
    (forall lead n e, (2 <= List.length lead <= 7)%nat ->
       shape x = lead ++ [n; e] ->
       Decoder_forward dec sd x c = Raise RuntimeError).
Proof.
  intros Hs He Hc. exists (encoder_net scale ed), (decoder_net scale ed cd).
  split; [apply Encoder_plain; lia |]. split; [apply Decoder_plain; lia |].
  unfold Encoder_forward, Decoder_forward.
  split; [| split; [| split; [| split]]].
  - intros Hx. apply call_Raise_shape. simpl map. rewrite Hx. reflexivity.
  - intros lead T Hl Hx. apply call_Raise_shape. simpl map. rewrite Hx.
    unfold encoder_net. rewrite out_shape_Sequential.
    rewrite shape_each_cons, out_shape_Rearrange, rearrange_add_channel by lia.
    cbn [bind]. rewrite shape_each_cons, causal_conv_rank by lia.
    reflexivity.
  - intros Hx. apply call_Raise_shape. simpl map. rewrite Hx. reflexivity.
  - intros n Hx. apply call_Raise_shape. simpl map. rewrite Hx. reflexivity.
  - intros lead n e Hl Hx. apply call_Raise_shape. simpl map. rewrite Hx.
    apply decoder_net_rank. exact Hl.
Qed.

End Ranks.

(** ** The checkpoint keys of the content encoder *)

Lemma prefix_app (p r : string) : String.prefix p (p ++ r)%string = true.
Proof.
  induction p as [|a p IH]; [destruct r; reflexivity |].
  cbn [String.append String.prefix].
  destruct (Ascii.ascii_dec a a) as [_|Hne]; [exact IH | contradiction].
Qed.

Lemma prefix_split (p s : string) :
  String.prefix p s = true -> exists r, s = (p ++ r)%string.
Proof.
  revert s. induction p as [|a p IH]; intros s H.
  - exists s. reflexivity.
  - destruct s as [|b s]; [discriminate |].
    cbn [String.prefix] in H.
    destruct (Ascii.ascii_dec a b) as [<-|_]; [| discriminate].
    destruct (IH s H) as [r ->]. exists r. reflexivity.
Qed.

Lemma substring_all (s : string) :
  String.substring 0 (String.length s) s = s.
Proof.
  induction s as [|a s IH]; [reflexivity |].
  cbn [String.length String.substring]. rewrite IH. reflexivity.
Qed.

Lemma length_app_string (p r : string) :
  String.length (p ++ r)%string = (String.length p + String.length r)%nat.
Proof.
  induction p as [|a p IH]; [reflexivity |].
  cbn [String.append String.length]. rewrite IH. reflexivity.
Qed.

Lemma substring_skip (p r : string) :
  String.substring (String.length p) (String.length r) (p ++ r)%string = r.
Proof.
  induction p as [|a p IH]; [apply substring_all | exact IH].
Qed.

Lemma slice_from_app (p r : string) :
  slice_from (String.length p) (p ++ r)%string = r.
Proof.
  unfold slice_from. rewrite length_app_string.
  replace (String.length p + String.length r - String.length p)%nat
    with (String.length r) by lia.
  apply substring_skip.
Qed.

(** X20.  The state dict that [main] loads into the content encoder holds
    exactly the entries of the checkpoint whose key starts with
    ["encoder."], each under its key without this prefix: a key [k] maps
    to a tensor [v] if and only if the checkpoint maps ["encoder." ++ k]
    to [v].  The entries of the classifier's own layers are left out. *)
Theorem encoder_state_dict_keys (T : Type) (checkpoint : list (string * T))
  (k : string) (v : T) :
  In (k, v) (encoder_state_dict checkpoint)
  <-> In (("encoder." ++ k)%string, v) checkpoint.
Proof.
  unfold encoder_state_dict. rewrite in_map_iff. split.
  - intros [[key t] [Heq Hin]]. apply filter_In in Hin.
    destruct Hin as [Hin Hpre]. cbn [fst snd] in Heq, Hpre.
    injection Heq as <- <-.
    apply prefix_split in Hpre. destruct Hpre as [r ->].
    pose proof (slice_from_app "encoder." r) as Hslice.
    cbn [String.length] in Hslice. rewrite Hslice. exact Hin.
  - intros Hin. exists (("encoder." ++ k)%string, v). cbn [fst snd].
    split; [rewrite (slice_from_app "encoder." k); reflexivity |].
    apply filter_In. split; [exact Hin |]. cbn [fst].
    apply prefix_app.
Qed.

(** ** The rows of a batch in the Decoder *)

Lemma decoder_core_convs (scale ed cd : Z) :
  decoder_core scale ed cd
  = decoder_convs scale ed cd ++ [Rearrange drop_channel_axis].
Proof. reflexivity. Qed.

Section DecoderRows.

Context {F : Type} {SF : Scalar F}.

Lemma call_each_film_app (sd : state_dict F) (c : tensor F)
  (ms1 ms2 : list module) :
  forall (i : nat) (x : tensor F),
    call_each_film sd c (ms1 ++ ms2) i x
    = (y <- call_each_film sd c ms1 i x ;;
       call_each_film sd c ms2 (i + List.length ms1)%nat y).
Proof.
  induction ms1 as [|m ms1 IH]; intros i x.
  - cbn [app call_each_film bind List.length]. rewrite Nat.add_0_r.
    reflexivity.
  - cbn [app call_each_film List.length].
    destruct (if isinstance_FiLM m
              then call m (sub sd (Idx i)) x [c]
              else call m (sub sd (Idx i)) x []) as [y|e]; [| reflexivity].
    cbn [bind]. rewrite IH, Nat.add_succ_r. reflexivity.
Qed.

Lemma row_local_conv_transpose (cin cout k s d : Z) :
  1 <= k -> 1 <= s -> 1 <= d ->
  row_local (F := F) (causal_conv_transpose cin cout k s d).
Proof.
  intros Hk Hs Hd sd x y x' y' b [Hsh [B [rest [Hx [Hlen [Hb Hdata]]]]]]
    Hcx Hcy.
  pose proof (causal_conv_transpose_call_data _ _ _ _ _ _ _ Hcx) as Hdx.
  pose proof (causal_conv_transpose_call_data _ _ _ _ _ _ _ Hcy) as Hdy.
  pose proof (proj2 (call_Ok_shape _ sd x [] (shape x'))
                (ex_intro _ x' (conj Hcx eq_refl))) as Hsx.
  pose proof (proj2 (call_Ok_shape _ sd y [] (shape y'))
                (ex_intro _ y' (conj Hcy eq_refl))) as Hsy.
  simpl map in Hsx, Hsy. rewrite <- Hsh in Hsy.
  assert (Hsame : shape x' = shape y') by congruence.
  apply causal_conv_transpose_shape_inv in Hsx.
  destruct Hsx as [lead [T [Hl [Hx0 Hx']]]].
  rewrite Hx in Hx0.
  assert (Hlead : lead = [B] /\ rest = [cin; T]).
  { unfold batch_lead in Hl.
    destruct lead as [|B0 [|B1 lead]]; [| | simpl in Hl; lia].
    - cbn [app] in Hx0. injection Hx0 as _ Hrest. subst rest.
      simpl in Hlen. lia.
    - cbn [app] in Hx0. injection Hx0 as <- <-. auto. }
  destruct Hlead as [-> ->]. cbn [app] in Hx'.
  split; [exact Hsame |]. eexists B, _.
  split; [exact Hx' |]. split; [simpl; lia |]. split; [exact Hb |].
  intros idx Hidx. rewrite Hdx, Hdy.
  destruct idx as [|co [|t [|? ?]]]; simpl in Hidx; try tauto.
  destruct Hidx as [Hco [Ht _]].
  change [b; co; t] with ([b] ++ [co; t]). rewrite !conv_transpose1d_data_at.
  cbn [in_channels out_channels kernel_size stride dilation groups bias].
  cbv zeta. f_equal.
  rewrite <- Hsh, Hx. cbn [last].
  rewrite !Z.div_1_r, (Z.div_small co cout) by lia.
  apply fsum_ext; intros ci Hci; apply fsum_ext; intros i Hi.
  destruct (Z.eqb_spec ((t - i * d) mod s) 0) as [_|_]; [| reflexivity].
  destruct (Z.leb_spec 0 ((t - i * d) / s)) as [Hj0|_]; [| reflexivity].
  destruct (Z.ltb_spec ((t - i * d) / s) T) as [HjT|_]; [| reflexivity].
  cbn [andb app]. f_equal. apply Hdata. simpl. lia.
Qed.

Lemma row_local_decoder_block (cin cout s : Z) :
  1 <= s -> row_local (F := F) (decoder_block cin cout s).
Proof.
  intros Hs. unfold decoder_block. apply row_local_Sequential.
  repeat apply row_local_each_cons; try apply row_local_each_nil;
    try (apply row_local_residual_unit; lia).
  apply row_local_conv_transpose; lia.
Qed.

(** Row [b] of the output of [FiLM] depends on row [b] of the signal and
    of the condition only. *)
Lemma film_rows (dim cd B T b : Z) (sd : state_dict F)
  (x y c c' x' y' : tensor F) :
  shape x = [B; dim; T] -> same_row b x y ->
  shape c = [B; cd] -> shape c' = [B; cd] ->
  (forall i, 0 <= i < cd -> data c [b; i] = data c' [b; i]) ->
  call (film dim cd) sd x [c] = Ok x' ->
  call (film dim cd) sd y [c'] = Ok y' ->
  shape x' = [B; dim; T] /\ same_row b x' y'.
Proof.
  intros Hx [Hsh [B' [rest [Hx0 [_ [Hb Hd]]]]]] Hc Hc' Hcond Hcx Hcy.
  rewrite Hx in Hx0. injection Hx0 as <- <-.
  assert (Hy : shape y = [B; dim; T]) by congruence.
  destruct (@film_call_data F SF dim cd T [B] sd x c x' Hx Hc Hcx)
    as [g [bt [Hg [Hbt [Hsg [Hsbt [Hsx' Hdx]]]]]]].
  destruct (@film_call_data F SF dim cd T [B] sd y c' y' Hy Hc' Hcy)
    as [g' [bt' [Hg' [Hbt' [Hsg' [Hsbt' [Hsy' Hdy]]]]]]].
  cbn [app] in *.
  split; [exact Hsx' |]. split; [congruence |]. exists B, [dim; T].
  split; [exact Hsx' |]. split; [simpl; lia |]. split; [exact Hb |].
  intros idx Hidx.
  destruct idx as [|ch [|t [|? ?]]]; simpl in Hidx; try tauto.
  destruct Hidx as [Hch [Ht _]].
  change [b; ch; t] with ([b] ++ [ch; t]).
  rewrite (Hdx [b] ch t), (Hdy [b] ch t) by (simpl; tauto || lia).
  cbn [app].
  assert (Hlin : forall (sd' : state_dict F) (r r' : tensor F),
            nn_Linear_forward (mkLinear cd dim) sd' c = Ok r ->
            nn_Linear_forward (mkLinear cd dim) sd' c' = Ok r' ->
            shape r = [B; dim] -> shape r' = [B; dim] ->
            data r [b; ch] = data r' [b; ch]).
  { intros sd' r r' Hr Hr' Hsr Hsr'.
    assert (Hin : in_range [B; dim] ([b] ++ [ch])) by (simpl; lia).
    pose proof Hin as Hin'. rewrite <- Hsr in Hin. rewrite <- Hsr' in Hin'.
    destruct (nn_Linear_forward_data _ _ _ Hr _ Hin) as [l1 [o1 [Heq1 H1]]].
    destruct (nn_Linear_forward_data _ _ _ Hr' _ Hin') as [l2 [o2 [Heq2 H2]]].
    apply app_inj_tail in Heq1. destruct Heq1 as [<- <-].
    apply app_inj_tail in Heq2. destruct Heq2 as [<- <-].
    cbn [app] in H1, H2. rewrite H1, H2. f_equal.
    apply fsum_ext. intros i Hi. cbn [in_features] in Hi.
    cbn [app]. rewrite (Hcond i Hi). reflexivity. }
  rewrite (Hlin _ _ _ Hg Hg' Hsg Hsg'), (Hlin _ _ _ Hbt Hbt' Hsbt Hsbt').
  rewrite (Hd [ch; t]) by (simpl; lia). reflexivity.
Qed.

Lemma rows_each_film_nil (c c' : tensor F) (b : Z) (sh : dims) :
  rows_each_film c c' b sh sh [].
Proof.
  intros sd i x y x' y' Hx Ha Hcx Hcy. cbn [call_each_film] in Hcx, Hcy.
  injection Hcx as <-. injection Hcy as <-. auto.
Qed.

Lemma rows_each_film_plain (c c' : tensor F) (b : Z) (sh sh1 sh' : dims)
  (m : module) (ms : list module) :
  isinstance_FiLM m = false -> row_local (F := F) m ->
  out_shape m sh [] = Ok sh1 ->
  rows_each_film c c' b sh1 sh' ms ->
  rows_each_film c c' b sh sh' (m :: ms).
Proof.
  intros Hm Hrow Hshape Hms sd i x y x' y' Hx Ha Hcx Hcy.
  cbn [call_each_film] in Hcx, Hcy. rewrite Hm in Hcx, Hcy.
  apply bind_Ok in Hcx. destruct Hcx as [x1 [Hx1 Hcx]].
  apply bind_Ok in Hcy. destruct Hcy as [y1 [Hy1 Hcy]].
  eapply Hms; [| | exact Hcx | exact Hcy].
  - pose proof (proj2 (call_Ok_shape m (sub sd (Idx i)) x [] (shape x1))
                  (ex_intro _ x1 (conj Hx1 eq_refl))) as Hs.
    simpl map in Hs. rewrite Hx, Hshape in Hs. injection Hs as <-.
    reflexivity.
  - eapply Hrow; eassumption.
Qed.

Lemma rows_each_film_film (c c' : tensor F) (b B dim cd T : Z) (sh' : dims)
  (ms : list module) :
  shape c = [B; cd] -> shape c' = [B; cd] ->
  (forall i, 0 <= i < cd -> data c [b; i] = data c' [b; i]) ->
  rows_each_film c c' b [B; dim; T] sh' ms ->
  rows_each_film c c' b [B; dim; T] sh' (film dim cd :: ms).
Proof.
  intros Hc Hc' Hcond Hms sd i x y x' y' Hx Ha Hcx Hcy.
  cbn [call_each_film isinstance_FiLM film] in Hcx, Hcy.
  apply bind_Ok in Hcx. destruct Hcx as [x1 [Hx1 Hcx]].
  apply bind_Ok in Hcy. destruct Hcy as [y1 [Hy1 Hcy]].
  destruct (@film_rows dim cd B T b (sub sd (Idx i)) x y c c' x1 y1
              Hx Ha Hc Hc' Hcond Hx1 Hy1) as [Hs1 Ha1].
  eapply Hms; [exact Hs1 | exact Ha1 | exact Hcx | exact Hcy].
Qed.

Lemma rows_each_film_decoder_convs (scale ed cd B n b : Z) (c c' : tensor F) :
  1 <= scale -> 1 <= ed ->
  1 <= n -> shape c = [B; cd] -> shape c' = [B; cd] ->
  (forall i, 0 <= i < cd -> data c [b; i] = data c' [b; i]) ->
  rows_each_film c c' b [B; ed; n] [B; 1; n * 320] (decoder_convs scale ed cd).
Proof.
  intros Hsc Hed Hn Hc Hc' Hcond. unfold decoder_convs.
  assert (Hl : batch_lead [B]) by (unfold batch_lead; simpl; lia).
  assert (H8 : 1 <= n * 8) by lia.
  assert (H5 : 1 <= n * 8 * 5) by lia.
  assert (H4 : 1 <= n * 8 * 5 * 4) by lia.
  assert (H2 : 1 <= n * 8 * 5 * 4 * 2) by lia.
  apply rows_each_film_plain with (sh1 := [B; 16 * scale; n]);
    [reflexivity | apply row_local_conv; lia | |].
  { pose proof (@causal_conv_out_shape [B] ed (16 * scale) 7 1 1 n
                  ltac:(lia) ltac:(lia) Hl
                  ltac:(lia) ltac:(lia) ltac:(lia) ltac:(lia)) as H.
    rewrite Z.div_1_r in H. exact H. }
  apply rows_each_film_plain with (sh1 := [B; 16 * scale; n]);
    [reflexivity | apply row_local_ELU | reflexivity |].
  apply rows_each_film_plain with (sh1 := [B; 8 * scale; n * 8]);
    [reflexivity | apply row_local_decoder_block; lia
    | apply (@decoder_block_out_shape [B]); (assumption || lia) |].
  apply rows_each_film_film; try assumption.
  apply rows_each_film_plain with (sh1 := [B; 4 * scale; n * 8 * 5]);
    [reflexivity | apply row_local_decoder_block; lia
    | apply (@decoder_block_out_shape [B]); (assumption || lia) |].
  apply rows_each_film_film; try assumption.
  apply rows_each_film_plain with (sh1 := [B; 2 * scale; n * 8 * 5 * 4]);
    [reflexivity | apply row_local_decoder_block; lia
    | apply (@decoder_block_out_shape [B]); (assumption || lia) |].
  apply rows_each_film_film; try assumption.
  apply rows_each_film_plain with (sh1 := [B; scale; n * 8 * 5 * 4 * 2]);
    [reflexivity | apply row_local_decoder_block; lia
    | apply (@decoder_block_out_shape [B]); (assumption || lia) |].
  apply rows_each_film_film; try assumption.
  apply rows_each_film_plain with (sh1 := [B; 1; n * 320]);
    [reflexivity | apply row_local_conv; lia | |].
  { pose proof (@causal_conv_out_shape [B] scale 1 7 1 1 (n * 8 * 5 * 4 * 2)
                  ltac:(lia) ltac:(lia)
                  Hl ltac:(lia) ltac:(lia) ltac:(lia) ltac:(lia)) as H.
    cbn [app] in H. rewrite Z.div_1_r in H. rewrite H, mul_320.
    reflexivity. }
  apply rows_each_film_nil.
Qed.

(** X21.  The Decoder keeps the rows of a batch apart: if two batches of
    embedding sequences hold the same sequence in row [b], and the two
    batches of conditioning vectors the same vector in row [b], then the
    waveforms of row [b] are the same, whatever the other rows hold. *)
Theorem Decoder_rows_independent
  (scale ed cd B n b : Z) (sd : state_dict F) (x y c c' : tensor F) :
  1 <= scale -> 1 <= ed -> 1 <= cd -> 1 <= n ->
  shape x = [B; n; ed] -> shape y = [B; n; ed] ->
  shape c = [B; cd] -> shape c' = [B; cd] -> 0 <= b < B ->
  (forall i e, 0 <= i < n -> 0 <= e < ed ->
     data x [b; i; e] = data y [b; i; e]) ->
  (forall i, 0 <= i < cd -> data c [b; i] = data c' [b; i]) ->
  exists dec wx wy,
    Decoder scale ed cd = Ok dec /\
    Decoder_forward dec sd x c = Ok wx /\ shape wx = [B; n * 320] /\
    Decoder_forward dec sd y c' = Ok wy /\ shape wy = [B; n * 320] /\
    forall t, 0 <= t < n * 320 -> data wx [b; t] = data wy [b; t].
Proof.
  intros Hs He Hcd Hn Hx Hy Hc Hc' Hb Hsame Hcond.
  assert (Hl : batch_lead [B]) by (unfold batch_lead; simpl; lia).
  set (sdd := sub sd (Attr "decoder")).
  destruct (proj1 (call_Ok_shape (decoder_net scale ed cd) sdd x [c]
                     ([B] ++ [n * 320]))) as [wx [Hwx Hswx]].
  { simpl map. rewrite Hx, Hc.
    apply (@decoder_net_out_shape [B]); assumption. }
  destruct (proj1 (call_Ok_shape (decoder_net scale ed cd) sdd y [c']
                     ([B] ++ [n * 320]))) as [wy [Hwy Hswy]].
  { simpl map. rewrite Hy, Hc'.
    apply (@decoder_net_out_shape [B]); assumption. }
  exists (decoder_net scale ed cd), wx, wy.
  split; [apply Decoder_plain; lia |]. unfold Decoder_forward. fold sdd.
  split; [exact Hwx |]. split; [exact Hswx |].
  split; [exact Hwy |]. split; [exact Hswy |].
  rewrite decoder_net_core, call_SequentialWithFiLM in Hwx, Hwy.
  cbn [call_each_film isinstance_FiLM call] in Hwx, Hwy.
  apply bind_Ok in Hwx. destruct Hwx as [tx [Htx Hwx]].
  apply bind_Ok in Hwy. destruct Hwy as [ty [Hty Hwy]].
  rewrite decoder_core_convs, call_each_film_app in Hwx, Hwy.
  apply bind_Ok in Hwx. destruct Hwx as [ux [Hux Hwx]].
  apply bind_Ok in Hwy. destruct Hwy as [uy [Huy Hwy]].
  assert (Hstx : shape tx = [B; ed; n]).
  { pose proof Htx as H. unfold Rearrange_forward, with_shape in H.
    rewrite Hx in H. change [B; n; ed] with ([B] ++ [n; ed]) in H.
    rewrite rearrange_swap in H by (simpl; lia). cbn [bind] in H.
    injection H as <-. reflexivity. }
  assert (Hsty : shape ty = [B; ed; n]).
  { pose proof Hty as H. unfold Rearrange_forward, with_shape in H.
    rewrite Hy in H. change [B; n; ed] with ([B] ++ [n; ed]) in H.
    rewrite rearrange_swap in H by (simpl; lia). cbn [bind] in H.
    injection H as <-. reflexivity. }
  assert (Hrow : same_row b tx ty).
  { split; [congruence |]. exists B, [ed; n].
    split; [exact Hstx |]. split; [simpl; lia |]. split; [exact Hb |].
    intros idx Hidx.
    destruct idx as [|e [|i [|? ?]]]; simpl in Hidx; try tauto.
    change [b; e; i] with ([b] ++ [e; i]).
    rewrite (@swap_last_axes_data F SF x tx [b] e i Htx),
      (@swap_last_axes_data F SF y ty [b] e i Hty).
    cbn [app]. apply Hsame; lia. }
  destruct (@rows_each_film_decoder_convs scale ed cd B n b c c' Hs He Hn
              Hc Hc' Hcond sdd 1%nat tx ty ux uy Hstx Hrow Hux Huy)
    as [Hsux [Hsuxy [B' [rest [Hsu [_ [_ Hud]]]]]]].
  rewrite Hsux in Hsu. injection Hsu as <- <-.
  cbn [call_each_film isinstance_FiLM call bind] in Hwx, Hwy.
  apply bind_Ok in Hwx. destruct Hwx as [wx' [Hwx Hwx']].
  apply bind_Ok in Hwy. destruct Hwy as [wy' [Hwy Hwy']].
  injection Hwx' as ->. injection Hwy' as ->.
  unfold Rearrange_forward, with_shape in Hwx, Hwy.
  apply bind_Ok in Hwx. destruct Hwx as [shx [_ Hwx]].
  apply bind_Ok in Hwy. destruct Hwy as [shy [_ Hwy]].
  injection Hwx as <-. injection Hwy as <-.
  intros t Ht. cbn [data]. unfold rearrange_data. cbn [rev app].
  apply Hud. simpl. lia.
Qed.

End DecoderRows.

(** ** Layers without channels, boolean strides and empty signals

    PyTorch builds a convolution with no input or no output channels and
    refuses it, or answers without channels, when it runs; it stores a
    boolean stride and refuses it when it runs; and its transposed
    convolution does not take a signal with an empty time axis. *)

Lemma conv1d_rule_no_output (cin k s d N C L : Z) :
  conv1d_rule (mkConv1d cin 0 k s d 1 true true) N C L = Raise RuntimeError.
Proof.
  unfold conv1d_rule.
  destruct (conv_params_positive _); reflexivity.
Qed.

Lemma conv_transpose1d_rule_no_input (cout k s d N C L : Z) :
  conv_transpose1d_rule (mkConv1d 0 cout k s d 1 true true) N C L
  = Raise RuntimeError.
Proof.
  unfold conv_transpose1d_rule.
  destruct (conv_params_positive _); reflexivity.
Qed.

(** A convolution whose rule refuses every signal refuses every shape. *)
Lemma conv_shape_refuses (c : Conv1d) (rule : Z -> Z -> Z -> result (Z * Z))
  (sh : dims) :
  int_args c = true ->
  (forall N C L, rule N C L = Raise RuntimeError) ->
  conv_shape c rule sh = Raise RuntimeError.
Proof.
  intros Hint Hrule. unfold conv_shape. rewrite Hint, require_true.
  cbn [bind].
  destruct sh as [|a [|b [|e [|e' sh]]]]; try reflexivity;
    rewrite Hrule; reflexivity.
Qed.

Lemma F_pad_shape_constant (p T : Z) (lead : dims) :
  0 <= T + p ->
  F_pad_shape p "constant" (lead ++ [T]) = Ok (lead ++ [T + p]).
Proof.
  intros Hp. unfold F_pad_shape.
  change (known_pad_mode "constant") with true. rewrite require_true.
  cbn [bind]. rewrite rev_app_distr. cbn [rev app].
  cbn [String.eqb Ascii.eqb Bool.eqb bind].
  replace (0 <=? T + p) with true by (symmetry; apply Z.leb_le; lia).
  cbn [require bind]. cbn [rev]. rewrite rev_involutive. reflexivity.
Qed.

Lemma F_pad_shape_constant_fails (p : Z) (sh : dims) (e : exn) :
  F_pad_shape p "constant" sh = Raise e -> e = RuntimeError.
Proof.
  unfold F_pad_shape.
  change (known_pad_mode "constant") with true. rewrite require_true.
  cbn [bind]. destruct (rev sh) as [|T l]; [congruence |].
  cbn [String.eqb Ascii.eqb Bool.eqb bind].
  destruct (0 <=? T + p); cbn [require bind]; congruence.
Qed.

(** [CausalConv1d(cin, cout, k, stride=b)] for a boolean [b]: Python
    computes the pad amount with [b] as the integer 0 or 1, and
    [nn.Conv1d] stores the boolean. *)
Lemma CausalConv1d_bool_stride (cin cout k : Z) (b : bool) :
  0 <= cin -> 0 <= cout -> 0 <= k ->
  CausalConv1d cin cout k [("stride", PyBool b)]
  = Ok (CausalConv1d_obj
          (mkConv1d cin cout k (int_value (PyBool b)) 1 1 true false)
          (mkPad (1 * (k - 1) - (int_value (PyBool b) - 1))
             (PyStr "constant"))).
Proof.
  intros Hi Ho Hk. unfold CausalConv1d.
  cbn -[ConvNd_init Z.mul Z.sub Z.add int_value].
  unfold ConvNd_init. cbn -[Z.mul Z.sub Z.add Z.modulo Z.leb int_value].
  rewrite !Z.mod_1_r. cbn [Z.eqb require bind].
  replace (0 <=? cin) with true by (symmetry; apply Z.leb_le; lia).
  replace (0 <=? cout) with true by (symmetry; apply Z.leb_le; lia).
  replace (0 <=? k) with true by (symmetry; apply Z.leb_le; lia).
  cbn -[Z.mul Z.sub Z.add int_value]. destruct b; reflexivity.
Qed.

Lemma CausalConvTranspose1d_bool_stride (cin cout k : Z) (b : bool) :
  0 <= cin -> 0 <= cout -> 0 <= k ->
  CausalConvTranspose1d cin cout k [("stride", PyBool b)]
  = Ok (CausalConvTranspose1d_obj
          (mkConv1d cin cout k (int_value (PyBool b)) 1 1 true false)
          (1 * (k - 1) - (int_value (PyBool b) - 1))).
Proof.
  intros Hi Ho Hk. unfold CausalConvTranspose1d.
  cbn -[ConvNd_init Z.mul Z.sub Z.add int_value].
  unfold ConvNd_init. cbn -[Z.mul Z.sub Z.add Z.modulo Z.leb int_value].
  rewrite !Z.mod_1_r. cbn [Z.eqb require bind].
  replace (0 <=? cin) with true by (symmetry; apply Z.leb_le; lia).
  replace (0 <=? cout) with true by (symmetry; apply Z.leb_le; lia).
  replace (0 <=? k) with true by (symmetry; apply Z.leb_le; lia).
  cbn -[Z.mul Z.sub Z.add int_value]. destruct b; reflexivity.
Qed.

Section DegenerateLayers.

Context {F : Type} {SF : Scalar F}.

(** X22.  The causal convolutions can be built with no input or no output
    channels, and only the forward pass tells.  [CausalConv1d] without
    output channels raises a [RuntimeError] on every input; without input
    channels it answers a signal of shape [(.., 0, T)], [T >= stride], with
    one of shape [(.., 0, floor(T / stride))]: no output channel either.
    [CausalConvTranspose1d] without input channels raises a [RuntimeError]
    on every input, and without output channels on every signal
    [(in_channels, T)] or [(batch, in_channels, T)] with [batch] not 0. *)
Theorem convolutions_without_channels
  (cin cout k s d T : Z) (lead : dims) (sd : state_dict F) (x : tensor F) :
  0 <= cin -> 0 <= cout -> 1 <= k -> 1 <= s -> 1 <= d ->
  exists conv up,
    CausalConv1d cin cout k [("stride", PyInt s); ("dilation", PyInt d)]
    = Ok conv /\
    CausalConvTranspose1d cin cout k
      [("stride", PyInt s); ("dilation", PyInt d)] = Ok up /\
    (cout = 0 -> call conv sd x [] = Raise RuntimeError) /\
    (cin = 0 -> 1 <= cout -> batch_lead lead -> shape x = lead ++ [0; T] ->
       s <= T ->
       exists y, call conv sd x [] = Ok y /\ shape y = lead ++ [0; T / s]) /\
    (cin = 0 -> call up sd x [] = Raise RuntimeError) /\
    (cout = 0 -> batch_lead lead -> hd 1 lead <> 0 ->
       shape x = lead ++ [cin; T] -> call up sd x [] = Raise RuntimeError).
Proof.
  intros Hi Ho Hk Hs Hd.
  exists (causal_conv cin cout k s d), (causal_conv_transpose cin cout k s d).
  split; [apply CausalConv1d_general; lia |].
  split; [apply CausalConvTranspose1d_general; lia |].
  split; [| split; [| split]].
  - intros ->. apply call_Raise_shape. simpl map.
    unfold causal_conv. cbn [out_shape]. unfold CausalConv1d_shape.
    cbn [pad_mode pad_left].
    destruct (F_pad_shape _ "constant" (shape x)) as [psh|e] eqn:E.
    + cbn [bind]. apply conv_shape_refuses; [reflexivity |].
      intros N C L. apply conv1d_rule_no_output.
    + apply F_pad_shape_constant_fails in E. subst e. reflexivity.
  - intros -> Hco Hl Hx HT. apply call_Ok_shape. simpl map. rewrite Hx.
    assert (Hp : 0 <= d * (k - 1)) by (apply Z.mul_nonneg_nonneg; lia).
    unfold causal_conv. cbn [out_shape]. unfold CausalConv1d_shape.
    cbn [pad_mode pad_left].
    change (lead ++ [0; T]) with (lead ++ [0] ++ [T]).
    rewrite app_assoc.
    rewrite F_pad_shape_constant by lia.
    cbn [bind]. rewrite <- app_assoc. cbn [app].
    rewrite conv_shape_lead by (reflexivity || assumption).
    unfold conv1d_rule, conv_params_positive, conv1d_length.
    cbn [stride dilation kernel_size groups in_channels out_channels].
    repeat pass_require. cbn [bind fst snd Z.eqb].
    replace (T + (d * (k - 1) - (s - 1)) - d * (k - 1) - 1) with (T - s)
      by ring.
    rewrite div_sub_stride by lia. reflexivity.
  - intros ->. apply call_Raise_shape. simpl map.
    unfold causal_conv_transpose. cbn [out_shape].
    unfold CausalConvTranspose1d_shape.
    rewrite conv_shape_refuses; [reflexivity | reflexivity |].
    intros N C L. apply conv_transpose1d_rule_no_input.
  - intros -> Hl Hn Hx. apply call_Raise_shape. simpl map. rewrite Hx.
    unfold causal_conv_transpose. cbn [out_shape].
    unfold CausalConvTranspose1d_shape.
    rewrite conv_shape_lead by (reflexivity || assumption).
    unfold conv_transpose1d_rule, conv_params_positive.
    cbn [stride dilation kernel_size groups in_channels out_channels].
    do 1 pass_require.
    destruct (Z.leb_spec 1 cin) as [Hci|Hci]; [| reflexivity].
    cbn [require bind]. rewrite Z.eqb_refl. cbn [require bind].
    destruct (Z.eqb_spec (hd 1 lead) 0) as [E|_]; [contradiction |].
    destruct (1 <=? T); reflexivity.
Qed.

(** X23.  A boolean [stride] passes both constructors: the pad amount and
    the trim are computed with it as the integer 0 or 1.  The convolution
    of PyTorch then refuses the stored boolean with a [TypeError] in every
    forward pass: in [CausalConv1d] once the input has been padded, which
    any tensor with a time axis is, and in [CausalConvTranspose1d] on
    every input. *)
Theorem boolean_stride_fails_at_forward
  (cin cout k T : Z) (b : bool) (lead : dims) (sd : state_dict F)
  (x : tensor F) :
  0 <= cin -> 0 <= cout -> 1 <= k ->
  exists conv up,
    CausalConv1d cin cout k [("stride", PyBool b)] = Ok conv /\
    CausalConvTranspose1d cin cout k [("stride", PyBool b)] = Ok up /\
    (shape x = lead ++ [T] -> 0 <= T ->
       call conv sd x [] = Raise TypeError) /\
    call up sd x [] = Raise TypeError.
Proof.
  intros Hi Ho Hk.
  eexists; eexists.
  split; [apply CausalConv1d_bool_stride; lia |].
  split; [apply CausalConvTranspose1d_bool_stride; lia |].
  split.
  - intros Hx HT. apply call_Raise_shape. simpl map. rewrite Hx.
    cbn [out_shape]. unfold CausalConv1d_shape. cbn [pad_mode pad_left].
    rewrite F_pad_shape_constant by (destruct b; cbn [int_value]; lia).
    reflexivity.
  - apply call_Raise_shape. reflexivity.
Qed.

(** X24.  [CausalConvTranspose1d] with at least one input and one output
    channel raises a [RuntimeError] on a signal [(in_channels, 0)] or
    [(batch, in_channels, 0)], [batch] not 0, whose time axis is empty,
    whatever the kernel size, the stride and the dilation. *)
Theorem CausalConvTranspose1d_empty_signal
  (cin cout k s d : Z) (lead : dims) (sd : state_dict F) (x : tensor F) :
  1 <= cin -> 1 <= cout -> 1 <= k -> 1 <= s -> 1 <= d ->
  batch_lead lead -> hd 1 lead <> 0 -> shape x = lead ++ [cin; 0] ->
  exists m,
    CausalConvTranspose1d cin cout k
      [("stride", PyInt s); ("dilation", PyInt d)] = Ok m /\
    call m sd x [] = Raise RuntimeError.
Proof.
  intros Hi Ho Hk Hs Hd Hl Hn Hx.
  exists (causal_conv_transpose cin cout k s d).
  split; [apply CausalConvTranspose1d_general; lia |].
  apply call_Raise_shape. simpl map. rewrite Hx.
  unfold causal_conv_transpose. cbn [out_shape].
  unfold CausalConvTranspose1d_shape.
  rewrite conv_shape_lead by (reflexivity || assumption).
  unfold conv_transpose1d_rule, conv_params_positive.
  cbn [stride dilation kernel_size groups in_channels out_channels].
  repeat pass_require.
  destruct (Z.eqb_spec (hd 1 lead) 0) as [E|_]; [contradiction |].
  reflexivity.
Qed.

End DegenerateLayers.

(** ** Concrete runs of the further properties *)

(** X1 at work: the first block of [Encoder(32, 64)] halves 16000
    samples. *)
Lemma EncoderBlock_frames_witness :
  exists blk y,
    EncoderBlock 32 64 2 = Ok blk /\
    call (SF := Z_scalar) blk (constant_state 1) (arange [2; 32; 16000]) []
    = Ok y /\
    shape y = [2; 64; 8000].
Proof.
  destruct (@EncoderBlock_frames Z Z_scalar 32 64 2 16000 [2]
              (constant_state 1) (arange [2; 32; 16000]))
    as [blk [Hblk [Hok _]]];
    try lia; try reflexivity; [unfold batch_lead; simpl; lia |].
  destruct (Hok ltac:(lia)) as [y [Hy Hsh]].
  exists blk, y. split; [exact Hblk |]. split; [exact Hy | exact Hsh].
Defined.

(** X2 at work: a block of stride 8 turns 50 frames into 400. *)
Lemma DecoderBlock_samples_witness :
  exists blk y,
    DecoderBlock 4 2 8 = Ok blk /\
    call (SF := Z_scalar) blk (constant_state 1) (arange [2; 4; 50]) []
    = Ok y /\
    shape y = [2; 2; 400].
Proof.
  destruct (@DecoderBlock_samples Z Z_scalar 4 2 8 50 [2]
              (constant_state 1) (arange [2; 4; 50]))
    as [blk [Hblk [y [Hy Hsh]]]];
    try lia; try reflexivity; [unfold batch_lead; simpl; lia |].
  exists blk, y. split; [exact Hblk |]. split; [exact Hy | exact Hsh].
Defined.

(** X3 at work: 16050 samples come back as 16000. *)
Lemma Decoder_after_Encoder_witness :
  exists enc dec e y,
    Encoder 32 64 = Ok enc /\ Decoder 32 64 64 = Ok dec /\
    Encoder_forward (SF := Z_scalar) enc (constant_state 1) (zeros [2; 16050])
    = Ok e /\
    Decoder_forward (SF := Z_scalar) dec (constant_state 1) e (zeros [2; 64])
    = Ok y /\
    shape y = [2; 16000].
Proof.
  destruct (@Decoder_after_Encoder Z Z_scalar 32 64 64 16050 [2]
              (constant_state 1) (constant_state 1)
              (zeros [2; 16050]) (zeros [2; 64]))
    as [enc [dec [e [y [Henc [Hdec [He [Hy [Hsh _]]]]]]]]];
    try lia; try reflexivity; [unfold batch_lead; simpl; lia |].
  exists enc, dec, e, y.
  split; [exact Henc |]. split; [exact Hdec |]. split; [exact He |].
  split; [exact Hy | exact Hsh].
Defined.

(** X4 at work: an embedding sequence without frames. *)
Lemma Decoder_refuses_witness :
  exists dec,
    Decoder 32 64 64 = Ok dec /\
    Decoder_forward (SF := Z_scalar) dec (constant_state 1)
      (zeros [2; 0; 64]) (zeros [2; 64]) = Raise RuntimeError.
Proof.
  destruct (@Decoder_refuses Z Z_scalar 32 64 64 [2] (constant_state 1)
              (zeros [2; 0; 64]) (zeros [2; 64]))
    as [dec [Hdec [Hempty _]]];
    try lia; [unfold batch_lead; simpl; lia |].
  exists dec. split; [exact Hdec | apply Hempty; reflexivity].
Defined.

(** X6 at work: a single-channel signal comes out with three channels. *)
Lemma FiLM_shapes_witness :
  exists m y,
    FiLM 3 2 = Ok m /\
    call (SF := Z_scalar) m (constant_state 1) (arange [2; 1; 4])
      [arange [2; 2]] = Ok y /\
    shape y = [2; 3; 4].
Proof.
  destruct (@FiLM_shapes Z Z_scalar 3 2 4 [2] (constant_state 1)
              (arange [2; 1; 4]) (arange [2; 2]))
    as [m [Hm [_ [Hone _]]]]; try lia.
  destruct (Hone eq_refl eq_refl) as [y [Hy Hsh]].
  exists m, y. split; [exact Hm |]. split; [exact Hy | exact Hsh].
Defined.

(** X7 at work: with every parameter equal to 1, [gamma] and [beta] of
    row 1 are [2 + 3 + 1 = 6], and the element 23 becomes
    [23 * 6 + 6]. *)
Lemma FiLM_affine_witness :
  exists m y,
    FiLM 3 2 = Ok m /\
    call (SF := Z_scalar) m (constant_state 1) (arange [2; 3; 4])
      [arange [2; 2]] = Ok y /\
    data y [1; 2; 3] = 23 * 6 + 6.
Proof.
  destruct (@FiLM_affine Z Z_scalar 3 2 4 [2] (constant_state 1)
              (arange [2; 3; 4]) (arange [2; 2]))
    as [m [y [Hm [Hy [_ Hdata]]]]]; try lia; try reflexivity.
  exists m, y. split; [exact Hm |]. split; [exact Hy |].
  change [1; 2; 3] with ([1] ++ [2; 3]).
  rewrite (Hdata [1] 2 3); [reflexivity | simpl; lia | lia | lia].
Defined.

(** X8 at work: kernel 4, stride 2; a silent signal and an impulse at
    sample 5 give the same frames 0 and 1. *)
Lemma CausalConv1d_causal_witness :
  exists m ox oy,
    CausalConv1d 1 1 4 [("stride", PyInt 2); ("dilation", PyInt 1)] = Ok m /\
    call (SF := Z_scalar) m (constant_state 1) (zeros [1; 8]) [] = Ok ox /\
    call (SF := Z_scalar) m (constant_state 1) (impulse_at 5 8) [] = Ok oy /\
    data ox [0; 1] = data oy [0; 1].
Proof.
  destruct (@CausalConv1d_causal Z Z_scalar 1 1 4 2 1 [] 8 8 3
              (constant_state 1) (zeros [1; 8]) (impulse_at 5 8))
    with (j := 1)
    as [m [ox [oy [Hm [Hox [_ [Hoy [_ [_ [_ Hsame]]]]]]]]]];
    try lia; try reflexivity; [unfold batch_lead; simpl; lia | |].
  - intros il c i Hil Hc Hi. apply in_range_nil_inv in Hil. subst il.
    cbn [app zeros impulse_at data].
    destruct (Z.eqb_spec i 5); [lia | reflexivity].
  - exists m, ox, oy. split; [exact Hm |]. split; [exact Hox |].
    split; [exact Hoy |]. apply (Hsame [] 0); [exact I | lia].
Defined.

(** X9 at work: kernel 4, stride 2; a silent signal and an impulse at
    frame 3 give the same samples up to sample 5. *)
Lemma CausalConvTranspose1d_causal_witness :
  exists m ox oy,
    CausalConvTranspose1d 1 1 4 [("stride", PyInt 2); ("dilation", PyInt 1)]
    = Ok m /\
    call (SF := Z_scalar) m (constant_state 1) (zeros [1; 4]) [] = Ok ox /\
    call (SF := Z_scalar) m (constant_state 1) (impulse_at 3 4) [] = Ok oy /\
    data ox [0; 5] = data oy [0; 5].
Proof.
  destruct (@CausalConvTranspose1d_causal Z Z_scalar 1 1 4 2 1 [] 4 4 2
              (constant_state 1) (zeros [1; 4]) (impulse_at 3 4))
    as [m [ox [oy [Hm [Hox [_ [Hoy [_ [_ [_ Hsame]]]]]]]]]];
    try lia; try reflexivity; [unfold batch_lead; simpl; lia | |].
  - intros il c i Hil Hc Hi. apply in_range_nil_inv in Hil. subst il.
    cbn [app zeros impulse_at data].
    destruct (Z.eqb_spec i 3); [lia | reflexivity].
  - exists m, ox, oy. split; [exact Hm |]. split; [exact Hox |].
    split; [exact Hoy |]. apply (Hsame [] 0 5); [exact I | lia | lia].
Defined.

(** X10 at work: two sequences that share frame 0 decode to the same
    first 320 samples. *)
Lemma Decoder_causal_witness :
  exists dec wx wy,
    Decoder 1 1 1 = Ok dec /\
    Decoder_forward (SF := Z_scalar) dec (constant_state 1)
      (zeros [2; 1]) (zeros [1]) = Ok wx /\
    Decoder_forward (SF := Z_scalar) dec (constant_state 1)
      (arange [3; 1]) (zeros [1]) = Ok wy /\
    data wx [319] = data wy [319].
Proof.
  destruct (@Decoder_causal Z Z_scalar 1 1 1 [] 2 3 0 (constant_state 1)
              (zeros [2; 1]) (arange [3; 1]) (zeros [1]))
    as [dec [wx [wy [Hdec [Hwx [_ [Hwy [_ [_ [_ Hsame]]]]]]]]]];
    try lia; try reflexivity; [unfold batch_lead; simpl; lia | |].
  - intros il i e Hil Hi He. apply in_range_nil_inv in Hil. subst il.
    cbn [app zeros arange data]. lia.
  - exists dec, wx, wy. split; [exact Hdec |]. split; [exact Hwx |].
    split; [exact Hwy |].
    apply (Hsame [] 319); [exact I | unfold frame_end; lia].
Defined.

(** X11 at work: kernel 2, dilation 1; the first output sample reads
    input sample 1. *)
Lemma CausalConv1d_reflect_witness :
  exists m ox oy,
    CausalConv1d 1 1 2
      [("dilation", PyInt 1); ("padding_mode", PyStr "reflect")] = Ok m /\
    call (SF := Z_scalar) m (constant_state 1) (zeros [1; 2]) [] = Ok ox /\
    call (SF := Z_scalar) m (constant_state 1) (impulse_at 1 2) [] = Ok oy /\
    data (zeros [1; 2]) [0; 0] = data (impulse_at 1 2) [0; 0] /\
    data ox [0; 0] = 1 /\ data oy [0; 0] = 2.
Proof.
  destruct (@CausalConv1d_reflect_looks_ahead 2 1 ltac:(lia) ltac:(lia))
    as [m [ox [oy [Hm [Hox [Hoy [Hsame [H1 H2]]]]]]]].
  exists m, ox, oy. split; [exact Hm |]. split; [exact Hox |].
  split; [exact Hoy |]. split; [apply Hsame; lia |].
  split; [exact H1 | exact H2].
Defined.

(** X13 at work, with the constants of the training script: 64 embedding
    dimensions and 100 classes. *)
Lemma EncoderClassifier_logits_witness :
  exists enc cls y,
    Encoder 32 EMBEDDING_DIMS = Ok enc /\
    EncoderClassifier (Encoder_forward (SF := Z_scalar) enc)
      EMBEDDING_DIMS NUM_CLASSES (@nil (string * pyobj)) = Ok cls /\
    EncoderClassifier_forward (SF := Z_scalar) (NF := Z_norm_scalar) cls
      (constant_state 1) (zeros [2; 16000]) = Ok y /\
    shape y = [2; 50; 100].
Proof.
  destruct (@EncoderClassifier_logits Z Z_scalar Z_norm_scalar 32 64 64 100
              16000 [2] (constant_state 1) (zeros [2; 16000]))
    as [enc [cls [Henc [Hcls [Hok _]]]]];
    try (unfold EMBEDDING_DIMS, NUM_CLASSES; lia); try reflexivity;
    [unfold batch_lead; simpl; lia |].
  destruct (Hok eq_refl) as [y [Hy Hsh]].
  exists enc, cls, y. split; [exact Henc |]. split; [exact Hcls |].
  split; [exact Hy | exact Hsh].
Defined.

(** X14 at work: a silent waveform and one that is silent up to sample
    319 give the same logits for frame 0. *)
Lemma EncoderClassifier_causal_witness :
  exists enc cls lx ly,
    Encoder 1 1 = Ok enc /\
    EncoderClassifier (Encoder_forward (SF := Z_scalar) enc) 1 3
      (@nil (string * pyobj)) = Ok cls /\
    EncoderClassifier_forward (SF := Z_scalar) (NF := Z_norm_scalar) cls
      (constant_state 1) (zeros [640]) = Ok lx /\
    EncoderClassifier_forward (SF := Z_scalar) (NF := Z_norm_scalar) cls
      (constant_state 1) (step_after 319 960) = Ok ly /\
    data lx [0; 2] = data ly [0; 2].
Proof.
  destruct (@EncoderClassifier_causal Z Z_scalar Z_norm_scalar 1 1 3 []
              640 960 319 (constant_state 1) (zeros [640])
              (step_after 319 960))
    with (j := 0)
    as [enc [cls [lx [ly [Henc [Hcls [Hlx [_ [Hly [_ [_ [_ Hsame]]]]]]]]]]]];
    try reflexivity; try (unfold frame_end; lia);
    [unfold batch_lead; simpl; lia | |].
  - intros il i Hil Hi. apply in_range_nil_inv in Hil. subst il.
    cbn [app zeros step_after data].
    destruct (Z.leb_spec i 319); [reflexivity | lia].
  - exists enc, cls, lx, ly. split; [exact Henc |]. split; [exact Hcls |].
    split; [exact Hlx |]. split; [exact Hly |].
    apply (Hsame [] 2); [exact I | lia].
Defined.

(** X15 at work: two waveforms of 640 samples, nothing masked. *)
Lemma get_batch_labels_masked_witness :
  exists labels,
    get_batch_labels (constant_units 7) (zeros [2; 640]) (all_true [2; 640])
    = Ok labels /\
    shape labels = [2; 2].
Proof.
  destruct (@get_batch_labels_masked Z (constant_units 7) (zeros [2; 640])
              (all_true [2; 640]) 2 640)
    as [labels [Hl [Hsh _]]]; try lia; try reflexivity.
  - intros s Hs. eexists. split; [reflexivity |].
    cbn [shape]. rewrite Hs. reflexivity.
  - exists labels. split; [exact Hl | exact Hsh].
Defined.

(** X17 at work: a silent batch and a batch whose second row is not
    silent give the same embeddings for the first row. *)
Lemma Encoder_rows_independent_witness :
  exists enc ex ey,
    Encoder 1 1 = Ok enc /\
    Encoder_forward (SF := Z_scalar) enc (constant_state 1) (zeros [2; 640])
    = Ok ex /\
    Encoder_forward (SF := Z_scalar) enc (constant_state 1)
      (row_numbers [2; 640]) = Ok ey /\
    data ex [0; 1; 0] = data ey [0; 1; 0].
Proof.
  destruct (@Encoder_rows_independent Z Z_scalar 1 1 2 640 0
              (constant_state 1) (zeros [2; 640]) (row_numbers [2; 640]))
    as [enc [ex [ey [Henc [Hex [_ [Hey [_ Hsame]]]]]]]];
    try lia; try reflexivity.
  exists enc, ex, ey. split; [exact Henc |]. split; [exact Hex |].
  split; [exact Hey |].
  apply Hsame; [change (640 / 320) with 2; lia | lia].
Defined.

(** X18 at work: [ResidualUnit(4, dilation=3, stride=2)] raises on 8
    samples. *)
Lemma ResidualUnit_stride_keyword_witness :
  exists m,
    ResidualUnit 4 3 7 [("stride", PyInt 2)] = Ok m /\
    call (SF := Z_scalar) m (constant_state 1) (arange [2; 4; 8]) []
    = Raise RuntimeError.
Proof.
  destruct (@ResidualUnit_stride_keyword Z Z_scalar 4 3 7 2 8 [2]
              (constant_state 1) (arange [2; 4; 8]))
    as [m [Hm [_ [_ Hlong]]]];
    try lia; try reflexivity; [unfold batch_lead; simpl; lia |].
  exists m. split; [exact Hm | apply Hlong; lia].
Defined.

(** X19 at work: a waveform tensor with two batch axes. *)
Lemma networks_refuse_ranks_witness :
  exists enc,
    Encoder 32 64 = Ok enc /\
    Encoder_forward (SF := Z_scalar) enc (constant_state 1)
      (zeros [2; 3; 16000]) = Raise RuntimeError.
Proof.
  destruct (@networks_refuse_ranks Z Z_scalar 32 64 64 (constant_state 1)
              (zeros [2; 3; 16000]) (zeros [2; 64]))
    as [enc [dec [Henc [_ [_ [Hrank _]]]]]]; try lia.
  exists enc. split; [exact Henc |].
  apply (Hrank [2; 3] 16000); [simpl; lia | reflexivity].
Defined.

(** X21 at work: two batches that share the sequence and the condition of
    row 0 decode to the same waveform in row 0. *)
Lemma Decoder_rows_independent_witness :
  exists dec wx wy,
    Decoder 1 1 1 = Ok dec /\
    Decoder_forward (SF := Z_scalar) dec (constant_state 1)
      (zeros [2; 2; 1]) (zeros [2; 1]) = Ok wx /\
    Decoder_forward (SF := Z_scalar) dec (constant_state 1)
      (row_numbers [2; 2; 1]) (row_numbers [2; 1]) = Ok wy /\
    data wx [0; 639] = data wy [0; 639].
Proof.
  destruct (@Decoder_rows_independent Z Z_scalar 1 1 1 2 2 0
              (constant_state 1) (zeros [2; 2; 1]) (row_numbers [2; 2; 1])
              (zeros [2; 1]) (row_numbers [2; 1]))
    as [dec [wx [wy [Hdec [Hwx [_ [Hwy [_ Hsame]]]]]]]];
    try lia; try reflexivity.
  exists dec, wx, wy. split; [exact Hdec |]. split; [exact Hwx |].
  split; [exact Hwy |]. apply Hsame. lia.
Defined.

(** X22 at work: a layer with four input channels and no output channel
    refuses a signal, and a layer with no input channel answers with no
    channel. *)
Lemma convolutions_without_channels_witness :
  (exists conv,
     CausalConv1d 4 0 7 [("stride", PyInt 1); ("dilation", PyInt 1)]
     = Ok conv /\
     call (SF := Z_scalar) conv (constant_state 1) (arange [2; 4; 10]) []
     = Raise RuntimeError) /\
  (exists conv y,
     CausalConv1d 0 3 4 [("stride", PyInt 2); ("dilation", PyInt 1)]
     = Ok conv /\
     call (SF := Z_scalar) conv (constant_state 1) (zeros [2; 0; 10]) []
     = Ok y /\
     shape y = [2; 0; 5]).
Proof.
  split.
  - destruct (@convolutions_without_channels Z Z_scalar 4 0 7 1 1 10 [2]
                (constant_state 1) (arange [2; 4; 10]))
      as [conv [up [Hconv [_ [Hno _]]]]]; try lia.
    exists conv. split; [exact Hconv | apply Hno; reflexivity].
  - destruct (@convolutions_without_channels Z Z_scalar 0 3 4 2 1 10 [2]
                (constant_state 1) (zeros [2; 0; 10]))
      as [conv [up [Hconv [_ [_ [Hempty _]]]]]]; try lia.
    destruct Hempty as [y [Hy Hsh]];
      try lia; try reflexivity; [unfold batch_lead; simpl; lia |].
    exists conv, y. split; [exact Hconv |]. split; [exact Hy | exact Hsh].
Defined.

(** X23 at work: [stride=True]. *)
Lemma boolean_stride_fails_at_forward_witness :
  exists conv up,
    CausalConv1d 1 1 3 [("stride", PyBool true)] = Ok conv /\
    CausalConvTranspose1d 1 1 3 [("stride", PyBool true)] = Ok up /\
    call (SF := Z_scalar) conv (constant_state 1) (arange [1; 1; 5]) []
    = Raise TypeError /\
    call (SF := Z_scalar) up (constant_state 1) (arange [1; 1; 5]) []
    = Raise TypeError.
Proof.
  destruct (@boolean_stride_fails_at_forward Z Z_scalar 1 1 3 5 true [1; 1]
              (constant_state 1) (arange [1; 1; 5]))
    as [conv [up [Hconv [Hup [Hc Hu]]]]]; try lia.
  exists conv, up. split; [exact Hconv |]. split; [exact Hup |].
  split; [apply Hc; [reflexivity | lia] | exact Hu].
Defined.

(** X24 at work: kernel 4 and stride 2 on a signal with no sample. *)
Lemma CausalConvTranspose1d_empty_signal_witness :
  exists m,
    CausalConvTranspose1d 1 1 4 [("stride", PyInt 2); ("dilation", PyInt 1)]
    = Ok m /\
    call (SF := Z_scalar) m (constant_state 1) (zeros [1; 1; 0]) []
    = Raise RuntimeError.
Proof.
  apply (@CausalConvTranspose1d_empty_signal Z Z_scalar 1 1 4 2 1 [1]
           (constant_state 1) (zeros [1; 1; 0]));
    try lia; try reflexivity; [unfold batch_lead; simpl; lia | simpl; lia].
Defined.
